(** * Orbit: the session store and the session reconciler

    A shallow embedding of the service worker [background.js] (storage and
    tab operations) and of the activity classification of [popup.js].

    Modelling choices, all visible in the definitions below:
    - JavaScript values are the JSON fragment plus [undefined]; an object is
      a finite map from property names to values.  Members inherited from
      [Object.prototype] and the built-in members of arrays and strings are
      not represented: the program never reads them on untrusted values.
    - A number is carried around and tested with [typeof], never computed
      with, so its payload is an integer.
    - Strings are sequences of 8-bit code units; [trim] strips the white
      space of that range.
    - Every handler is [async] and awaits each host call before the next
      statement, so a handler is a computation over an explicit world
      (storage, window, clock, identifier source).  An exception leaves the
      world as it was when thrown.  The host calls themselves succeed; the
      calls of a [Promise.all] batch are issued in list order.
    - The world keeps a history of the tab calls with the window each one
      left behind, which is what the ordering statements talk about. *)

From stdpp Require Import gmap strings list fin_maps pretty.
From Stdlib Require Import ZArith Ascii Sorted.

#[local] Set Warnings "-register-all".
#[local] Open Scope string_scope.
#[local] Open Scope list_scope.

(** ** JavaScript values *)

Module Js.

Inductive JsVal : Type :=
| JUndefined
| JNull
| JBool (b : bool)
| JNum (n : Z)
| JStr (s : string)
| JArr (items : list JsVal)
| JObj (props : gmap string JsVal).

Inductive JsType : Type :=
| TUndefined | TObject | TBoolean | TNumber | TString.

#[global] Instance JsType_eq_dec : EqDecision JsType.
Proof. solve_decision. Defined.

(** [typeof v]; note [typeof null === "object"] and arrays are objects. *)
Definition typeof (v : JsVal) : JsType :=
  match v with
  | JUndefined => TUndefined
  | JNull => TObject
  | JBool _ => TBoolean
  | JNum _ => TNumber
  | JStr _ => TString
  | JArr _ => TObject
  | JObj _ => TObject
  end.

(** ToBoolean: what [!v] and [if (v)] look at. *)
Definition truthy (v : JsVal) : bool :=
  match v with
  | JUndefined | JNull => false
  | JBool b => b
  | JNum n => negb (n =? 0)%Z
  | JStr s => negb (String.eqb s "")
  | JArr _ | JObj _ => true
  end.

Definition isArray (v : JsVal) : bool :=
  match v with JArr _ => true | _ => false end.

(** [a || b] *)
Definition js_or (a b : JsVal) : JsVal := if truthy a then a else b.

(** [a === b] on primitives.  Two arrays or two objects are equal only when
    they are the same reference, which never happens between a stored value
    and a message argument. *)
Definition strict_eq (a b : JsVal) : bool :=
  match a, b with
  | JUndefined, JUndefined => true
  | JNull, JNull => true
  | JBool x, JBool y => Bool.eqb x y
  | JNum x, JNum y => (x =? y)%Z
  | JStr x, JStr y => String.eqb x y
  | _, _ => false
  end.

(** An optional string read back from a host API: absent is [undefined]. *)
Definition of_opt (o : option string) : JsVal :=
  match o with Some s => JStr s | None => JUndefined end.

(** ** Errors and results *)

(** The handlers throw [new Error(message)]; the five messages are the five
    error kinds.  [TypeError] is what the runtime throws on a property read
    of [null] or [undefined], on [Object.entries(null)], or on a call of
    something that is not a function. *)
Inductive Error : Type :=
| ValidationError
| NotFoundError
| NoSaveableTabsError
| NoRestorableTabsError
| InvalidFormatError
| TypeError.

#[global] Instance Error_eq_dec : EqDecision Error.
Proof. solve_decision. Defined.

Definition message (e : Error) : string :=
  match e with
  | ValidationError => "Session name cannot be empty."
  | NotFoundError => "Session not found."
  | NoSaveableTabsError => "No saveable tabs found in the current window."
  | NoRestorableTabsError => "No restorable tabs in this session."
  | InvalidFormatError => "Invalid import file format."
  | TypeError => "TypeError"
  end.

Inductive Result (A : Type) : Type :=
| Ok (a : A)
| Throw (e : Error).
Arguments Ok {A} a.
Arguments Throw {A} e.

Definition rbind {A B} (r : Result A) (k : A → Result B) : Result B :=
  match r with Ok a => k a | Throw e => Throw e end.

(** ** What a plain object inherits *)

(** The values above are the ones the storage and the messages carry:
    data.  A plain object also has the members of [Object.prototype], which
    [o[k]] reads when [o] has no own property [k]: the prototype itself
    under [__proto__], the [Object] function under [constructor], and ten
    methods. *)
Inductive Builtin : Type :=
| ObjectPrototype
| ObjectFunction
| DefineGetter
| DefineSetter
| LookupGetter
| LookupSetter
| HasOwnProperty
| IsPrototypeOf
| PropertyIsEnumerable
| ToLocaleString
| ToString
| ValueOf.

#[global] Instance Builtin_eq_dec : EqDecision Builtin.
Proof. solve_decision. Defined.

Definition prototypeMembers : list (string * Builtin) :=
  [("__proto__", ObjectPrototype); ("constructor", ObjectFunction);
   ("__defineGetter__", DefineGetter); ("__defineSetter__", DefineSetter);
   ("__lookupGetter__", LookupGetter); ("__lookupSetter__", LookupSetter);
   ("hasOwnProperty", HasOwnProperty); ("isPrototypeOf", IsPrototypeOf);
   ("propertyIsEnumerable", PropertyIsEnumerable);
   ("toLocaleString", ToLocaleString); ("toString", ToString);
   ("valueOf", ValueOf)].

(** The member of [Object.prototype] a key names, if any. *)
Definition inherited (k : string) : option Builtin :=
  snd <$> List.find (λ member, String.eqb member.1 k) prototypeMembers.

(** What the program has assigned on these objects since the script was
    loaded.  The source assigns two members on a looked-up session, [tabs]
    (always an array) and [name] (always a string); [name] is read-only on a
    function, so that only the prototype can come to carry one.
    [strictCode] tells whether the script runs as strict code, as a module
    does: the manifest, which decides it, is not among the sources. *)
Record Realm : Type := mkRealm {
  strictCode : bool;
  tabsOn : Builtin → option (list JsVal);
  nameOnPrototype : option string
}.

Definition freshRealm (strict : bool) : Realm := mkRealm strict (λ _, None) None.

Definition setTabsOn (r : Realm) (b : Builtin) (l : list JsVal) : Realm :=
  mkRealm (strictCode r)
    (λ b', if bool_decide (b' = b) then Some l else tabsOn r b')
    (nameOnPrototype r).

Definition setNameOnPrototype (r : Realm) (n : string) : Realm :=
  mkRealm (strictCode r) (tabsOn r) (Some n).

(** What a value without an own property [k] reads for [v.k]: the member
    assigned on [Object.prototype], if there is one. *)
Definition inheritedValue (r : Realm) (k : string) : JsVal :=
  if String.eqb k "tabs" then from_option JArr JUndefined (tabsOn r ObjectPrototype)
  else if String.eqb k "name" then from_option JStr JUndefined (nameOnPrototype r)
  else JUndefined.

(** [v.k] where nothing has been assigned on [Object.prototype] under [k]:
    throws on [null] and [undefined], is [undefined] for a missing property
    and for any property of a primitive.  The source reads [id],
    [createdAt], [url] and [sessions], which are never assigned on a
    built-in object; and the popup, which has a realm of its own, assigns no
    [tabs] there. *)
Definition get_prop (v : JsVal) (k : string) : Result JsVal :=
  match v with
  | JUndefined | JNull => Throw TypeError
  | JObj o => Ok (default JUndefined (o !! k))
  | _ => Ok JUndefined
  end.

(** [v.k] in the service worker, for [k] one of [tabs] and [name]. *)
Definition read (r : Realm) (v : JsVal) (k : string) : Result JsVal :=
  match v with
  | JUndefined | JNull => Throw TypeError
  | JObj o => Ok (default (inheritedValue r k) (o !! k))
  | _ => Ok (inheritedValue r k)
  end.

(** What [o[k]] gives on a plain object held as a map: a stored value, a
    built-in object, or [undefined]. *)
Inductive Looked : Type :=
| Value (v : JsVal)
| Member (b : Builtin).

Definition index (o : gmap string JsVal) (k : string) : Looked :=
  match o !! k with
  | Some v => Value v
  | None =>
      match inherited k with
      | Some b => Member b
      | None => Value JUndefined
      end
  end.

(** ToBoolean of what was looked up: a built-in object is truthy. *)
Definition present (x : Looked) : bool :=
  match x with
  | Value v => truthy v
  | Member _ => true
  end.

(** [x.tabs] on what was looked up.  A function without a [tabs] of its
    own reads the one of [Object.prototype]. *)
Definition readTabs (r : Realm) (x : Looked) : Result JsVal :=
  match x with
  | Value v => read r v "tabs"
  | Member b =>
      Ok (match tabsOn r b with
          | Some l => JArr l
          | None => inheritedValue r "tabs"
          end)
  end.

(** The reply's [session: sessions[sessionId]] as the message channel
    carries it: the reply is serialised as JSON, which leaves a function
    out and keeps of the prototype what has been assigned on it. *)
Definition sent (r : Realm) (x : Looked) : JsVal :=
  match x with
  | Value v => v
  | Member ObjectPrototype =>
      let named :=
        match nameOnPrototype r with
        | Some n => <["name" := JStr n]> ∅
        | None => ∅
        end in
      JObj (match tabsOn r ObjectPrototype with
            | Some l => <["tabs" := JArr l]> named
            | None => named
            end)
  | Member _ => JUndefined
  end.

(** [v.k = x] on a stored object: the property is written.  (On an array
    the named property does not survive the JSON serialisation of the
    storage, and on a primitive the assignment is dropped or, in strict
    code, throws: see [assignTabs] and [assignName].) *)
Definition set_prop (v : JsVal) (k : string) (x : JsVal) : JsVal :=
  match v with
  | JObj o => JObj (<[k := x]> o)
  | _ => v
  end.

(** The own enumerable properties of a value as key/value pairs, the order
    being that of the map's enumeration; an array has its indices as keys. *)
Definition own_entries (v : JsVal) : list (string * JsVal) :=
  match v with
  | JObj o => map_to_list o
  | JArr l => imap (λ i x, (pretty i, x)) l
  | _ => []
  end.

(** [Object.entries(v)] *)
Definition object_entries (v : JsVal) : Result (list (string * JsVal)) :=
  match v with
  | JUndefined | JNull => Throw TypeError
  | _ => Ok (own_entries v)
  end.

(** [{...v, k: x}] *)
Definition spread_with (v : JsVal) (k : string) (x : JsVal) : JsVal :=
  JObj (<[k := x]> (list_to_map (own_entries v))).

(** [l.filter(p)] for a callback that may throw. *)
Fixpoint filterR {A} (p : A → Result bool) (l : list A) : Result (list A) :=
  match l with
  | [] => Ok []
  | x :: r =>
      rbind (p x) (λ b,
      rbind (filterR p r) (λ r', Ok (if b then x :: r' else r')))
  end.

(** [v.filter(p)]: only an array has a [filter]. *)
Definition js_filter (p : JsVal → Result bool) (v : JsVal) : Result (list JsVal) :=
  match v with
  | JArr l => filterR p l
  | _ => Throw TypeError
  end.

(** [s.trim()] *)
Definition is_space (c : ascii) : bool :=
  let n := nat_of_ascii c in
  bool_decide (n = 9 ∨ n = 10 ∨ n = 11 ∨ n = 12 ∨ n = 13 ∨ n = 32 ∨ n = 160).

Fixpoint trimStart (s : string) : string :=
  match s with
  | String c r => if is_space c then trimStart r else s
  | EmptyString => EmptyString
  end.

Definition trim (s : string) : string :=
  String.rev (trimStart (String.rev (trimStart s))).

End Js.
Export Js.

(** ** The host: storage, window, clock and identifier source *)

Module Host.

(** What [chrome.tabs.query] returns for a tab.  [url] and [title] are
    optional members of a [Tab]. *)
Record LiveTab : Type := mkTab {
  tabId : nat;
  tabUrl : option string;
  tabTitle : option string
}.

(** A call on the tab-control surface. *)
Inductive TabCall : Type :=
| Query
| Create (url : JsVal) (active : bool)
| Remove (ids : list nat).

(** [chrome.storage.local], with its two keys. *)
Record Storage : Type := mkStorage {
  sessionsKey : option (gmap string JsVal);
  activeSessionIdKey : option string
}.

(** [realm] is the state of the worker's built-in objects; [uuids] is the
    source [crypto.randomUUID] draws from. *)
Record World : Type := mkWorld {
  storage : Storage;
  window : list LiveTab;
  nextTabId : nat;
  clock : Z;
  uuids : nat → string;
  drawn : nat;
  history : list (TabCall * list LiveTab);
  realm : Realm
}.

Definition with_storage (w : World) (s : Storage) : World :=
  mkWorld s (window w) (nextTabId w) (clock w) (uuids w) (drawn w) (history w) (realm w).

Definition with_realm (w : World) (r : Realm) : World :=
  mkWorld (storage w) (window w) (nextTabId w) (clock w) (uuids w) (drawn w) (history w) r.

(** A tab call leaves a window behind and is recorded with it. *)
Definition after_call (w : World) (c : TabCall) (win : list LiveTab) (next : nat) : World :=
  mkWorld (storage w) win next (clock w) (uuids w) (drawn w) (history w ++ [(c, win)])
    (realm w).

(** Computations of a handler: the world is threaded, and a thrown error
    keeps the world reached so far. *)
Definition M (A : Type) : Type := World → World * Result A.

Definition ret {A} (a : A) : M A := λ w, (w, Ok a).

Definition throw {A} (e : Error) : M A := λ w, (w, Throw e).

Definition lift {A} (r : Result A) : M A := λ w, (w, r).

Definition bind {A B} (c : M A) (k : A → M B) : M B := λ w,
  match c w with
  | (w', Ok a) => k a w'
  | (w', Throw e) => (w', Throw e)
  end.

Declare Scope host_scope.
Delimit Scope host_scope with host.
Notation "'let*' x ':=' c 'in' k" := (bind c (λ x, k))
  (at level 10, x pattern, c at level 100, k at level 200) : host_scope.
Notation "c ';;' k" := (bind c (λ _, k))
  (at level 100, k at level 200, right associativity) : host_scope.
#[local] Open Scope host_scope.

(** [await Promise.all(ps)]: every computation of the batch is started, in
    order; the batch rejects with the first rejection, after all of them. *)
Fixpoint promise_all {A} (ps : list (M A)) : M (list A) := λ w,
  match ps with
  | [] => (w, Ok [])
  | p :: rest =>
      let '(w1, r1) := p w in
      let '(w2, r2) := promise_all rest w1 in
      (w2, match r1, r2 with
           | Ok a, Ok l => Ok (a :: l)
           | Throw e, _ => Throw e
           | Ok _, Throw e => Throw e
           end)
  end.

(** [chrome.storage.local.get("sessions")], the [sessions] member. *)
Definition storage_get_sessions : M (option (gmap string JsVal)) := λ w,
  (w, Ok (sessionsKey (storage w))).

(** [chrome.storage.local.set({ sessions })] *)
Definition storage_set_sessions (sessions : gmap string JsVal) : M unit := λ w,
  (with_storage w (mkStorage (Some sessions) (activeSessionIdKey (storage w))), Ok tt).

(** [chrome.storage.local.get("activeSessionId")], the member. *)
Definition storage_get_active : M (option string) := λ w,
  (w, Ok (activeSessionIdKey (storage w))).

(** [chrome.storage.local.set({ activeSessionId })] *)
Definition storage_set_active (id : string) : M unit := λ w,
  (with_storage w (mkStorage (sessionsKey (storage w)) (Some id)), Ok tt).

(** [chrome.storage.local.remove("activeSessionId")] *)
Definition storage_remove_active : M unit := λ w,
  (with_storage w (mkStorage (sessionsKey (storage w)) None), Ok tt).

(** [chrome.tabs.query({ currentWindow: true })] *)
Definition tabs_query : M (list LiveTab) := λ w,
  (after_call w Query (window w) (nextTabId w), Ok (window w)).

(** [chrome.tabs.create({ url, active })]: the new tab gets an identifier
    never used before and is appended to the window; without a URL the
    host opens its new-tab page; a URL that is not a string is refused. *)
Definition tabs_create (url : JsVal) (active : bool) : M LiveTab := λ w,
  let opened (u : string) :=
    let t := mkTab (nextTabId w) (Some u) None in
    (after_call w (Create url active) (window w ++ [t]) (S (nextTabId w)), Ok t) in
  match url with
  | JStr u => opened u
  | JUndefined => opened "chrome://newtab/"
  | _ => (w, Throw TypeError)
  end.

(** [chrome.tabs.remove(ids)] *)
Definition tabs_remove (ids : list nat) : M unit := λ w,
  (after_call w (Remove ids)
     (List.filter (λ t, negb (bool_decide (tabId t ∈ ids))) (window w))
     (nextTabId w), Ok tt).

(** [crypto.randomUUID()].  What it returns is a version-4 UUID, which
    never is [__proto__]: an assignment [sessions[id] = ...] under such an
    id creates an own property. *)
Definition randomUUID : M string := λ w,
  (mkWorld (storage w) (window w) (nextTabId w) (clock w) (uuids w) (S (drawn w)) (history w)
     (realm w),
   Ok (uuids w (drawn w))).

(** The state of the built-in objects, as a read. *)
Definition get_realm : M Realm := λ w, (w, Ok (realm w)).

(** [sessions[k].tabs = l].  An own property [k] holds a stored value: an
    object gets the member, an array gets a named property that the
    serialisation of the storage drops, a primitive drops the assignment
    or, in strict code, throws.  Without an own property the assignment
    lands on the built-in object the key names. *)
Definition assignTabs (sessions : gmap string JsVal) (k : string) (l : list JsVal)
  : M (gmap string JsVal) := λ w,
  match index sessions k with
  | Value (JObj o) => (w, Ok (<[k := set_prop (JObj o) "tabs" (JArr l)]> sessions))
  | Value (JArr _) => (w, Ok sessions)
  | Value JUndefined | Value JNull => (w, Throw TypeError)
  | Value _ => (w, if strictCode (realm w) then Throw TypeError else Ok sessions)
  | Member b => (with_realm w (setTabsOn (realm w) b l), Ok sessions)
  end.

(** [sessions[k].name = n]: as for [tabs], but the [name] of a function is
    read-only, so that on one the assignment is dropped or, in strict code,
    throws. *)
Definition assignName (sessions : gmap string JsVal) (k : string) (n : string)
  : M (gmap string JsVal) := λ w,
  match index sessions k with
  | Value (JObj o) => (w, Ok (<[k := set_prop (JObj o) "name" (JStr n)]> sessions))
  | Value (JArr _) => (w, Ok sessions)
  | Value JUndefined | Value JNull => (w, Throw TypeError)
  | Value _ => (w, if strictCode (realm w) then Throw TypeError else Ok sessions)
  | Member ObjectPrototype => (with_realm w (setNameOnPrototype (realm w) n), Ok sessions)
  | Member _ => (w, if strictCode (realm w) then Throw TypeError else Ok sessions)
  end.

(** [Date.now()] *)
Definition dateNow : M Z := λ w, (w, Ok (clock w)).

End Host.
Export Host.
#[local] Open Scope host_scope.

(** ** background.js: the service worker *)

Module Background.

(** [blocked] of [isSafeUrl], in source order. *)
Definition blocked : list string :=
  ["chrome://"; "chrome-extension://"; "about:"; "edge://"; "brave://";
   "javascript:"; "data:"].

(** [url.startsWith(prefix)] *)
Definition startsWith (url prefix : string) : bool := String.prefix prefix url.

Definition isSafeUrl (url : JsVal) : bool :=
  if negb (truthy url) || negb (bool_decide (typeof url = TString)) then false
  else match url with
       | JStr s => negb (existsb (λ prefix, startsWith s prefix) blocked)
       | _ => false
       end.

Definition readSessions : M (gmap string JsVal) :=
  let* result := storage_get_sessions in
  ret (default ∅ result).

Definition writeSessions (sessions : gmap string JsVal) : M unit :=
  storage_set_sessions sessions.

(** [getSessions]: [activeSessionId ?? null], [None] standing for [null]. *)
Definition getSessions : M (gmap string JsVal * option string) :=
  let* sessions := readSessions in
  let* activeSessionId := storage_get_active in
  ret (sessions, activeSessionId).

(** [{ url: tab.url, title: tab.title || tab.url }] *)
Definition tabRecord (tab : LiveTab) : JsVal :=
  JObj (<["url" := of_opt (tabUrl tab)]>
        (<["title" := js_or (of_opt (tabTitle tab)) (of_opt (tabUrl tab))]> ∅)).

(** [tabs.filter((tab) => isSafeUrl(tab.url)).map(...)], the chain that
    [saveSession] and [updateSession] both apply to the queried tabs. *)
Definition captureTabs (tabs : list LiveTab) : list JsVal :=
  map tabRecord (List.filter (λ tab, isSafeUrl (of_opt (tabUrl tab))) tabs).

Definition saveSession (name : string) : M JsVal :=
  if negb (truthy (JStr name)) || negb (truthy (JStr (trim name)))
  then throw ValidationError
  else
    let* tabs := tabs_query in
    let filteredTabs := captureTabs tabs in
    if (length filteredTabs =? 0)%nat then throw NoSaveableTabsError
    else
      let* sessions := readSessions in
      let* id := randomUUID in
      let* now := dateNow in
      let session :=
        JObj (<["id" := JStr id]> (<["name" := JStr (trim name)]>
             (<["createdAt" := JNum now]> (<["tabs" := JArr filteredTabs]> ∅)))) in
      let sessions := <[id := session]> sessions in
      writeSessions sessions ;;
      let* r := get_realm in
      ret (sent r (index sessions id)).

(** The callback of both [filter] calls on stored tabs:
    [(tab) => isSafeUrl(tab.url)]. *)
Definition safeTab (tab : JsVal) : Result bool :=
  rbind (get_prop tab "url") (λ url, Ok (isSafeUrl url)).

(** [chrome.tabs.create({ url: tab.url, active: false })] *)
Definition openInBackground (tab : JsVal) : M LiveTab :=
  let* url := lift (get_prop tab "url") in
  tabs_create url false.

(** The items of an array, for [v.length] after [v.filter] went through. *)
Definition items_of (v : JsVal) : list JsVal :=
  match v with JArr l => l | _ => [] end.

Definition restoreSession (sessionId : string) (closeCurrentTabs : bool) : M Z :=
  let* sessions := readSessions in
  let session := index sessions sessionId in
  if negb (present session) then throw NotFoundError
  else
    let* r := get_realm in
    let* tabs := lift (readTabs r session) in
    let* safeTabs := lift (js_filter safeTab tabs) in
    if (length safeTabs =? 0)%nat then throw NoRestorableTabsError
    else
      (if closeCurrentTabs then
         let* currentTabs := tabs_query in
         let tabsToClose := map tabId currentTabs in
         let* url := lift (get_prop (nth 0 safeTabs JUndefined) "url") in
         tabs_create url true ;;
         tabs_remove tabsToClose ;;
         if (1 <? length safeTabs)%nat
         then promise_all (map openInBackground (drop 1 safeTabs)) ;; ret tt
         else ret tt
       else
         promise_all (map openInBackground safeTabs) ;; ret tt) ;;
      storage_set_active sessionId ;;
      let skipped := (Z.of_nat (length (items_of tabs)) - Z.of_nat (length safeTabs))%Z in
      ret skipped.

Definition updateSession (sessionId : string) : M JsVal :=
  let* sessions := readSessions in
  if negb (present (index sessions sessionId)) then throw NotFoundError
  else
    let* tabs := tabs_query in
    let filteredTabs := captureTabs tabs in
    if (length filteredTabs =? 0)%nat then throw NoSaveableTabsError
    else
      let* sessions := assignTabs sessions sessionId filteredTabs in
      writeSessions sessions ;;
      let* r := get_realm in
      ret (sent r (index sessions sessionId)).

(** [delete sessions[sessionId]] removes an own property and does nothing
    for an inherited one. *)
Definition deleteSession (sessionId : string) : M unit :=
  let* sessions := readSessions in
  if negb (present (index sessions sessionId)) then throw NotFoundError
  else
    let sessions := delete sessionId sessions in
    writeSessions sessions ;;
    let* activeSessionId := storage_get_active in
    (if strict_eq (of_opt activeSessionId) (JStr sessionId)
     then storage_remove_active
     else ret tt) ;;
    ret tt.

Definition renameSession (sessionId newName : string) : M unit :=
  if negb (truthy (JStr newName)) || negb (truthy (JStr (trim newName)))
  then throw ValidationError
  else
    let* sessions := readSessions in
    if negb (present (index sessions sessionId)) then throw NotFoundError
    else
      let* sessions := assignName sessions sessionId (trim newName) in
      writeSessions sessions ;;
      ret tt.

Definition exportSessions : M (gmap string JsVal) :=
  let* sessions := readSessions in
  ret sessions.

(** The guard of [importSessions]:
    [!data || typeof data !== "object" || typeof data.sessions !== "object"],
    with the short circuit that keeps [data.sessions] from being read on a
    falsy value. *)
Definition importGuard (data : JsVal) : Result bool :=
  if negb (truthy data) then Ok true
  else if negb (bool_decide (typeof data = TObject)) then Ok true
  else rbind (get_prop data "sessions") (λ sessions,
       Ok (negb (bool_decide (typeof sessions = TObject)))).

(** The callback of the import's [filter]:
    [(tab) => typeof tab.url === "string" && isSafeUrl(tab.url)]. *)
Definition importableTab (tab : JsVal) : Result bool :=
  rbind (get_prop tab "url") (λ url,
  Ok (bool_decide (typeof url = TString) && isSafeUrl url)).

(** One turn of the [for ... of Object.entries(data.sessions)] loop, on the
    pair of [existing] and [imported].  [existing[id]] is truthy for a key
    that names an inherited member; the assignment [existing[id] = ...] is
    reached only with [existing[id]] falsy, and then writes an own
    property. *)
Definition importEntry (r : Realm) (acc : gmap string JsVal * nat)
    (entry : string * JsVal) : Result (gmap string JsVal * nat) :=
  let '(existing, imported) := acc in
  let '(id, session) := entry in
  if present (index existing id) then Ok acc
  else
    rbind (get_prop session "id") (λ sid,
    if negb (bool_decide (typeof sid = TString)) then Ok acc
    else
      rbind (read r session "name") (λ sname,
      if negb (bool_decide (typeof sname = TString)) then Ok acc
      else
        rbind (get_prop session "createdAt") (λ screated,
        if negb (bool_decide (typeof screated = TNumber)) then Ok acc
        else
          rbind (read r session "tabs") (λ stabs,
          if negb (isArray stabs) then Ok acc
          else
            rbind (js_filter importableTab stabs) (λ safeTabs,
            Ok (<[id := spread_with session "tabs" (JArr safeTabs)]> existing,
                S imported)))))).

Fixpoint importLoop (r : Realm) (entries : list (string * JsVal))
    (acc : gmap string JsVal * nat) : Result (gmap string JsVal * nat) :=
  match entries with
  | [] => Ok acc
  | entry :: rest => rbind (importEntry r acc entry) (importLoop r rest)
  end.

Definition importSessions (data : JsVal) : M nat :=
  let* invalid := lift (importGuard data) in
  if (invalid : bool) then throw InvalidFormatError
  else
    let* existing := readSessions in
    let* payload := lift (get_prop data "sessions") in
    let* entries := lift (object_entries payload) in
    let* r := get_realm in
    let* (existing, imported) := lift (importLoop r entries (existing, 0)) in
    writeSessions existing ;;
    ret imported.

(** The messages the popup sends, one per [case] of [handleMessage]. *)
Inductive Message : Type :=
| GetSessions
| SaveSession (name : string)
| RestoreSession (sessionId : string) (closeCurrentTabs : bool)
| DeleteSession (sessionId : string)
| RenameSession (sessionId newName : string)
| ExportSessions
| ImportSessions (data : JsVal)
| UpdateSession (sessionId : string).

(** The [{ success: true, ... }] objects the handlers return. *)
Inductive Reply : Type :=
| SessionsReply (sessions : gmap string JsVal) (activeSessionId : option string)
| SessionReply (session : JsVal)
| RestoreReply (skipped : Z)
| DoneReply
| ExportReply (sessions : gmap string JsVal)
| ImportReply (imported : nat).

Definition handleMessage (message : Message) : M Reply :=
  match message with
  | GetSessions =>
      let* (sessions, activeSessionId) := getSessions in
      ret (SessionsReply sessions activeSessionId)
  | SaveSession name =>
      let* session := saveSession name in ret (SessionReply session)
  | RestoreSession sessionId closeCurrentTabs =>
      let* skipped := restoreSession sessionId closeCurrentTabs in
      ret (RestoreReply skipped)
  | DeleteSession sessionId => deleteSession sessionId ;; ret DoneReply
  | RenameSession sessionId newName => renameSession sessionId newName ;; ret DoneReply
  | ExportSessions =>
      let* sessions := exportSessions in ret (ExportReply sessions)
  | ImportSessions data =>
      let* imported := importSessions data in ret (ImportReply imported)
  | UpdateSession sessionId =>
      let* session := updateSession sessionId in ret (SessionReply session)
  end.

End Background.
Export Background.

(** ** popup.js: activity classification, export payload *)

Module Popup.

(** [new Set(currentTabs.map((t) => t.url))]: the members are strings, or
    [undefined] for a tab without URL. *)
Definition urlSet (currentTabs : list LiveTab) : gset (option string) :=
  list_to_set (map tabUrl currentTabs).

(** [currentUrls.has(v)] *)
Definition has (currentUrls : gset (option string)) (v : JsVal) : bool :=
  match v with
  | JStr s => bool_decide (Some s ∈ currentUrls)
  | JUndefined => bool_decide (None ∈ currentUrls)
  | _ => false
  end.

(** [l.every(p)]: stops at the first element that fails. *)
Fixpoint everyR {A} (p : A → Result bool) (l : list A) : Result bool :=
  match l with
  | [] => Ok true
  | x :: r => rbind (p x) (λ b, if b then everyR p r else Ok false)
  end.

(** [(tab) => currentUrls.has(tab.url)] *)
Definition isOpen (currentUrls : gset (option string)) (tab : JsVal) : Result bool :=
  rbind (get_prop tab "url") (λ url, Ok (has currentUrls url)).

(** [tabsMatch] of [buildSessionCard], on the items of [session.tabs]. *)
Definition tabsMatch (tabs : list JsVal) (currentUrls : gset (option string))
  : Result bool :=
  if negb (0 <? length tabs)%nat then Ok false
  else if negb (length tabs =? size currentUrls)%nat then Ok false
  else everyR (isOpen currentUrls) tabs.

(** The test inside [isModified] of [renderSessions]: the same without the
    [length > 0] conjunct. *)
Definition bannerMatch (tabs : list JsVal) (currentUrls : gset (option string))
  : Result bool :=
  if negb (length tabs =? size currentUrls)%nat then Ok false
  else everyR (isOpen currentUrls) tabs.

(** [session.tabs] as the array the popup takes it to be: the store never
    holds anything else there; a missing member makes [.length] throw. *)
Definition tabsOf (session : JsVal) : Result (list JsVal) :=
  rbind (get_prop session "tabs") (λ tabs,
  match tabs with JArr l => Ok l | _ => Throw TypeError end).

(** [activeSessionId] as received from [getSessions]: [None] is [null]. *)
Definition of_active (activeSessionId : option string) : JsVal :=
  match activeSessionId with Some id => JStr id | None => JNull end.

(** The flags computed at the top of [buildSessionCard]. *)
Record Card : Type := mkCard {
  isTracked : bool;
  matches : bool;
  isClean : bool;
  isModified : bool;
  isExact : bool
}.

Definition buildSessionCard (session : JsVal) (currentUrls : gset (option string))
    (activeSessionId : option string) : Result Card :=
  rbind (get_prop session "id") (λ id,
  let isTracked := strict_eq id (of_active activeSessionId) in
  rbind (tabsOf session) (λ tabs,
  rbind (tabsMatch tabs currentUrls) (λ tabsMatch,
  Ok (mkCard isTracked tabsMatch
        (isTracked && tabsMatch)
        (isTracked && negb tabsMatch)
        (negb isTracked && tabsMatch))))).

(** The four states of a session relative to the live window. *)
Inductive Activity : Type := Clean | Modified | Exact | Inactive.

#[global] Instance Activity_eq_dec : EqDecision Activity.
Proof. solve_decision. Defined.

Definition activity (c : Card) : Activity :=
  if isClean c then Clean
  else if isModified c then Modified
  else if isExact c then Exact
  else Inactive.

Definition classify (session : JsVal) (currentUrls : gset (option string))
    (activeSessionId : option string) : Result Activity :=
  rbind (buildSessionCard session currentUrls activeSessionId) (λ c, Ok (activity c)).

(** [isModified] of [renderSessions], which shows the unsaved-changes
    banner.  A pointer that names an inherited member reads a built-in
    object, which has no [tabs] in the popup, so that [.length] throws. *)
Definition bannerModified (sessions : gmap string JsVal)
    (currentUrls : gset (option string)) (activeSessionId : option string)
  : Result bool :=
  let activeSession :=
    if truthy (of_active activeSessionId)
    then index sessions (default "" activeSessionId)
    else Value JNull in
  if negb (present activeSession) then Ok false
  else rbind (match activeSession with
              | Value session => tabsOf session
              | Member _ => Throw TypeError
              end) (λ tabs,
       rbind (bannerMatch tabs currentUrls) (λ m, Ok (negb m))).

(** [const payload = { sessions: res.sessions }] of the popup's
    [exportSessions]; the file holds its JSON text, and parsing that text
    gives the value back. *)
Definition exportPayload (sessions : gmap string JsVal) : JsVal :=
  JObj (<["sessions" := JObj sessions]> ∅).

End Popup.
Export Popup.

(** ** Vocabulary of the specification *)

Module Spec.

(** A stored tab record: an object whose [url] is a string. *)
Definition is_tab (t : JsVal) : bool :=
  match t with
  | JObj o => match o !! "url" with Some (JStr _) => true | _ => false end
  | _ => false
  end.

(** A structurally valid session: [id] and [name] strings, [createdAt] a
    number, [tabs] a sequence of tab records. *)
Definition is_session (v : JsVal) : bool :=
  match v with
  | JObj o =>
      match o !! "id", o !! "name", o !! "createdAt", o !! "tabs" with
      | Some (JStr _), Some (JStr _), Some (JNum _), Some (JArr l) => forallb is_tab l
      | _, _, _, _ => false
      end
  | _ => false
  end.

(** A collection all of whose sessions are structurally valid. *)
Definition valid_collection (sessions : gmap string JsVal) : Prop :=
  map_Forall (λ _ v, is_session v = true) sessions.

(** The collection and the pointer as [getSessions] reports them. *)
Definition collection (w : World) : gmap string JsVal :=
  default ∅ (sessionsKey (storage w)).

Definition pointer (w : World) : option string :=
  activeSessionIdKey (storage w).

(** The URL member of a tab record, and the URL set of a stored list. *)
Definition url_of (t : JsVal) : option string :=
  match get_prop t "url" with
  | Ok (JStr u) => Some u
  | _ => None
  end.

Definition storedUrlSet (tabs : list JsVal) : gset (option string) :=
  list_to_set (url_of <$> tabs).

(** The safe-filter on a list of tab records. *)
Definition safeFilter (tabs : list JsVal) : list JsVal :=
  List.filter (λ t, isSafeUrl (of_opt (url_of t))) tabs.

(** The stored tab list of a session. *)
Definition tabs_of (session : JsVal) : list JsVal :=
  match get_prop session "tabs" with
  | Ok (JArr l) => l
  | _ => []
  end.

(** The world after a handler, and what it returned. *)
Definition world_after {A} (c : M A) (w : World) : World := fst (c w).
Definition result_of {A} (c : M A) (w : World) : Result A := snd (c w).

(** Tab identifiers handed out so far are below the next one. *)
Definition fresh_ids (w : World) : Prop :=
  Forall (λ t, tabId t < nextTabId w) (window w).

(** Nothing has been assigned on a built-in object. *)
Definition pristine (r : Realm) : Prop :=
  (∀ b, tabsOn r b = None) ∧ nameOnPrototype r = None.

(** The identifiers drawn are UUIDs: none names a member of
    [Object.prototype]. *)
Definition uuid_source (w : World) : Prop :=
  ∀ n, inherited (uuids w n) = None.

(** No key of the collection names a member of [Object.prototype]. *)
Definition plain_keys (sessions : gmap string JsVal) : Prop :=
  ∀ k, is_Some (sessions !! k) → inherited k = None.

(** A message whose session id, if it carries one, names no member of
    [Object.prototype]. *)
Definition ordinary (message : Message) : Prop :=
  match message with
  | RestoreSession id _ | DeleteSession id | RenameSession id _ | UpdateSession id =>
      inherited id = None
  | _ => True
  end.

(** The states the store goes through, by messages of a given kind: it
    starts with nothing stored and a worker just loaded; the service worker
    handles a message; or the user changes the window and time passes,
    which the storage does not see, and the worker may be stopped and
    loaded again, which gives it new built-in objects. *)
Inductive reachable_by (allowed : Message → Prop) : World → Prop :=
| reach_init w :
    storage w = mkStorage None None →
    pristine (realm w) →
    uuid_source w →
    reachable_by allowed w
| reach_message w message :
    reachable_by allowed w →
    allowed message →
    reachable_by allowed (world_after (handleMessage message) w)
| reach_environment w w' :
    reachable_by allowed w →
    storage w' = storage w →
    realm w' = realm w ∨ realm w' = freshRealm (strictCode (realm w)) →
    uuid_source w' →
    reachable_by allowed w'.

(** Every message is allowed. *)
Definition reachable : World → Prop := reachable_by (λ _, True).

(** The tab a successful [chrome.tabs.create] for a stored tab adds. *)
Definition openedTab (w : World) (t : JsVal) : LiveTab :=
  mkTab (nextTabId w) (url_of t) None.

(** The world after one background creation, and after a batch of them
    issued in list order. *)
Definition afterOpen (w : World) (t : JsVal) : World :=
  after_call w (Create (of_opt (url_of t)) false)
    (window w ++ [openedTab w t]) (S (nextTabId w)).

Definition afterBatch (tabs : list JsVal) (w : World) : World :=
  foldl afterOpen w tabs.

(** The three phases of a restore that closes the current tabs, as the
    calls they make with the window each call leaves: the anchor is created
    in the foreground, the tabs that were there are removed, the remaining
    tabs are created in the background. *)
Definition anchorTab (next : nat) (first : JsVal) : LiveTab :=
  mkTab next (url_of first) None.

Fixpoint fillTrace (rest : list JsVal) (win : list LiveTab) (next : nat)
  : list (TabCall * list LiveTab) :=
  match rest with
  | [] => []
  | t :: r =>
      let win' := (win ++ [mkTab next (url_of t) None])%list in
      (Create (of_opt (url_of t)) false, win') :: fillTrace r win' (S next)
  end.

Definition closeTrace (before : list LiveTab) (next : nat) (first : JsVal)
    (rest : list JsVal) : list (TabCall * list LiveTab) :=
  (Create (of_opt (url_of first)) true, before ++ [anchorTab next first])
  :: (Remove (map tabId before), [anchorTab next first])
  :: fillTrace rest [anchorTab next first] (S next).

(** What [restoreSession] answers, read off the collection. *)
Definition restoreOutcome (sessions : gmap string JsVal) (id : string) : Result Z :=
  match sessions !! id with
  | None => Throw NotFoundError
  | Some session =>
      match safeFilter (tabs_of session) with
      | [] => Throw NoRestorableTabsError
      | safe =>
          Ok (Z.of_nat (length (tabs_of session)) - Z.of_nat (length safe))%Z
      end
  end.

(** The world in which a restore that closes the current tabs ends, before
    the pointer is written. *)
Definition closedWorld (w : World) (first : JsVal) (rest : list JsVal) : World :=
  let w1 := after_call w Query (window w) (nextTabId w) in
  let w2 := after_call w1 (Create (of_opt (url_of first)) true)
              (window w ++ [anchorTab (nextTabId w) first]) (S (nextTabId w)) in
  let w3 := after_call w2 (Remove (map tabId (window w)))
              (List.filter (λ t, negb (bool_decide (tabId t ∈ map tabId (window w))))
                 (window w ++ [anchorTab (nextTabId w) first]))
              (S (nextTabId w)) in
  afterBatch rest w3.

(** A computation that never writes the storage, one that never throws,
    and one whose failures leave the storage as it was. *)
Definition quiet {A} (c : M A) : Prop :=
  ∀ w, storage (fst (c w)) = storage w.

Definition unfailing {A} (c : M A) : Prop :=
  ∀ w, ∃ a, snd (c w) = Ok a.

Definition atomic {A} (c : M A) : Prop :=
  ∀ w e, snd (c w) = Throw e → storage (fst (c w)) = storage w.


(** A payload shaped as [{ sessions: mapping }]. *)
Definition sessions_mapping (data : JsVal) : Prop :=
  ∃ o m, data = JObj o ∧ o !! "sessions" = Some (JObj m).

(** The pointer names a session of the collection, or nothing. *)
Definition pointer_valid (w : World) : Prop :=
  match pointer w with
  | Some id => is_Some (collection w !! id)
  | None => True
  end.

(** What the store satisfies as long as no message has reached a built-in
    object: the sessions are valid, the pointer names one of them or
    nothing, no key names an inherited member, nothing has been assigned on
    a built-in object, and the identifiers drawn are UUIDs. *)
Definition store_invariant (w : World) : Prop :=
  valid_collection (collection w)
  ∧ pointer_valid w
  ∧ plain_keys (collection w)
  ∧ pristine (realm w)
  ∧ uuid_source w.

(** What one turn of the import loop can do: leave the accumulator as it
    is, throw a [TypeError], or add a valid session under the entry's
    key. *)
Inductive ImportTurn (existing : gmap string JsVal) (imported : nat) (id : string)
    (session : JsVal) : Result (gmap string JsVal * nat) → Prop :=
| turn_skip : ImportTurn existing imported id session (Ok (existing, imported))
| turn_throw : ImportTurn existing imported id session (Throw TypeError)
| turn_insert o safe tabs :
    present (index existing id) = false →
    session = JObj o →
    o !! "tabs" = Some (JArr tabs) →
    filterR importableTab tabs = Ok safe →
    is_session (JObj (<["tabs" := JArr safe]> o)) = true →
    ImportTurn existing imported id session
      (Ok (<[id := JObj (<["tabs" := JArr safe]> o)]> existing, S imported)).

End Spec.
Export Spec.

(** ** Sample data *)

Module Samples.

Definition urlA : string := "https://a.com".
Definition urlB : string := "https://b.com".

Definition tabA : JsVal :=
  JObj (<["url" := JStr urlA]> (<["title" := JStr "A"]> ∅)).
Definition tabB : JsVal :=
  JObj (<["url" := JStr urlB]> (<["title" := JStr "B"]> ∅)).
Definition tabSettings : JsVal :=
  JObj (<["url" := JStr "chrome://settings"]> (<["title" := JStr "Settings"]> ∅)).

Definition mkSession (id name : string) (createdAt : Z) (tabs : list JsVal) : JsVal :=
  JObj (<["id" := JStr id]> (<["name" := JStr name]>
       (<["createdAt" := JNum createdAt]> (<["tabs" := JArr tabs]> ∅)))).

(** A session saved from a window that showed the same page twice. *)
Definition sessionAA : JsVal := mkSession "s1" "Work" 1 [tabA; tabA].
Definition sessionAB : JsVal := mkSession "s2" "Trip" 2 [tabA; tabB].
Definition sessionMixed : JsVal := mkSession "s3" "Mixed" 3 [tabA; tabSettings; tabB].

Definition liveX : LiveTab := mkTab 1 (Some "https://x.com") (Some "X").
Definition liveY : LiveTab := mkTab 2 (Some "https://y.com") (Some "Y").
Definition liveA : LiveTab := mkTab 3 (Some urlA) (Some "A").
Definition liveSettings : LiveTab := mkTab 4 (Some "chrome://settings") (Some "Settings").

Definition someUuid (n : nat) : string := "uuid-" +:+ pretty n.

(** A world with the given collection, pointer and window. *)
Definition world (sessions : option (gmap string JsVal)) (active : option string)
    (win : list LiveTab) : World :=
  mkWorld (mkStorage sessions active) win 10 1000 someUuid 0 [] (freshRealm false).

End Samples.

(** ** Further vocabulary *)

Module Stored.

(** A list of tab records all of which have a URL that passes the
    safe-URL test. *)
Definition safe_tabs (l : list JsVal) : bool :=
  forallb (λ t, isSafeUrl (of_opt (url_of t))) l.





(** A computation that writes neither the collection nor a built-in
    object, and leaves the identifier source alone. *)
Definition steady {A} (c : M A) : Prop :=
  ∀ w, sessionsKey (storage (fst (c w))) = sessionsKey (storage w)
       ∧ realm (fst (c w)) = realm w
       ∧ uuids (fst (c w)) = uuids w.

(** The safe-URL test as the specification words it: a non-empty string
    that begins with none of the internal-scheme prefixes.  The prefixes
    are the seven literals of the source's list; to begin with a prefix is
    stated on its own, not through the program's [startsWith]. *)
Definition denylist : list string :=
  ["chrome://"; "chrome-extension://"; "about:"; "edge://"; "brave://";
   "javascript:"; "data:"].

Definition begins_with (prefix u : string) : Prop :=
  ∃ rest, u = prefix +:+ rest.

Definition safe_url (u : string) : Prop :=
  u ≠ "" ∧ Forall (λ prefix, ¬ begins_with prefix u) denylist.

(** The record that stands for a live tab: its URL, and as title its
    title, or its URL when it has no title or an empty one. *)
Definition captures (tab : LiveTab) (record : JsVal) : Prop :=
  ∃ u, tabUrl tab = Some u
       ∧ record
         = JObj (<["url" := JStr u]>
                 (<["title" := JStr (match tabTitle tab with
                                     | Some t => if String.eqb t "" then u else t
                                     | None => u
                                     end)]> ∅)).

(** The live tabs with a safe URL, in window order. *)
Definition safeLive (live : list LiveTab) : list LiveTab :=
  List.filter (λ tab, isSafeUrl (of_opt (tabUrl tab))) live.

(** Every stored value is truthy, so that [sessions[id]] tells whether
    the key is there. *)
Definition all_truthy (sessions : gmap string JsVal) : Prop :=
  map_Forall (λ _ v, truthy v = true) sessions.

End Stored.
Export Stored.

(** ** popup.js: messages, the cached view, the listing, escaping *)

Module PopupFlow.

(** What the popup receives for a message: the handler's reply, or
    [{ success: false, error: err.message }] from the listener's [catch]. *)
Inductive Response : Type :=
| Success (reply : Reply)
| Failure (error : string).

(** The listener of background.js together with [sendMessage] of
    popup.js. *)
Definition sendMessage (message : Message) (w : World) : World * Response :=
  match handleMessage message w with
  | (w', Ok reply) => (w', Success reply)
  | (w', Throw e) => (w', Failure (Js.message e))
  end.

(** The test of [onImportFileSelected] before the file is sent:
    [!parsed || typeof parsed.sessions !== "object"]. *)
Definition fileRejected (parsed : JsVal) : Result bool :=
  if negb (truthy parsed) then Ok true
  else rbind (get_prop parsed "sessions") (λ sessions,
       Ok (negb (bool_decide (typeof sessions = TObject)))).

(** The popup's state: [allSessions], [currentActiveSessionId],
    [currentUrlSet]. *)
Record View : Type := mkView {
  allSessions : gmap string JsVal;
  currentActiveSessionId : option string;
  currentUrlSet : gset (option string)
}.

Definition loadAndRender (v : View) (w : World) : World * View :=
  let '(w1, res) := sendMessage GetSessions w in
  match tabs_query w1 with
  | (w2, Ok currentTabs) =>
      match res with
      | Success (SessionsReply sessions activeSessionId) =>
          (w2, mkView sessions activeSessionId (urlSet currentTabs))
      | _ => (w2, v)
      end
  | (w2, Throw _) => (w2, v)
  end.

(** [session.id] as the string a message carries.  A session whose [id]
    is not a string has no message in this model: the functions below
    answer [None] for it. *)
Definition stringId (session : JsVal) : option string :=
  match get_prop session "id" with
  | Ok (JStr id) => Some id
  | _ => None
  end.

(** The functions return the world and the view they leave, or the
    [TypeError] the popup dies with; [None] where the popup goes on in a
    way this model does not follow (a key that is not a string, an
    assignment that lands on a built-in object of the popup, on an array or
    on a primitive). *)
Definition doSaveSession (value : string) (v : View) (w : World)
  : option (World * Result View) :=
  let name := trim value in
  if negb (truthy (JStr name)) then Some (w, Ok v)
  else
    match sendMessage (SaveSession name) w with
    | (w', Success (SessionReply session)) =>
        match stringId session with
        | Some id =>
            Some (w', Ok (mkView (<[id := session]> (allSessions v))
                            (currentActiveSessionId v) (currentUrlSet v)))
        | None => None
        end
    | (w', Success _) => Some (w', Throw TypeError)
    | (w', Failure _) => Some (w', Ok v)
    end.

(** [showRenameModal(session)] followed by [doRenameSession()] with the
    given text in the input. *)
Definition doRenameSession (session : JsVal) (value : string) (v : View) (w : World)
  : option (World * Result View) :=
  match stringId session with
  | None => None
  | Some pendingRenameId =>
      let newName := trim value in
      if negb (truthy (JStr newName)) then Some (w, Ok v)
      else
        match sendMessage (RenameSession pendingRenameId newName) w with
        | (w', Success _) =>
            match index (allSessions v) pendingRenameId with
            | Value (JObj o) =>
                Some (w',
                      Ok (mkView (<[pendingRenameId := set_prop (JObj o) "name" (JStr newName)]>
                                    (allSessions v))
                            (currentActiveSessionId v) (currentUrlSet v)))
            | Value JUndefined | Value JNull => Some (w', Throw TypeError)
            | _ => None
            end
        | (w', Failure _) => Some (w', Ok v)
        end
  end.

(** [showUpdateModal(session)] followed by [doUpdateSession()].  The
    assignment [allSessions[res.session.id] = res.session] writes an own
    property, except under the key [__proto__] when the cache has no such
    property, where it replaces the prototype of the cache. *)
Definition doUpdateSession (session : JsVal) (v : View) (w : World)
  : option (World * Result View) :=
  match stringId session with
  | None => None
  | Some id =>
      match sendMessage (UpdateSession id) w with
      | (w', Success (SessionReply updated)) =>
          match get_prop updated "id" with
          | Throw e => Some (w', Throw e)
          | Ok (JStr key) =>
              if String.eqb key "__proto__" && bool_decide (allSessions v !! key = None)
              then None
              else Some (w', Ok (mkView (<[key := updated]> (allSessions v))
                                   (currentActiveSessionId v) (currentUrlSet v)))
          | Ok _ => None
          end
      | (w', Success _) => Some (w', Throw TypeError)
      | (w', Failure _) => Some (w', Ok v)
      end
  end.

Definition doDeleteSession (session : JsVal) (v : View) (w : World)
  : option (World * Result View) :=
  match stringId session with
  | None => None
  | Some id =>
      match sendMessage (DeleteSession id) w with
      | (w', Success _) =>
          Some (w', Ok (mkView (delete id (allSessions v))
                          (if strict_eq (of_active (currentActiveSessionId v)) (JStr id)
                           then None else currentActiveSessionId v)
                          (currentUrlSet v)))
      | (w', Failure _) => Some (w', Ok v)
      end
  end.

(** The reader's callback of [onImportFileSelected] on a parsed file. *)
Definition importFile (parsed : JsVal) (v : View) (w : World)
  : World * Result View :=
  match fileRejected parsed with
  | Throw e => (w, Throw e)
  | Ok true => (w, Ok v)
  | Ok false =>
      match sendMessage (ImportSessions parsed) w with
      | (w', Success _) => let '(w'', v') := loadAndRender v w' in (w'', Ok v')
      | (w', Failure _) => (w', Ok v)
      end
  end.

(** What the user can do in the popup. *)
Inductive Action : Type :=
| ActLoad
| ActSave (value : string)
| ActRename (session : JsVal) (value : string)
| ActUpdate (session : JsVal)
| ActDelete (session : JsVal)
| ActImport (parsed : JsVal).

Definition perform (a : Action) (v : View) (w : World) : option (World * Result View) :=
  match a with
  | ActLoad => let '(w', v') := loadAndRender v w in Some (w', Ok v')
  | ActSave value => doSaveSession value v w
  | ActRename session value => doRenameSession session value v w
  | ActUpdate session => doUpdateSession session v w
  | ActDelete session => doDeleteSession session v w
  | ActImport parsed => Some (importFile parsed v w)
  end.

(** The view shows what is stored. *)
Definition coherent (v : View) (w : World) : Prop :=
  allSessions v = collection w ∧ currentActiveSessionId v = pointer w.

(** Every session carries the key it is stored under as its [id]. *)
Definition keyed (sessions : gmap string JsVal) : Prop :=
  map_Forall (λ k s, get_prop s "id" = Ok (JStr k)) sessions.

(** The session an action is about is one of the cards, that is, one of
    the cached sessions. *)
Definition offered (a : Action) (v : View) : Prop :=
  match a with
  | ActLoad | ActSave _ | ActImport _ => True
  | ActRename session _ | ActUpdate session | ActDelete session =>
      ∃ k, allSessions v !! k = Some session
  end.

(** [escapeHtml]: four global replacements, in this order. *)
Fixpoint replaceAll (c : ascii) (replacement : string) (s : string) : string :=
  match s with
  | EmptyString => EmptyString
  | String a r =>
      if Ascii.eqb a c then replacement +:+ replaceAll c replacement r
      else String a (replaceAll c replacement r)
  end.

Definition quoteChar : ascii := ascii_of_nat 34.

Definition escapeHtml (str : string) : string :=
  replaceAll quoteChar "&quot;"
    (replaceAll ">" "&gt;" (replaceAll "<" "&lt;" (replaceAll "&" "&amp;" str))).

(** [s.toLowerCase()] on 8-bit code units. *)
Definition lowerChar (c : ascii) : ascii :=
  let n := nat_of_ascii c in
  if bool_decide ((65 ≤ n ∧ n ≤ 90) ∨ (192 ≤ n ∧ n ≤ 222 ∧ n ≠ 215))%nat
  then ascii_of_nat (n + 32) else c.

Fixpoint toLowerCase (s : string) : string :=
  match s with
  | EmptyString => EmptyString
  | String c r => String (lowerChar c) (toLowerCase r)
  end.

(** [s.includes(sub)] *)
Fixpoint includes (s sub : string) : bool :=
  String.prefix sub s
  || match s with
     | EmptyString => false
     | String _ r => includes r sub
     end.

(** The filter of [renderSessions]:
    [(s) => !query || s.name.toLowerCase().includes(query)]. *)
Definition matchesQuery (query : string) (s : JsVal) : Result bool :=
  if negb (truthy (JStr query)) then Ok true
  else rbind (get_prop s "name") (λ name,
       match name with
       | JStr n => Ok (includes (toLowerCase n) query)
       | _ => Throw TypeError
       end).

(** [createdAt] as the number the comparator subtracts. *)
Definition createdAtOf (s : JsVal) : option Z :=
  match get_prop s "createdAt" with
  | Ok (JNum n) => Some n
  | _ => None
  end.

(** [.sort((a, b) => b.createdAt - a.createdAt)]: the sort is stable, so
    its result is the one of a stable insertion sort, newest first. *)
Fixpoint insertNewest (x : Z * JsVal) (l : list (Z * JsVal)) : list (Z * JsVal) :=
  match l with
  | [] => [x]
  | y :: r => if (y.1 <=? x.1)%Z then x :: l else y :: insertNewest x r
  end.

Definition sortNewest (l : list (Z * JsVal)) : list (Z * JsVal) :=
  foldr insertNewest [] l.

(** [entries] of [renderSessions], from the text of the search box and
    [Object.values(sessions)].  [None] when some [createdAt] is not a
    number, on which the comparator is not modelled. *)
Definition entries (search : string) (values : list JsVal)
  : option (Result (list JsVal)) :=
  let query := toLowerCase (trim search) in
  match filterR (matchesQuery query) values with
  | Throw e => Some (Throw e)
  | Ok kept =>
      match mapM createdAtOf kept with
      | Some keys => Some (Ok (map snd (sortNewest (zip keys kept))))
      | None => None
      end
  end.

End PopupFlow.
Export PopupFlow.

(** ** What the popup shows, stated apart from the code *)

Module Shown.

(** One character as markup text. *)
Definition escapeChar (c : ascii) : string :=
  if Ascii.eqb c "&" then "&amp;"
  else if Ascii.eqb c "<" then "&lt;"
  else if Ascii.eqb c ">" then "&gt;"
  else if Ascii.eqb c quoteChar then "&quot;"
  else String c EmptyString.

(** A character that cannot open or close a tag or an attribute value. *)
Definition inert (c : ascii) : bool :=
  negb (Ascii.eqb c "<") && negb (Ascii.eqb c ">") && negb (Ascii.eqb c quoteChar).

(** The name and the creation time of a valid session. *)
Definition nameOf (s : JsVal) : string :=
  match get_prop s "name" with
  | Ok (JStr n) => n
  | _ => EmptyString
  end.

Definition createdAt (s : JsVal) : Z := default 0%Z (createdAtOf s).

(** The sessions a search text lets through: all of them when the text is
    blank, else those whose lower-cased name contains the lower-cased,
    trimmed text. *)
Definition shown (search : string) (s : JsVal) : bool :=
  let query := toLowerCase (trim search) in
  String.eqb query EmptyString || includes (toLowerCase (nameOf s)) query.

Definition newestFirst (l : list JsVal) : Prop :=
  StronglySorted (λ a b, (createdAt b ≤ createdAt a)%Z) l.

Definition createdAtIs (k : Z) (s : JsVal) : bool := (createdAt s =? k)%Z.

End Shown.
Export Shown.

(** ** background.js, the earlier revision kept in the file *)

Module Legacy.

(** The filter of the earlier [saveSession]. *)
Definition keptByFilter (tab : LiveTab) : bool :=
  match tabUrl tab with
  | Some url =>
      truthy (JStr url)
      && negb (startsWith url "chrome://")
      && negb (startsWith url "chrome-extension://")
      && negb (startsWith url "about:")
      && negb (startsWith url "edge://")
      && negb (startsWith url "brave://")
  | None => false
  end.

(** What [for (const tab of v)] goes through. *)
Fixpoint chars (s : string) : list JsVal :=
  match s with
  | EmptyString => []
  | String c r => JStr (String c EmptyString) :: chars r
  end.

Definition iterate (v : JsVal) : Result (list JsVal) :=
  match v with
  | JArr l => Ok l
  | JStr s => Ok (chars s)
  | _ => Throw TypeError
  end.

(** [for (const tab of tabs) await chrome.tabs.create({ url: tab.url })]:
    a created tab is active when [active] is not given. *)
Fixpoint createEach (tabs : list JsVal) : M unit :=
  match tabs with
  | [] => ret tt
  | tab :: rest =>
      let* url := lift (get_prop tab "url") in
      tabs_create url true ;;
      createEach rest
  end.

Definition restoreSession (sessionId : string) (closeCurrentTabs : bool) : M unit :=
  let* sessions := readSessions in
  let session := index sessions sessionId in
  if negb (present session) then throw NotFoundError
  else
    (if closeCurrentTabs then
       let* currentTabs := tabs_query in
       let tabIds := map tabId currentTabs in
       if (0 <? length tabIds)%nat then tabs_remove tabIds else ret tt
     else ret tt) ;;
    let* r := get_realm in
    let* tabs := lift (readTabs r session) in
    let* items := lift (iterate tabs) in
    createEach items.

End Legacy.

(** ** Properties *)

(** *** The safe-URL filter *)

Section SafeFilter.

Lemma isSafeUrl_string (s : string) :
  isSafeUrl (JStr s) = negb (String.eqb s "") && negb (existsb (startsWith s) blocked).
Proof.
  unfold isSafeUrl. cbn [truthy typeof].
  rewrite bool_decide_eq_true_2 by reflexivity.
  destruct (String.eqb s ""); reflexivity.
Qed.

Lemma isSafeUrl_inv (url : JsVal) :
  isSafeUrl url = true → ∃ s, url = JStr s.
Proof.
  destruct url; try (cbn; discriminate); eauto.
  unfold isSafeUrl; cbn. destruct b; discriminate.
  unfold isSafeUrl; cbn. destruct (negb (n =? 0)%Z); discriminate.
Qed.

Lemma isSafeUrl_iff (url : JsVal) :
  isSafeUrl url = true ↔
  ∃ s, url = JStr s ∧ s ≠ "" ∧ Forall (λ prefix, startsWith s prefix = false) blocked.
Proof.
  split.
  - intros H. destruct (isSafeUrl_inv _ H) as [s ->]. exists s.
    rewrite isSafeUrl_string in H.
    apply andb_true_iff in H as [Hne Hpre].
    split; [reflexivity|]. split.
    + intros ->. discriminate Hne.
    + apply negb_true_iff in Hpre.
      apply Forall_forall. intros p Hp.
      destruct (startsWith s p) eqn:E; [|reflexivity].
      assert (existsb (startsWith s) blocked = true) as Hex.
      { apply existsb_exists. exists p. split; [by apply list_elem_of_In|exact E]. }
      congruence.
  - intros (s & -> & Hne & Hpre).
    rewrite isSafeUrl_string. apply andb_true_iff. split.
    + apply negb_true_iff. apply String.eqb_neq. exact Hne.
    + apply negb_true_iff.
      destruct (existsb (startsWith s) blocked) eqn:E; [|reflexivity].
      apply existsb_exists in E as (p & Hp & Hs).
      rewrite Forall_forall in Hpre.
      rewrite (Hpre p) in Hs by (by apply list_elem_of_In). discriminate.
Qed.

Lemma filterR_idem {A} (p : A → Result bool) (l : list A) :
  rbind (filterR p l) (filterR p) = filterR p l.
Proof.
  induction l as [|x r IH]; [reflexivity|].
  cbn [filterR]. destruct (p x) as [b|e] eqn:Hx; [|reflexivity].
  cbn [rbind]. destruct (filterR p r) as [r'|e]; [|reflexivity].
  cbn [rbind] in *. destruct b; [|exact IH].
  cbn [filterR]. rewrite Hx, IH. reflexivity.
Qed.

Lemma filterR_elem_of {A} (p : A → Result bool) (l l' : list A) (x : A) :
  filterR p l = Ok l' → x ∈ l' ↔ x ∈ l ∧ p x = Ok true.
Proof.
  revert l'. induction l as [|y r IH]; intros l' H.
  - injection H as <-. split; [intros Hx|intros [Hx _]]; by apply elem_of_nil in Hx.
  - cbn [filterR] in H. destruct (p y) as [b|e] eqn:Hy; [|discriminate].
    cbn [rbind] in H. destruct (filterR p r) as [r'|e]; [|discriminate].
    injection H as <-. specialize (IH r' eq_refl).
    destruct b.
    + rewrite !elem_of_cons, IH. split.
      * intros [->|[? ?]]; auto.
      * intros [[->|?] ?]; auto.
    + rewrite elem_of_cons, IH. split.
      * intros [? ?]; auto.
      * intros [[->|?] ?]; [congruence|auto].
Qed.

Lemma filterR_total {A} (p : A → Result bool) (q : A → bool) (l : list A) :
  Forall (λ x, p x = Ok (q x)) l → filterR p l = Ok (List.filter q l).
Proof.
  induction 1 as [|x r Hx _ IH]; [reflexivity|].
  cbn [filterR List.filter]. rewrite Hx, IH. reflexivity.
Qed.

Lemma safeTab_tabRecord (tab : LiveTab) :
  safeTab (tabRecord tab) = Ok (isSafeUrl (of_opt (tabUrl tab))).
Proof.
  unfold safeTab, tabRecord, get_prop. rewrite lookup_insert_eq. reflexivity.
Qed.

Lemma filterR_captureTabs (live : list LiveTab) :
  filterR safeTab (captureTabs live) = Ok (captureTabs live).
Proof.
  unfold captureTabs. induction live as [|t r IH]; [reflexivity|].
  cbn [List.filter]. destruct (isSafeUrl (of_opt (tabUrl t))) eqn:E; [|exact IH].
  cbn [map filterR]. rewrite safeTab_tabRecord, E. cbn [rbind].
  rewrite IH. reflexivity.
Qed.

Lemma filter_filter_same {A} (q : A → bool) (l : list A) :
  List.filter q (List.filter q l) = List.filter q l.
Proof.
  induction l as [|x r IH]; [reflexivity|].
  cbn [List.filter]. destruct (q x) eqn:E; [|exact IH].
  cbn [List.filter]. rewrite E, IH. reflexivity.
Qed.

Lemma prefix_begins (prefix u : string) :
  String.prefix prefix u = true ↔ begins_with prefix u.
Proof.
  unfold begins_with. revert u. induction prefix as [|a p IH]; intros u.
  - split; [intros _; by exists u|intros _; by destruct u].
  - destruct u as [|b u]; cbn [String.prefix].
    + split; [discriminate|intros [rest H]; discriminate H].
    + destruct (ascii_dec a b) as [->|Hab].
      * rewrite IH. split; intros [rest H]; exists rest.
        -- change (String b p +:+ rest) with (String b (p +:+ rest)). by rewrite H.
        -- change (String b p +:+ rest) with (String b (p +:+ rest)) in H.
           by injection H.
      * split; [discriminate|]. intros [rest H].
        change (String a p +:+ rest) with (String a (p +:+ rest)) in H.
        injection H as H _. congruence.
Qed.

Lemma isSafeUrl_safe_url (url : JsVal) :
  isSafeUrl url = true ↔ ∃ u, url = JStr u ∧ safe_url u.
Proof.
  rewrite isSafeUrl_iff. unfold safe_url.
  change denylist with blocked.
  split; intros (u & -> & Hne & Hpre); exists u; (split; [reflexivity|]);
    (split; [exact Hne|]); eapply Forall_impl; try exact Hpre; cbn; intros prefix H.
  - intros Hb. apply prefix_begins in Hb. unfold startsWith in H. congruence.
  - unfold startsWith. destruct (String.prefix prefix u) eqn:E; [|reflexivity].
    exfalso. apply H. by apply prefix_begins.
Qed.

Lemma isSafeUrl_of_url (x : JsVal) :
  isSafeUrl x = isSafeUrl (of_opt (match x with JStr u => Some u | _ => None end)).
Proof.
  destruct x; try reflexivity.
  - cbn. unfold isSafeUrl. cbn. by destruct b.
  - cbn. unfold isSafeUrl. cbn. by destruct (negb (n =? 0)%Z).
Qed.

Lemma safeTab_read (t x : JsVal) :
  get_prop t "url" = Ok x →
  safeTab t = Ok (isSafeUrl (of_opt (url_of t)))
  ∧ importableTab t = Ok (isSafeUrl (of_opt (url_of t))).
Proof.
  intros H. unfold safeTab, importableTab, url_of. rewrite H. cbn [rbind].
  rewrite <- (isSafeUrl_of_url x). split; [reflexivity|]. f_equal.
  destruct (isSafeUrl x) eqn:E; [|by rewrite andb_false_r].
  destruct (isSafeUrl_inv x E) as [u ->]. reflexivity.
Qed.

Lemma get_prop_url_throws (t : JsVal) (e : Error) :
  get_prop t "url" = Throw e → e = TypeError ∧ (t = JUndefined ∨ t = JNull).
Proof. destruct t; cbn; intros H; try discriminate H; injection H as <-; auto. Qed.

(** What a filter with one of the two callbacks returns. *)
Lemma filterR_safe_outcome (p : JsVal → Result bool) (stored : list JsVal) :
  (∀ t, match get_prop t "url" with
        | Ok _ => p t = Ok (isSafeUrl (of_opt (url_of t)))
        | Throw e => p t = Throw e
        end) →
  match filterR p stored with
  | Ok kept => kept = safeFilter stored
  | Throw e => e = TypeError ∧ Exists (λ t, t = JUndefined ∨ t = JNull) stored
  end.
Proof.
  intros Hp. induction stored as [|t r IH]; [reflexivity|].
  cbn [filterR]. specialize (Hp t).
  destruct (get_prop t "url") as [x|e] eqn:Hx.
  - rewrite Hp. cbn [rbind].
    destruct (filterR p r) as [kept|e]; cbn [rbind].
    + rewrite IH. unfold safeFilter. cbn [List.filter].
      by destruct (isSafeUrl (of_opt (url_of t))).
    + destruct IH as [-> IH]. split; [reflexivity|]. by apply Exists_cons_tl.
  - rewrite Hp. cbn [rbind]. destruct (get_prop_url_throws t e Hx) as [-> Ht].
    split; [reflexivity|]. by apply Exists_cons_hd.
Qed.

Lemma safeTab_callback (t : JsVal) :
  match get_prop t "url" with
  | Ok _ => safeTab t = Ok (isSafeUrl (of_opt (url_of t)))
  | Throw e => safeTab t = Throw e
  end.
Proof.
  destruct (get_prop t "url") as [x|e] eqn:Hx.
  - by destruct (safeTab_read t x Hx).
  - unfold safeTab. by rewrite Hx.
Qed.

Lemma importableTab_callback (t : JsVal) :
  match get_prop t "url" with
  | Ok _ => importableTab t = Ok (isSafeUrl (of_opt (url_of t)))
  | Throw e => importableTab t = Throw e
  end.
Proof.
  destruct (get_prop t "url") as [x|e] eqn:Hx.
  - by destruct (safeTab_read t x Hx).
  - unfold importableTab. by rewrite Hx.
Qed.

Lemma safeFilter_elem_of (stored : list JsVal) (t : JsVal) :
  t ∈ safeFilter stored
  ↔ t ∈ stored ∧ ∃ u, get_prop t "url" = Ok (JStr u) ∧ safe_url u.
Proof.
  unfold safeFilter. rewrite list_elem_of_In, filter_In, <- list_elem_of_In.
  rewrite isSafeUrl_safe_url. unfold url_of. split.
  - intros [Hin (u & Hu & Hs)]. split; [exact Hin|]. exists u. split; [|exact Hs].
    destruct (get_prop t "url") as [[]|]; try discriminate Hu.
    by injection Hu as ->.
  - intros [Hin (u & Hu & Hs)]. split; [exact Hin|]. exists u. by rewrite Hu.
Qed.

Lemma safeFilter_idem (stored : list JsVal) :
  safeFilter (safeFilter stored) = safeFilter stored.
Proof. apply filter_filter_same. Qed.

Lemma safeLive_elem_of (live : list LiveTab) (tab : LiveTab) :
  tab ∈ safeLive live ↔ tab ∈ live ∧ ∃ u, tabUrl tab = Some u ∧ safe_url u.
Proof.
  unfold safeLive. rewrite list_elem_of_In, filter_In, <- list_elem_of_In.
  rewrite isSafeUrl_safe_url. split.
  - intros [Hin (u & Hu & Hs)]. split; [exact Hin|]. exists u. split; [|exact Hs].
    destruct (tabUrl tab); [by injection Hu as ->|discriminate Hu].
  - intros [Hin (u & Hu & Hs)]. split; [exact Hin|]. exists u. by rewrite Hu.
Qed.

Lemma captureTabs_urls (live : list LiveTab) :
  url_of <$> captureTabs live = tabUrl <$> safeLive live.
Proof.
  unfold captureTabs, safeLive.
  induction (List.filter _ live) as [|tab r IH]; [reflexivity|].
  cbn [map fmap list_fmap]. f_equal; [|exact IH].
  unfold url_of, tabRecord, get_prop. rewrite lookup_insert_eq.
  by destruct (tabUrl tab).
Qed.

(** C9. [isSafeUrl] accepts exactly the non-empty strings that begin
    with none of the seven internal-scheme prefixes.  Each of the
    program's safe-filters keeps exactly the tabs whose URL is such a
    string, in their order: the one of restore and the one of import on a
    stored list (they throw only on a [null] or [undefined] element), the
    one of save and update on the live tabs.  Each returns its own output
    unchanged when applied to it. *)
Theorem safe_filter_characterised_and_idempotent
    (url : JsVal) (stored : list JsVal) (live : list LiveTab) :
  (isSafeUrl url = true ↔ ∃ u, url = JStr u ∧ safe_url u)
  ∧ (∀ t, t ∈ safeFilter stored
          ↔ t ∈ stored ∧ ∃ u, get_prop t "url" = Ok (JStr u) ∧ safe_url u)
  ∧ match filterR safeTab stored with
    | Ok kept => kept = safeFilter stored ∧ filterR safeTab kept = Ok kept
    | Throw e => e = TypeError ∧ Exists (λ t, t = JUndefined ∨ t = JNull) stored
    end
  ∧ match filterR importableTab stored with
    | Ok kept => kept = safeFilter stored ∧ filterR importableTab kept = Ok kept
    | Throw e => e = TypeError ∧ Exists (λ t, t = JUndefined ∨ t = JNull) stored
    end
  ∧ (∀ tab, tab ∈ safeLive live
            ↔ tab ∈ live ∧ ∃ u, tabUrl tab = Some u ∧ safe_url u)
  ∧ url_of <$> captureTabs live = tabUrl <$> safeLive live
  ∧ captureTabs (safeLive live) = captureTabs live
  ∧ filterR safeTab (captureTabs live) = Ok (captureTabs live).
Proof.
  split; [apply isSafeUrl_safe_url|].
  split; [apply safeFilter_elem_of|].
  split.
  { pose proof (filterR_safe_outcome safeTab stored safeTab_callback) as H.
    pose proof (filterR_idem safeTab stored) as Hidem.
    destruct (filterR safeTab stored) as [kept|e]; [|exact H].
    split; [exact H|exact Hidem]. }
  split.
  { pose proof (filterR_safe_outcome importableTab stored importableTab_callback) as H.
    pose proof (filterR_idem importableTab stored) as Hidem.
    destruct (filterR importableTab stored) as [kept|e]; [|exact H].
    split; [exact H|exact Hidem]. }
  split; [apply safeLive_elem_of|].
  split; [apply captureTabs_urls|].
  split; [unfold captureTabs, safeLive; by rewrite filter_filter_same|].
  apply filterR_captureTabs.
Qed.

End SafeFilter.

(** *** Activity classification *)

Section Classification.

Implicit Types (tabs : list JsVal) (live : gset (option string)).

Lemma is_tab_url (t : JsVal) :
  is_tab t = true → ∃ u, get_prop t "url" = Ok (JStr u) ∧ url_of t = Some u.
Proof.
  destruct t as [| | | | | |o]; try discriminate. cbn [is_tab].
  unfold url_of, get_prop.
  destruct (o !! "url") as [[]|]; try discriminate. intros _. eauto.
Qed.

Lemma isOpen_tab live (t : JsVal) :
  is_tab t = true → isOpen live t = Ok (bool_decide (url_of t ∈ live)).
Proof.
  intros H. destruct (is_tab_url t H) as (u & Hg & Hu).
  unfold isOpen. rewrite Hg, Hu. reflexivity.
Qed.

Lemma everyR_total {A} (p : A → Result bool) (q : A → bool) (l : list A) :
  Forall (λ x, p x = Ok (q x)) l → everyR p l = Ok (forallb q l).
Proof.
  induction 1 as [|x r Hx _ IH]; [reflexivity|].
  cbn [everyR forallb]. rewrite Hx. cbn [rbind].
  destruct (q x); [exact IH|reflexivity].
Qed.

Lemma everyR_tabs live tabs :
  Forall (λ t, is_tab t = true) tabs →
  everyR (isOpen live) tabs = Ok (forallb (λ t, bool_decide (url_of t ∈ live)) tabs).
Proof.
  intros H. apply everyR_total.
  eapply Forall_impl; [exact H|]. intros t Ht. by apply isOpen_tab.
Qed.

Lemma tabsMatch_tabs live tabs :
  Forall (λ t, is_tab t = true) tabs →
  tabsMatch tabs live =
    Ok ((0 <? length tabs)%nat && (length tabs =? size live)%nat
        && forallb (λ t, bool_decide (url_of t ∈ live)) tabs).
Proof.
  intros H. unfold tabsMatch. rewrite (everyR_tabs live tabs H).
  destruct (0 <? length tabs)%nat; [|reflexivity].
  destruct (length tabs =? size live)%nat; reflexivity.
Qed.

Lemma forallb_open_subseteq live tabs :
  forallb (λ t, bool_decide (url_of t ∈ live)) tabs = true ↔ storedUrlSet tabs ⊆ live.
Proof.
  unfold storedUrlSet. rewrite forallb_forall. split.
  - intros H x Hx. apply elem_of_list_to_set, list_elem_of_fmap in Hx as (t & -> & Ht).
    apply list_elem_of_In, H in Ht. by apply bool_decide_eq_true in Ht.
  - intros H t Ht. apply bool_decide_eq_true, H, elem_of_list_to_set.
    apply list_elem_of_fmap. exists t. split; [reflexivity|by apply list_elem_of_In].
Qed.

Lemma size_storedUrlSet tabs :
  NoDup (url_of <$> tabs) → size (storedUrlSet tabs) = length tabs.
Proof.
  intros H. unfold storedUrlSet. rewrite size_list_to_set by exact H.
  apply length_fmap.
Qed.

Lemma tabsMatch_perm live tabs tabs' :
  Forall (λ t, is_tab t = true) tabs → tabs ≡ₚ tabs' →
  tabsMatch tabs' live = tabsMatch tabs live.
Proof.
  intros Hwf Hp.
  assert (Forall (λ t, is_tab t = true) tabs') as Hwf'.
  { by rewrite <- Hp. }
  rewrite !tabsMatch_tabs by assumption.
  rewrite <- (Permutation_length Hp). f_equal. f_equal.
  apply eq_true_iff_eq. rewrite !forallb_open_subseteq.
  unfold storedUrlSet. by rewrite Hp.
Qed.

(** With pairwise distinct stored URLs the test is set equality. *)
Lemma tabsMatch_nodup live tabs :
  Forall (λ t, is_tab t = true) tabs → tabs ≠ [] → NoDup (url_of <$> tabs) →
  tabsMatch tabs live = Ok true ↔ storedUrlSet tabs = live.
Proof.
  intros Hwf Hne Hnd. rewrite tabsMatch_tabs by exact Hwf.
  split.
  - intros H. injection H as H.
    apply andb_true_iff in H as [H Hall]. apply andb_true_iff in H as [_ Hlen].
    apply Nat.eqb_eq in Hlen. apply forallb_open_subseteq in Hall.
    apply set_subseteq_size_eq; [exact Hall|].
    rewrite size_storedUrlSet by exact Hnd. lia.
  - intros <-. f_equal. rewrite size_storedUrlSet by exact Hnd.
    rewrite Nat.eqb_refl.
    assert (forallb (λ t, bool_decide (url_of t ∈ storedUrlSet tabs)) tabs = true) as ->.
    { by apply forallb_open_subseteq. }
    destruct tabs; [done|reflexivity].
Qed.

Lemma tabsMatch_nil live : tabsMatch [] live = Ok false.
Proof. reflexivity. Qed.

(** The banner of [renderSessions] runs the same test, but for the guard
    on an empty stored list. *)
Lemma bannerMatch_nonempty live tabs :
  tabs ≠ [] → bannerMatch tabs live = tabsMatch tabs live.
Proof. intros H. destruct tabs; [done|reflexivity]. Qed.

(** The caller tells the error kinds apart by their messages. *)
Lemma message_inj (e1 e2 : Error) : message e1 = message e2 → e1 = e2.
Proof. destruct e1, e2; cbn; intros H; try reflexivity; discriminate H. Qed.

End Classification.

(** C1 (amended). For a stored tab list that is not empty and whose URLs
    are pairwise distinct, the tabs-match test of the activity
    classification holds exactly when the set of stored URLs equals the set
    of live URLs; reordering the stored list does not change its outcome;
    and an empty stored list never matches. *)
Theorem tabsMatch_set_equality_for_distinct_urls
    (tabs tabs' : list JsVal) (live : gset (option string))
    (Hwf : Forall (λ t, is_tab t = true) tabs)
    (Hne : tabs ≠ [])
    (Hnd : NoDup (url_of <$> tabs))
    (Hperm : tabs ≡ₚ tabs') :
  (tabsMatch tabs live = Ok true ↔ storedUrlSet tabs = live)
  ∧ tabsMatch tabs' live = tabsMatch tabs live
  ∧ tabsMatch [] live = Ok false.
Proof.
  split; [by apply tabsMatch_nodup|].
  split; [by apply tabsMatch_perm|reflexivity].
Qed.

Lemma tabsMatch_set_equality_for_distinct_urls_witness :
  let tabs := [Samples.tabA; Samples.tabB] in
  let tabs' := [Samples.tabB; Samples.tabA] in
  let live : gset (option string) := {[Some Samples.urlA; Some Samples.urlB]} in
  Forall (λ t, is_tab t = true) tabs ∧ tabs ≠ [] ∧ NoDup (url_of <$> tabs)
  ∧ tabs ≡ₚ tabs'
  ∧ (tabsMatch tabs live = Ok true ↔ storedUrlSet tabs = live)
  ∧ tabsMatch tabs' live = tabsMatch tabs live
  ∧ tabsMatch [] live = Ok false.
Proof.
  intros tabs tabs' live.
  assert (Forall (λ t, is_tab t = true) tabs) as Hwf.
  { repeat constructor. }
  assert (tabs ≠ []) as Hne by discriminate.
  assert (NoDup (url_of <$> tabs)) as Hnd.
  { apply (bool_decide_unpack _). vm_compute. exact I. }
  assert (tabs ≡ₚ tabs') as Hperm by apply perm_swap.
  repeat (split; [assumption|]).
  exact (tabsMatch_set_equality_for_distinct_urls tabs tabs' live Hwf Hne Hnd Hperm).
Defined.

(** The test is not set equality in general: a stored list that names one
    URL twice has the URL set of a window showing that URL and fails the
    test against it, and an empty stored list fails against an empty live
    set. *)
Lemma tabsMatch_differs_from_set_equality :
  ¬ (tabsMatch [Samples.tabA; Samples.tabA] {[Some Samples.urlA]} = Ok true
     ↔ storedUrlSet [Samples.tabA; Samples.tabA] = {[Some Samples.urlA]})
  ∧ ¬ (tabsMatch [] ∅ = Ok true ↔ storedUrlSet [] = ∅).
Proof.
  split.
  - intros [_ H].
    assert (storedUrlSet [Samples.tabA; Samples.tabA] = {[Some Samples.urlA]}) as E.
    { unfold storedUrlSet. cbn. set_solver. }
    specialize (H E). vm_compute in H. discriminate H.
  - intros [_ H]. specialize (H eq_refl). discriminate H.
Qed.

(** With pairwise distinct stored URLs the classification is the one the
    four states describe: the tracked session whose URL set is the live one
    is Clean, an untracked one with that URL set is Exact, and a session
    without stored tabs is neither. *)
Lemma tabsOf_session (session : JsVal) :
  is_session session = true →
  tabsOf session = Ok (tabs_of session)
  ∧ Forall (λ t, is_tab t = true) (tabs_of session)
  ∧ ∃ id, get_prop session "id" = Ok (JStr id).
Proof.
  destruct session as [| | | | | |o]; try discriminate.
  unfold is_session, tabsOf, tabs_of, get_prop.
  destruct (o !! "id") as [[]|]; try discriminate.
  destruct (o !! "name") as [[]|]; try discriminate.
  destruct (o !! "createdAt") as [[]|]; try discriminate.
  destruct (o !! "tabs") as [[]|]; try discriminate.
  intros H. cbn. split; [reflexivity|]. split; [|eauto].
  apply Forall_forall. intros t Ht.
  rewrite forallb_forall in H. apply H. by apply list_elem_of_In.
Qed.

Lemma classify_distinct_urls (session : JsVal) (live : gset (option string))
    (active : option string) (id : string) :
  is_session session = true →
  get_prop session "id" = Ok (JStr id) →
  tabs_of session ≠ [] →
  NoDup (url_of <$> tabs_of session) →
  storedUrlSet (tabs_of session) = live →
  classify session live active = Ok (if bool_decide (active = Some id) then Clean else Exact).
Proof.
  intros Hs Hid Hne Hnd Hlive.
  destruct (tabsOf_session session Hs) as (Ht & Hwf & _).
  unfold classify, buildSessionCard. rewrite Hid, Ht. cbn [rbind].
  assert (tabsMatch (tabs_of session) live = Ok true) as ->.
  { by apply tabsMatch_nodup. }
  cbn [rbind]. f_equal. unfold activity. cbn.
  destruct active as [a|]; cbn.
  - destruct (String.eqb_spec id a) as [->|Hne'].
    + rewrite bool_decide_eq_true_2 by reflexivity. reflexivity.
    + rewrite bool_decide_eq_false_2 by congruence. reflexivity.
  - reflexivity.
Qed.

Lemma classify_no_tabs (session : JsVal) (live : gset (option string))
    (active : option string) (a : Activity) :
  is_session session = true → tabs_of session = [] →
  classify session live active = Ok a → a ≠ Clean ∧ a ≠ Exact.
Proof.
  intros Hs He.
  destruct (tabsOf_session session Hs) as (Ht & _ & id & Hid).
  unfold classify, buildSessionCard. rewrite Hid, Ht, He. cbn [rbind].
  generalize (strict_eq (JStr id) (of_active active)). intros b.
  destruct b; cbn; intros H; injection H as <-; split; discriminate.
Qed.

(** C3 (amended). When the pointer is the id of session [S], the stored
    URLs of [S] are pairwise distinct and not empty, and the live URL set
    is the stored URL set of [S], then [S] is Clean, and a session [T]
    with another id, pairwise distinct stored URLs and the same URL set
    is Exact, not Clean.  A session [E] without stored tabs is Modified or
    Inactive, never Clean or Exact, whatever the live set and the
    pointer. *)
Theorem classification_for_distinct_urls
    (S T E : JsVal) (sid tid eid : string)
    (live live' : gset (option string)) (active : option string)
    (HS : is_session S = true) (HSid : get_prop S "id" = Ok (JStr sid))
    (HSne : tabs_of S ≠ []) (HSnd : NoDup (url_of <$> tabs_of S))
    (HSlive : storedUrlSet (tabs_of S) = live)
    (HT : is_session T = true) (HTid : get_prop T "id" = Ok (JStr tid))
    (Hother : tid ≠ sid) (HTnd : NoDup (url_of <$> tabs_of T))
    (HTlive : storedUrlSet (tabs_of T) = live)
    (HE : is_session E = true) (HEid : get_prop E "id" = Ok (JStr eid))
    (HEempty : tabs_of E = []) :
  classify S live (Some sid) = Ok Clean
  ∧ classify T live (Some sid) = Ok Exact
  ∧ classify E live' active
    = Ok (if bool_decide (active = Some eid) then Modified else Inactive).
Proof.
  split; [|split].
  - rewrite (classify_distinct_urls S live (Some sid) sid) by assumption.
    by rewrite bool_decide_eq_true_2.
  - assert (tabs_of T ≠ []) as HTne.
    { intros Hnil. rewrite Hnil in HTlive. subst live.
      destruct (tabs_of S) as [|t r]; [done|].
      assert (url_of t ∈ storedUrlSet (t :: r)) as Hin.
      { unfold storedUrlSet. rewrite fmap_cons. set_solver. }
      rewrite <- HTlive in Hin. unfold storedUrlSet in Hin. cbn in Hin. set_solver. }
    rewrite (classify_distinct_urls T live (Some sid) tid) by assumption.
    rewrite bool_decide_eq_false_2; [reflexivity|congruence].
  - destruct (tabsOf_session E HE) as (Ht & _ & _).
    unfold classify, buildSessionCard. rewrite HEid, Ht, HEempty. cbn [rbind].
    rewrite tabsMatch_nil. cbn [rbind]. f_equal. unfold activity. cbn.
    destruct active as [a|]; cbn.
    + destruct (String.eqb_spec eid a) as [->|Hne'].
      * rewrite bool_decide_eq_true_2 by reflexivity. reflexivity.
      * rewrite bool_decide_eq_false_2 by congruence. reflexivity.
    + reflexivity.
Qed.

Lemma classification_for_distinct_urls_witness :
  let S := Samples.sessionAB in
  let T := Samples.mkSession "s9" "Copy" 9 [Samples.tabB; Samples.tabA] in
  let E := Samples.mkSession "s0" "Empty" 0 [] in
  let live : gset (option string) := {[Some Samples.urlA; Some Samples.urlB]} in
  (is_session S = true ∧ get_prop S "id" = Ok (JStr "s2")
   ∧ tabs_of S ≠ [] ∧ NoDup (url_of <$> tabs_of S)
   ∧ storedUrlSet (tabs_of S) = live)
  ∧ (is_session T = true ∧ get_prop T "id" = Ok (JStr "s9")
     ∧ "s9" ≠ "s2" ∧ NoDup (url_of <$> tabs_of T)
     ∧ storedUrlSet (tabs_of T) = live)
  ∧ (is_session E = true ∧ get_prop E "id" = Ok (JStr "s0") ∧ tabs_of E = [])
  ∧ classify S live (Some "s2") = Ok Clean
  ∧ classify T live (Some "s2") = Ok Exact
  ∧ classify E ∅ (Some "s0") = Ok Modified.
Proof.
  intros S T E live.
  assert (is_session S = true) as HS by (vm_compute; reflexivity).
  assert (get_prop S "id" = Ok (JStr "s2")) as HSid by (vm_compute; reflexivity).
  assert (tabs_of S ≠ []) as HSne by (vm_compute; discriminate).
  assert (NoDup (url_of <$> tabs_of S)) as HSnd.
  { apply (bool_decide_unpack _). vm_compute. exact I. }
  assert (storedUrlSet (tabs_of S) = live) as HSlive.
  { vm_compute. reflexivity. }
  assert (is_session T = true) as HT by (vm_compute; reflexivity).
  assert (get_prop T "id" = Ok (JStr "s9")) as HTid by (vm_compute; reflexivity).
  assert ("s9" ≠ "s2") as Hother by discriminate.
  assert (NoDup (url_of <$> tabs_of T)) as HTnd.
  { apply (bool_decide_unpack _). vm_compute. exact I. }
  assert (storedUrlSet (tabs_of T) = live) as HTlive.
  { vm_compute. reflexivity. }
  assert (is_session E = true) as HE by (vm_compute; reflexivity).
  assert (get_prop E "id" = Ok (JStr "s0")) as HEid by (vm_compute; reflexivity).
  assert (tabs_of E = []) as HEempty by (vm_compute; reflexivity).
  split; [by repeat split|]. split; [by repeat split|]. split; [by repeat split|].
  exact (classification_for_distinct_urls S T E "s2" "s9" "s0" live ∅ (Some "s0")
           HS HSid HSne HSnd HSlive HT HTid Hother HTnd HTlive HE HEid HEempty).
Defined.

(** The tracked session is not always Clean when the live URL set is its
    own.  A session saved with the same page in two tabs is restored into
    a window that then shows exactly its tabs; the pointer is set to it and
    the two URL sets are equal, yet the card comes out Modified.  The same
    session passes the test against a window showing that page and another
    one.  And a tracked session without tabs is not Clean against an empty
    live set. *)
Lemma tracked_session_with_equal_url_set_not_clean :
  let w := Samples.world (Some (<["s1" := Samples.sessionAA]> ∅)) None [Samples.liveX] in
  let w' := world_after (restoreSession "s1" true) w in
  let E := Samples.mkSession "s0" "Empty" 0 [] in
  (result_of (restoreSession "s1" true) w = Ok 0%Z
   ∧ pointer w' = Some "s1"
   ∧ map tabUrl (window w') = [Some Samples.urlA; Some Samples.urlA]
   ∧ urlSet (window w') = storedUrlSet (tabs_of Samples.sessionAA)
   ∧ collection w' !! "s1" = Some Samples.sessionAA
   ∧ classify Samples.sessionAA (urlSet (window w')) (pointer w') = Ok Modified)
  ∧ classify Samples.sessionAA {[Some Samples.urlA; Some Samples.urlB]} (Some "s1")
    = Ok Clean
  ∧ (storedUrlSet (tabs_of E) = ∅ ∧ classify E ∅ (Some "s0") = Ok Modified).
Proof.
  cbv zeta. split; [|split].
  - split; [vm_compute; reflexivity|].
    split; [vm_compute; reflexivity|].
    split; [vm_compute; reflexivity|].
    split; [vm_compute; reflexivity|].
    split; [vm_compute; reflexivity|].
    vm_compute; reflexivity.
  - vm_compute; reflexivity.
  - split; vm_compute; reflexivity.
Qed.

(** *** Restore *)

Section Restore.

Lemma safeTab_tab (t : JsVal) :
  is_tab t = true → safeTab t = Ok (isSafeUrl (of_opt (url_of t))).
Proof.
  intros H. destruct (is_tab_url t H) as (u & Hg & Hu).
  unfold safeTab. rewrite Hg, Hu. reflexivity.
Qed.

Lemma filterR_safeTab (tabs : list JsVal) :
  Forall (λ t, is_tab t = true) tabs → filterR safeTab tabs = Ok (safeFilter tabs).
Proof.
  intros H. apply filterR_total.
  eapply Forall_impl; [exact H|]. intros t Ht. by apply safeTab_tab.
Qed.

Lemma safeFilter_tabs (tabs : list JsVal) :
  Forall (λ t, is_tab t = true) tabs → Forall (λ t, is_tab t = true) (safeFilter tabs).
Proof.
  rewrite !Forall_forall. intros H t Ht. apply H.
  apply list_elem_of_In in Ht. apply filter_In in Ht as [Ht _].
  by apply list_elem_of_In.
Qed.

Lemma session_truthy (v : JsVal) : is_session v = true → truthy v = true.
Proof. destruct v; try discriminate. reflexivity. Qed.

Lemma session_tabs (v : JsVal) :
  is_session v = true →
  get_prop v "tabs" = Ok (JArr (tabs_of v)) ∧ Forall (λ t, is_tab t = true) (tabs_of v).
Proof.
  intros H. destruct (tabsOf_session v H) as (Ht & Hwf & _).
  split; [|exact Hwf].
  unfold tabsOf, tabs_of in *.
  destruct (get_prop v "tabs") as [[]|]; cbn in Ht; try discriminate.
  reflexivity.
Qed.

Lemma read_own (r : Realm) (o : gmap string JsVal) (k : string) (x : JsVal) :
  o !! k = Some x → read r (JObj o) k = Ok x.
Proof. cbn [read]. by intros ->. Qed.

Lemma read_own_get (r : Realm) (v : JsVal) (k : string) (x : JsVal) :
  x ≠ JUndefined → get_prop v k = Ok x → read r v k = Ok x.
Proof.
  intros Hx. destruct v as [| | | | | |o]; cbn; try congruence.
  destruct (o !! k) as [y|]; cbn; congruence.
Qed.

Lemma read_fresh (strict : bool) (v : JsVal) (k : string) :
  read (freshRealm strict) v k = get_prop v k.
Proof.
  assert (inheritedValue (freshRealm strict) k = JUndefined) as H.
  { unfold inheritedValue. cbn. by repeat destruct (String.eqb _ _). }
  destruct v; cbn [read get_prop]; by rewrite ?H.
Qed.

Lemma session_read_tabs (r : Realm) (v : JsVal) :
  is_session v = true → read r v "tabs" = Ok (JArr (tabs_of v)).
Proof.
  intros H. apply read_own_get; [discriminate|].
  destruct (tabsOf_session v H) as (Ht & _ & _).
  unfold tabsOf, tabs_of in *.
  destruct (get_prop v "tabs") as [[]|]; cbn in Ht; try discriminate.
  reflexivity.
Qed.

Lemma index_lookup (sessions : gmap string JsVal) (id : string) (v : JsVal) :
  sessions !! id = Some v → index sessions id = Value v.
Proof. unfold index. intros ->. reflexivity. Qed.

Lemma index_missing (sessions : gmap string JsVal) (id : string) :
  sessions !! id = None → inherited id = None → index sessions id = Value JUndefined.
Proof. unfold index. intros -> ->. reflexivity. Qed.

Lemma index_inherited (sessions : gmap string JsVal) (id : string) (b : Builtin) :
  sessions !! id = None → inherited id = Some b → index sessions id = Member b.
Proof. unfold index. intros -> ->. reflexivity. Qed.

Lemma present_lookup (sessions : gmap string JsVal) (id : string) :
  present (index sessions id) = true →
  (∃ v, sessions !! id = Some v ∧ truthy v = true)
  ∨ (sessions !! id = None ∧ ∃ b, inherited id = Some b).
Proof.
  unfold index. destruct (sessions !! id) as [v|]; cbn [present]; [eauto|].
  destruct (inherited id) as [b|]; cbn [present truthy]; [eauto|discriminate].
Qed.

Lemma openInBackground_tab (t : JsVal) (w : World) :
  is_tab t = true → openInBackground t w = (afterOpen w t, Ok (openedTab w t)).
Proof.
  intros H. destruct (is_tab_url t H) as (u & Hg & Hu).
  unfold openInBackground, bind, lift, afterOpen, openedTab.
  rewrite Hg, Hu. reflexivity.
Qed.

Lemma promise_all_open (tabs : list JsVal) (w : World) :
  Forall (λ t, is_tab t = true) tabs →
  ∃ opened, promise_all (map openInBackground tabs) w = (afterBatch tabs w, Ok opened).
Proof.
  intros H. revert w. induction H as [|t r Ht _ IH]; intros w.
  - exists []. reflexivity.
  - cbn [map promise_all]. rewrite (openInBackground_tab t w Ht).
    destruct (IH (afterOpen w t)) as [l ->]. eexists. reflexivity.
Qed.

Lemma afterBatch_storage (tabs : list JsVal) (w : World) :
  storage (afterBatch tabs w) = storage w.
Proof.
  revert w. induction tabs as [|t r IH]; intros w; [reflexivity|].
  cbn. unfold afterBatch in IH. rewrite IH. reflexivity.
Qed.

Lemma afterBatch_history (tabs : list JsVal) (w : World) :
  history (afterBatch tabs w) = history w ++ fillTrace tabs (window w) (nextTabId w).
Proof.
  revert w. induction tabs as [|t r IH]; intros w.
  - cbn. by rewrite app_nil_r.
  - cbn. unfold afterBatch in IH. rewrite IH. cbn. rewrite <- app_assoc. reflexivity.
Qed.

Lemma afterBatch_window (tabs : list JsVal) (w : World) :
  map tabUrl (window (afterBatch tabs w)) = map tabUrl (window w) ++ map url_of tabs.
Proof.
  revert w. induction tabs as [|t r IH]; intros w.
  - cbn. by rewrite app_nil_r.
  - cbn. unfold afterBatch in IH. rewrite IH. cbn.
    rewrite map_app, <- app_assoc. reflexivity.
Qed.

Lemma fillTrace_nonempty (rest : list JsVal) (win : list LiveTab) (next : nat) :
  Forall (λ step, snd step ≠ []) (fillTrace rest win next).
Proof.
  revert win next. induction rest as [|t r IH]; intros win next; cbn.
  - constructor.
  - constructor; [|apply IH]. cbn. by destruct win.
Qed.

Lemma fillTrace_calls (rest : list JsVal) (win : list LiveTab) (next : nat) :
  map fst (fillTrace rest win next) = map (λ t, Create (of_opt (url_of t)) false) rest.
Proof.
  revert win next. induction rest as [|t r IH]; intros win next; cbn; [reflexivity|].
  by rewrite IH.
Qed.

Lemma remove_listed (ids : list nat) (tabs : list LiveTab) :
  Forall (λ t, tabId t ∈ ids) tabs →
  List.filter (λ t, negb (bool_decide (tabId t ∈ ids))) tabs = [].
Proof.
  induction 1 as [|t r Ht _ IH]; [reflexivity|].
  cbn. rewrite bool_decide_eq_true_2 by exact Ht. exact IH.
Qed.

(** Removing the tabs that were there leaves the anchor alone. *)
Lemma remove_old_tabs (before : list LiveTab) (anchor : LiveTab) :
  Forall (λ t, tabId t < tabId anchor) before →
  List.filter (λ t, negb (bool_decide (tabId t ∈ map tabId before))) (before ++ [anchor])
  = [anchor].
Proof.
  intros H. rewrite List.filter_app. cbn [List.filter].
  rewrite bool_decide_eq_false_2; cycle 1.
  { intros Hin. apply list_elem_of_fmap in Hin as (t & Heq & Ht).
    rewrite Forall_forall in H. specialize (H t Ht). lia. }
  rewrite remove_listed; [reflexivity|].
  apply Forall_forall. intros t Ht. by apply list_elem_of_fmap_2.
Qed.

Ltac run_restore w :=
  unfold restoreSession, readSessions, bind, storage_get_sessions, get_realm, ret, throw,
    lift;
  cbn beta iota;
  change (default ∅ (sessionsKey (storage w))) with (collection w).

Lemma restore_missing (w : World) (id : string) (close : bool) :
  collection w !! id = None → inherited id = None →
  restoreSession id close w = (w, Throw NotFoundError).
Proof.
  intros H Hplain. run_restore w. rewrite (index_missing _ _ H Hplain). reflexivity.
Qed.

Lemma safe_url_tab (t : JsVal) :
  isSafeUrl (of_opt (url_of t)) = true → is_tab t = true.
Proof.
  intros H. destruct (isSafeUrl_inv _ H) as [u Hu]. unfold url_of, get_prop in Hu.
  destruct t as [| | | | | |o]; try discriminate Hu. cbn [is_tab].
  destruct (o !! "url") as [[]|]; try discriminate Hu. reflexivity.
Qed.

Lemma kept_tabs (l kept : list JsVal) :
  filterR safeTab l = Ok kept → Forall (λ t, is_tab t = true) kept.
Proof.
  intros Hf. apply Forall_forall. intros t Ht.
  apply (filterR_elem_of safeTab l kept t Hf) in Ht as [_ Ht].
  pose proof (safeTab_callback t) as Hc.
  destruct (get_prop t "url"); rewrite Hc in Ht; [|discriminate Ht].
  apply safe_url_tab. by injection Ht.
Qed.



Lemma restore_none_when (w : World) (id : string) (close : bool) (l : list JsVal) :
  present (index (collection w) id) = true →
  readTabs (realm w) (index (collection w) id) = Ok (JArr l) →
  filterR safeTab l = Ok [] →
  restoreSession id close w = (w, Throw NoRestorableTabsError).
Proof.
  intros Hp Hr Hf. run_restore w. cbv zeta. rewrite Hp. cbn [negb].
  rewrite Hr. cbn [js_filter]. rewrite Hf. reflexivity.
Qed.

Lemma restore_close_when (w : World) (id : string) (l : list JsVal) (first : JsVal)
    (rest : list JsVal) :
  present (index (collection w) id) = true →
  readTabs (realm w) (index (collection w) id) = Ok (JArr l) →
  filterR safeTab l = Ok (first :: rest) →
  restoreSession id true w =
    (with_storage (closedWorld w first rest)
       (mkStorage (sessionsKey (storage w)) (Some id)),
     Ok (Z.of_nat (length l) - Z.of_nat (length (first :: rest)))%Z).
Proof.
  intros Hp Hr Hf. run_restore w. cbv zeta. rewrite Hp. cbn [negb].
  rewrite Hr. cbn [js_filter]. rewrite Hf.
  pose proof (kept_tabs l _ Hf) as Hsafe.
  apply Forall_cons in Hsafe as [Hfirst Hrest].
  destruct (is_tab_url first Hfirst) as (u & Hg & Hu).
  cbn [length Nat.eqb nth]. rewrite Hg.
  unfold tabs_query, tabs_create, tabs_remove, storage_set_active. cbn beta iota zeta.
  cbn [window nextTabId after_call storage].
  unfold closedWorld, anchorTab. rewrite Hu. cbn [of_opt items_of].
  set (w3 := after_call _ (Remove _) _ _).
  destruct (promise_all_open rest w3 Hrest) as [opened Hopen].
  destruct rest as [|second rest'].
  - cbn. reflexivity.
  - cbn [length Nat.ltb Nat.leb drop]. rewrite Hopen.
    rewrite afterBatch_storage. reflexivity.
Qed.

Lemma restore_keep_when (w : World) (id : string) (l : list JsVal) (first : JsVal)
    (rest : list JsVal) :
  present (index (collection w) id) = true →
  readTabs (realm w) (index (collection w) id) = Ok (JArr l) →
  filterR safeTab l = Ok (first :: rest) →
  restoreSession id false w =
    (with_storage (afterBatch (first :: rest) w)
       (mkStorage (sessionsKey (storage w)) (Some id)),
     Ok (Z.of_nat (length l) - Z.of_nat (length (first :: rest)))%Z).
Proof.
  intros Hp Hr Hf. run_restore w. cbv zeta. rewrite Hp. cbn [negb].
  rewrite Hr. cbn [js_filter]. rewrite Hf.
  pose proof (kept_tabs l _ Hf) as Hsafe.
  cbn [length Nat.eqb].
  destruct (promise_all_open (first :: rest) w Hsafe) as [opened Hopen].
  rewrite Hopen. unfold storage_set_active. cbn beta iota zeta.
  rewrite afterBatch_storage. reflexivity.
Qed.

Lemma restore_none_of (w : World) (id : string) (close : bool) (l : list JsVal) :
  present (index (collection w) id) = true →
  readTabs (realm w) (index (collection w) id) = Ok (JArr l) →
  Forall (λ t, is_tab t = true) l → safeFilter l = [] →
  restoreSession id close w = (w, Throw NoRestorableTabsError).
Proof.
  intros Hp Hr Hwf He. apply (restore_none_when w id close l Hp Hr).
  by rewrite (filterR_safeTab _ Hwf), He.
Qed.

Lemma restore_close_of (w : World) (id : string) (l : list JsVal) (first : JsVal)
    (rest : list JsVal) :
  present (index (collection w) id) = true →
  readTabs (realm w) (index (collection w) id) = Ok (JArr l) →
  Forall (λ t, is_tab t = true) l → safeFilter l = first :: rest →
  restoreSession id true w =
    (with_storage (closedWorld w first rest)
       (mkStorage (sessionsKey (storage w)) (Some id)),
     Ok (Z.of_nat (length l) - Z.of_nat (length (first :: rest)))%Z).
Proof.
  intros Hp Hr Hwf He. apply (restore_close_when w id l first rest Hp Hr).
  by rewrite (filterR_safeTab _ Hwf), He.
Qed.

Lemma restore_keep_of (w : World) (id : string) (l : list JsVal) (first : JsVal)
    (rest : list JsVal) :
  present (index (collection w) id) = true →
  readTabs (realm w) (index (collection w) id) = Ok (JArr l) →
  Forall (λ t, is_tab t = true) l → safeFilter l = first :: rest →
  restoreSession id false w =
    (with_storage (afterBatch (first :: rest) w)
       (mkStorage (sessionsKey (storage w)) (Some id)),
     Ok (Z.of_nat (length l) - Z.of_nat (length (first :: rest)))%Z).
Proof.
  intros Hp Hr Hwf He. apply (restore_keep_when w id l first rest Hp Hr).
  by rewrite (filterR_safeTab _ Hwf), He.
Qed.


Lemma stored_session_read (w : World) (id : string) (s : JsVal) :
  collection w !! id = Some s → is_session s = true →
  present (index (collection w) id) = true
  ∧ readTabs (realm w) (index (collection w) id) = Ok (JArr (tabs_of s))
  ∧ Forall (λ t, is_tab t = true) (tabs_of s).
Proof.
  intros H Hs. rewrite (index_lookup _ _ _ H). cbn [present readTabs].
  split; [by apply session_truthy|]. split; [by apply session_read_tabs|].
  by destruct (session_tabs s Hs).
Qed.

Lemma restore_nothing_safe (w : World) (id : string) (close : bool) (s : JsVal) :
  collection w !! id = Some s → is_session s = true → safeFilter (tabs_of s) = [] →
  restoreSession id close w = (w, Throw NoRestorableTabsError).
Proof.
  intros H Hs He. destruct (stored_session_read w id s H Hs) as (Hp & Hr & Hwf).
  by apply (restore_none_of w id close (tabs_of s)).
Qed.

Lemma restore_close_run (w : World) (id : string) (s first : JsVal) (rest : list JsVal) :
  collection w !! id = Some s → is_session s = true →
  safeFilter (tabs_of s) = first :: rest →
  restoreSession id true w =
    (with_storage (closedWorld w first rest)
       (mkStorage (sessionsKey (storage w)) (Some id)),
     Ok (Z.of_nat (length (tabs_of s)) - Z.of_nat (length (first :: rest)))%Z).
Proof.
  intros H Hs He. destruct (stored_session_read w id s H Hs) as (Hp & Hr & Hwf).
  by apply restore_close_of.
Qed.

Lemma closedWorld_history (w : World) (first : JsVal) (rest : list JsVal) :
  fresh_ids w →
  history (closedWorld w first rest)
  = history w ++ (Query, window w) :: closeTrace (window w) (nextTabId w) first rest.
Proof.
  intros Hfresh. unfold closedWorld. rewrite afterBatch_history.
  cbn [after_call history window nextTabId].
  rewrite (remove_old_tabs (window w) (anchorTab (nextTabId w) first)) by exact Hfresh.
  unfold closeTrace. rewrite <- !app_assoc. reflexivity.
Qed.

Lemma closedWorld_window (w : World) (first : JsVal) (rest : list JsVal) :
  fresh_ids w →
  map tabUrl (window (closedWorld w first rest)) = map url_of (first :: rest).
Proof.
  intros Hfresh. unfold closedWorld. rewrite afterBatch_window.
  cbn [after_call window].
  rewrite (remove_old_tabs (window w) (anchorTab (nextTabId w) first)) by exact Hfresh.
  reflexivity.
Qed.

Lemma closeTrace_nonempty (before : list LiveTab) (next : nat) (first : JsVal)
    (rest : list JsVal) :
  Forall (λ step, snd step ≠ []) (closeTrace before next first rest).
Proof.
  unfold closeTrace. constructor; [cbn; by destruct before|].
  constructor; [cbn; discriminate|]. apply fillTrace_nonempty.
Qed.

Lemma valid_lookup (sessions : gmap string JsVal) (id : string) (s : JsVal) :
  valid_collection sessions → sessions !! id = Some s → is_session s = true.
Proof. intros Hv H. exact (Hv id s H). Qed.

Lemma restore_keep_run (w : World) (id : string) (s first : JsVal) (rest : list JsVal) :
  collection w !! id = Some s → is_session s = true →
  safeFilter (tabs_of s) = first :: rest →
  restoreSession id false w =
    (with_storage (afterBatch (first :: rest) w)
       (mkStorage (sessionsKey (storage w)) (Some id)),
     Ok (Z.of_nat (length (tabs_of s)) - Z.of_nat (length (first :: rest)))%Z).
Proof.
  intros H Hs He. destruct (stored_session_read w id s H Hs) as (Hp & Hr & Hwf).
  by apply restore_keep_of.
Qed.


Lemma restore_inherited_fresh (w : World) (id : string) (close : bool) :
  collection w !! id = None → is_Some (inherited id) → pristine (realm w) →
  restoreSession id close w = (w, Throw TypeError).
Proof.
  intros H [b Hb] [Htabs _]. run_restore w.
  rewrite (index_inherited _ _ b H Hb). cbn [present negb readTabs].
  unfold inheritedValue. rewrite !Htabs. reflexivity.
Qed.

End Restore.

(** C2. A restore that closes the current tabs, on a stored session with
    at least one safe tab, makes its tab calls in three phases: after
    reading the window it creates the first safe tab in the foreground,
    then removes every tab the window had before, then creates the
    remaining safe tabs in order and in the background.  Every window
    left by these calls holds at least one tab, whether the session has
    one safe tab or several, and the final window shows exactly the safe
    tabs. *)
Theorem restore_with_close_three_phases
    (w : World) (id : string) (s first : JsVal) (rest : list JsVal)
    (Hfresh : fresh_ids w)
    (Hid : collection w !! id = Some s)
    (Hs : is_session s = true)
    (Hsafe : safeFilter (tabs_of s) = first :: rest) :
  let w' := world_after (restoreSession id true) w in
  let trace := closeTrace (window w) (nextTabId w) first rest in
  history w' = history w ++ (Query, window w) :: trace
  ∧ map fst trace =
      Create (of_opt (url_of first)) true
      :: Remove (map tabId (window w))
      :: map (λ t, Create (of_opt (url_of t)) false) rest
  ∧ Forall (λ step, snd step ≠ []) trace
  ∧ map tabUrl (window w') = map url_of (first :: rest).
Proof.
  intros w' trace. subst w' trace. unfold world_after.
  rewrite (restore_close_run w id s first rest Hid Hs Hsafe). cbn [fst].
  split; [by apply closedWorld_history|].
  split; [unfold closeTrace; cbn [map fst]; by rewrite fillTrace_calls|].
  split; [apply closeTrace_nonempty|].
  by apply closedWorld_window.
Qed.

Lemma restore_with_close_three_phases_witness :
  let w := Samples.world (Some (<["s3" := Samples.sessionMixed]> ∅)) None
             [Samples.liveX; Samples.liveY] in
  let w' := world_after (restoreSession "s3" true) w in
  let trace := closeTrace (window w) (nextTabId w) Samples.tabA [Samples.tabB] in
  fresh_ids w
  ∧ collection w !! "s3" = Some Samples.sessionMixed
  ∧ is_session Samples.sessionMixed = true
  ∧ safeFilter (tabs_of Samples.sessionMixed) = [Samples.tabA; Samples.tabB]
  ∧ history w' = history w ++ (Query, window w) :: trace
  ∧ map fst trace =
      [Create (JStr Samples.urlA) true; Remove [1; 2]; Create (JStr Samples.urlB) false]
  ∧ Forall (λ step, snd step ≠ []) trace
  ∧ map tabUrl (window w') = [Some Samples.urlA; Some Samples.urlB].
Proof.
  intros w w' trace.
  assert (fresh_ids w) as Hfresh.
  { unfold fresh_ids. cbn. repeat constructor. }
  assert (collection w !! "s3" = Some Samples.sessionMixed) as Hid.
  { vm_compute. reflexivity. }
  assert (is_session Samples.sessionMixed = true) as Hs.
  { vm_compute. reflexivity. }
  assert (safeFilter (tabs_of Samples.sessionMixed) = [Samples.tabA; Samples.tabB]) as Hsafe.
  { vm_compute. reflexivity. }
  repeat (split; [assumption|]).
  exact (restore_with_close_three_phases w "s3" Samples.sessionMixed
           Samples.tabA [Samples.tabB] Hfresh Hid Hs Hsafe).
Defined.

(** C4. [restoreSession] does not answer "Session not found." for every
    id that is not in the collection: an id that names a member of
    [Object.prototype] reads a built-in object, which passes the test
    [!session].  In a worker that has assigned nothing on that object the
    call then throws the runtime's [TypeError], with either choice for the
    current tabs.  Once an update of that id has put the live tabs on the
    built-in object, the restore succeeds: it opens those tabs and sets
    the pointer to an id under which no session is stored. *)
Theorem restore_of_inherited_name_is_not_missing :
  let w := Samples.world None None [Samples.liveX] in
  let w1 := world_after (updateSession "constructor") w in
  let w2 := world_after (restoreSession "constructor" false) w1 in
  (collection w !! "constructor" = None
   ∧ restoreOutcome (collection w) "constructor" = Throw NotFoundError
   ∧ result_of (restoreSession "constructor" false) w = Throw TypeError
   ∧ result_of (restoreSession "constructor" true) w = Throw TypeError)
  ∧ (collection w1 !! "constructor" = None
     ∧ result_of (restoreSession "constructor" false) w1 = Ok 0%Z
     ∧ map tabUrl (window w2) = [Some "https://x.com"; Some "https://x.com"]
     ∧ pointer w2 = Some "constructor"
     ∧ collection w2 !! "constructor" = None)
  ∧ ∀ (w : World) (id : string) (close : bool),
      collection w !! id = None → is_Some (inherited id) → pristine (realm w) →
      result_of (restoreSession id close) w = Throw TypeError
      ∧ restoreOutcome (collection w) id = Throw NotFoundError.
Proof.
  cbv zeta. split; [|split].
  - repeat split; vm_compute; reflexivity.
  - repeat split; vm_compute; reflexivity.
  - intros w id close H Hb Hp. unfold result_of, restoreOutcome.
    rewrite (restore_inherited_fresh w id close H Hb Hp), H. split; reflexivity.
Qed.



(** *** Update, rename, delete, save *)

Section Handlers.

Ltac run_handler w :=
  unfold readSessions, writeSessions, bind, storage_get_sessions,
    storage_set_sessions, storage_get_active, storage_set_active,
    storage_remove_active, tabs_query, randomUUID, dateNow, get_realm, ret, throw, lift;
  cbn beta iota zeta;
  cbn [storage window nextTabId clock uuids drawn history realm after_call with_storage
       sessionsKey activeSessionIdKey];
  try change (default ∅ (sessionsKey (storage w))) with (collection w).

Lemma length_eqb_0 {A} (l : list A) : (length l =? 0)%nat = match l with [] => true | _ => false end.
Proof. destruct l; reflexivity. Qed.

Lemma update_missing (w : World) (id : string) :
  collection w !! id = None → inherited id = None →
  updateSession id w = (w, Throw NotFoundError).
Proof.
  intros H Hplain. unfold updateSession. run_handler w.
  rewrite (index_missing _ _ H Hplain). reflexivity.
Qed.

Lemma update_nothing_saveable (w : World) (id : string) :
  present (index (collection w) id) = true → captureTabs (window w) = [] →
  updateSession id w = (after_call w Query (window w) (nextTabId w), Throw NoSaveableTabsError).
Proof.
  intros Ht He. unfold updateSession. run_handler w.
  rewrite Ht. cbn [negb]. rewrite He. reflexivity.
Qed.

Lemma present_stored (sessions : gmap string JsVal) (id : string) (s : JsVal) :
  sessions !! id = Some s → truthy s = true → present (index sessions id) = true.
Proof. intros H Ht. by rewrite (index_lookup _ _ _ H). Qed.

Lemma present_inherited (sessions : gmap string JsVal) (id : string) :
  sessions !! id = None → is_Some (inherited id) → present (index sessions id) = true.
Proof. intros H [b Hb]. by rewrite (index_inherited _ _ b H Hb). Qed.

Lemma update_run (w : World) (id : string) (o : gmap string JsVal) :
  collection w !! id = Some (JObj o) → captureTabs (window w) ≠ [] →
  updateSession id w =
    (with_storage (after_call w Query (window w) (nextTabId w))
       (mkStorage
          (Some (<[id := set_prop (JObj o) "tabs" (JArr (captureTabs (window w)))]>
                   (collection w)))
          (activeSessionIdKey (storage w))),
     Ok (set_prop (JObj o) "tabs" (JArr (captureTabs (window w))))).
Proof.
  intros H Hne. unfold updateSession. run_handler w.
  rewrite (index_lookup _ _ _ H). cbn [present truthy negb]. rewrite length_eqb_0.
  destruct (captureTabs (window w)) as [|c r] eqn:E; [done|].
  unfold assignTabs. rewrite (index_lookup _ _ _ H). run_handler w.
  rewrite (index_lookup _ _ (set_prop (JObj o) "tabs" (JArr (c :: r))))
    by apply lookup_insert_eq.
  reflexivity.
Qed.

(** An update under a key that names a built-in object: the tabs land on
    that object, the collection is written back as it was, and the reply
    carries what the serialisation leaves of the object. *)
Lemma update_inherited (w : World) (id : string) (b : Builtin) :
  collection w !! id = None → inherited id = Some b → captureTabs (window w) ≠ [] →
  let r' := setTabsOn (realm w) b (captureTabs (window w)) in
  updateSession id w =
    (with_storage
       (with_realm (after_call w Query (window w) (nextTabId w)) r')
       (mkStorage (Some (collection w)) (activeSessionIdKey (storage w))),
     Ok (sent r' (Member b))).
Proof.
  intros H Hb Hne r'. unfold updateSession. run_handler w.
  rewrite (index_inherited _ _ b H Hb). cbn [present negb]. rewrite length_eqb_0.
  destruct (captureTabs (window w)) as [|c r] eqn:E; [done|].
  unfold assignTabs. rewrite (index_inherited _ _ b H Hb). run_handler w.
  rewrite (index_inherited _ _ b H Hb). reflexivity.
Qed.

Lemma rename_invalid (w : World) (id newName : string) :
  trim newName = "" → renameSession id newName w = (w, Throw ValidationError).
Proof.
  intros H. unfold renameSession. rewrite H. cbn [truthy String.eqb negb].
  rewrite orb_true_r. reflexivity.
Qed.

Lemma trim_nonempty (name : string) : trim name ≠ "" → name ≠ "".
Proof. intros H ->. apply H. reflexivity. Qed.

Lemma name_check (name : string) :
  negb (truthy (JStr name)) || negb (truthy (JStr (trim name)))
  = bool_decide (trim name = "").
Proof.
  cbn [truthy]. rewrite !negb_involutive.
  destruct (String.eqb_spec (trim name) "") as [E|E].
  - rewrite orb_true_r. by rewrite bool_decide_eq_true_2.
  - rewrite bool_decide_eq_false_2 by exact E.
    destruct (String.eqb_spec name "") as [->|_]; [|reflexivity].
    exfalso. apply E. reflexivity.
Qed.

Lemma rename_missing (w : World) (id newName : string) :
  trim newName ≠ "" → collection w !! id = None → inherited id = None →
  renameSession id newName w = (w, Throw NotFoundError).
Proof.
  intros Hn H Hplain. unfold renameSession. rewrite name_check.
  rewrite bool_decide_eq_false_2 by exact Hn. run_handler w.
  rewrite (index_missing _ _ H Hplain). reflexivity.
Qed.

Lemma rename_run (w : World) (id newName : string) (o : gmap string JsVal) :
  trim newName ≠ "" → collection w !! id = Some (JObj o) →
  renameSession id newName w =
    (with_storage w
       (mkStorage
          (Some (<[id := set_prop (JObj o) "name" (JStr (trim newName))]> (collection w)))
          (activeSessionIdKey (storage w))),
     Ok tt).
Proof.
  intros Hn H. unfold renameSession. rewrite name_check.
  rewrite bool_decide_eq_false_2 by exact Hn. run_handler w.
  rewrite (index_lookup _ _ _ H). cbn [present truthy negb].
  unfold assignName. rewrite (index_lookup _ _ _ H). reflexivity.
Qed.


Lemma delete_missing (w : World) (id : string) :
  collection w !! id = None → inherited id = None →
  deleteSession id w = (w, Throw NotFoundError).
Proof.
  intros H Hplain. unfold deleteSession. run_handler w.
  rewrite (index_missing _ _ H Hplain). reflexivity.
Qed.

Lemma pointer_test (p : option string) (id : string) :
  strict_eq (of_opt p) (JStr id) = bool_decide (p = Some id).
Proof.
  destruct p as [q|]; cbn.
  - destruct (String.eqb_spec q id) as [->|E].
    + by rewrite bool_decide_eq_true_2.
    + rewrite bool_decide_eq_false_2; [reflexivity|congruence].
  - by rewrite bool_decide_eq_false_2.
Qed.

Lemma delete_present (w : World) (id : string) :
  present (index (collection w) id) = true →
  deleteSession id w =
    (with_storage w
       (mkStorage (Some (delete id (collection w)))
          (if bool_decide (pointer w = Some id) then None else pointer w)),
     Ok tt).
Proof.
  intros Ht. unfold deleteSession. run_handler w.
  rewrite Ht. cbn [negb].
  rewrite pointer_test. unfold pointer.
  destruct (bool_decide (activeSessionIdKey (storage w) = Some id)); reflexivity.
Qed.

Lemma delete_run (w : World) (id : string) (s : JsVal) :
  collection w !! id = Some s → truthy s = true →
  deleteSession id w =
    (with_storage w
       (mkStorage (Some (delete id (collection w)))
          (if bool_decide (pointer w = Some id) then None else pointer w)),
     Ok tt).
Proof. intros H Ht. apply delete_present. by apply (present_stored _ _ s). Qed.

Lemma save_invalid (w : World) (name : string) :
  trim name = "" → saveSession name w = (w, Throw ValidationError).
Proof.
  intros H. unfold saveSession. rewrite name_check.
  rewrite bool_decide_eq_true_2 by exact H. reflexivity.
Qed.

Lemma save_nothing_saveable (w : World) (name : string) :
  trim name ≠ "" → captureTabs (window w) = [] →
  saveSession name w = (after_call w Query (window w) (nextTabId w), Throw NoSaveableTabsError).
Proof.
  intros Hn He. unfold saveSession. rewrite name_check.
  rewrite bool_decide_eq_false_2 by exact Hn. run_handler w.
  rewrite He. reflexivity.
Qed.

(** The session [saveSession] builds. *)
Lemma save_run (w : World) (name : string) :
  trim name ≠ "" → captureTabs (window w) ≠ [] →
  let id := uuids w (drawn w) in
  let session :=
    JObj (<["id" := JStr id]> (<["name" := JStr (trim name)]>
         (<["createdAt" := JNum (clock w)]>
         (<["tabs" := JArr (captureTabs (window w))]> ∅)))) in
  saveSession name w =
    (mkWorld (mkStorage (Some (<[id := session]> (collection w)))
                (activeSessionIdKey (storage w)))
       (window w) (nextTabId w) (clock w) (uuids w) (S (drawn w))
       (history w ++ [(Query, window w)]) (realm w),
     Ok session).
Proof.
  intros Hn Hne id session. unfold saveSession. rewrite name_check.
  rewrite bool_decide_eq_false_2 by exact Hn. run_handler w.
  rewrite length_eqb_0.
  destruct (captureTabs (window w)) as [|c r] eqn:E; [done|].
  unfold index. rewrite lookup_insert_eq. reflexivity.
Qed.

End Handlers.

(** *** Update *)

Lemma session_object (s : JsVal) :
  is_session s = true → ∃ o, s = JObj o.
Proof. destruct s; try discriminate. eauto. Qed.

Lemma set_prop_other (s : JsVal) (k k' : string) (x : JsVal) :
  k ≠ k' → get_prop (set_prop s k x) k' = get_prop s k'.
Proof.
  intros H. destruct s; try reflexivity.
  cbn. by rewrite lookup_insert_ne.
Qed.

Lemma set_prop_same (o : gmap string JsVal) (k : string) (x : JsVal) :
  get_prop (set_prop (JObj o) k x) k = Ok x.
Proof. cbn. by rewrite lookup_insert_eq. Qed.

Lemma collection_with_storage (w : World) (m : gmap string JsVal) (p : option string) :
  collection (with_storage w (mkStorage (Some m) p)) = m.
Proof. reflexivity. Qed.

Lemma captureTabs_captures (live : list LiveTab) :
  Forall2 captures (safeLive live) (captureTabs live).
Proof.
  unfold captureTabs. fold (safeLive live).
  assert (Forall (λ tab, isSafeUrl (of_opt (tabUrl tab)) = true) (safeLive live)) as H.
  { apply Forall_forall. intros tab Hin.
    apply list_elem_of_In in Hin. unfold safeLive in Hin. by apply filter_In in Hin as [_ ?]. }
  induction H as [|tab r Htab _ IH]; [constructor|].
  cbn [map]. constructor; [|exact IH].
  destruct (isSafeUrl_inv _ Htab) as [u Hu].
  destruct (tabUrl tab) as [u'|] eqn:Hurl; [|discriminate Hu].
  injection Hu as ->. exists u. split; [exact Hurl|].
  unfold tabRecord. rewrite Hurl. cbn [of_opt]. do 3 f_equal.
  destruct (tabTitle tab) as [t|]; [|reflexivity].
  unfold js_or. cbn [of_opt truthy]. by destruct (String.eqb t "").
Qed.


(** C7. [updateSession] does not answer "Session not found." for every
    unknown id: an id that names a member of [Object.prototype] reads a
    built-in object, which passes the test [!sessions[sessionId]].  With a
    safe tab in the window the call then succeeds: it assigns the captured
    tabs on the built-in object, writes the collection back as it was and
    answers with what the serialisation leaves of that object. *)
Theorem update_of_inherited_name_is_not_missing :
  let w := Samples.world None None [Samples.liveX] in
  let w' := world_after (updateSession "__proto__") w in
  (collection w !! "__proto__" = None
   ∧ result_of (updateSession "__proto__") w
     = Ok (JObj (<["tabs" := JArr [tabRecord Samples.liveX]]> ∅))
   ∧ collection w' !! "__proto__" = None
   ∧ tabsOn (realm w') ObjectPrototype = Some [tabRecord Samples.liveX])
  ∧ ∀ (w : World) (id : string) (b : Builtin),
      collection w !! id = None → inherited id = Some b →
      captureTabs (window w) ≠ [] →
      (∃ reply, result_of (updateSession id) w = Ok reply)
      ∧ collection (world_after (updateSession id) w) = collection w
      ∧ tabsOn (realm (world_after (updateSession id) w)) b
        = Some (captureTabs (window w)).
Proof.
  cbv zeta. split.
  - repeat split; vm_compute; reflexivity.
  - intros w id b H Hb Hne. unfold result_of, world_after.
    rewrite (update_inherited w id b H Hb Hne). cbn [fst snd].
    split; [eauto|]. split; [reflexivity|].
    cbn. by rewrite bool_decide_eq_true_2.
Qed.



(** *** Failures leave the storage alone *)

Section Atomicity.

Lemma quiet_ret {A} (a : A) : quiet (ret a).
Proof. intros w. reflexivity. Qed.

Lemma quiet_throw {A} (e : Error) : quiet (@throw A e).
Proof. intros w. reflexivity. Qed.

Lemma quiet_lift {A} (r : Result A) : quiet (lift r).
Proof. intros w. reflexivity. Qed.

Lemma quiet_bind {A B} (c : M A) (k : A → M B) :
  quiet c → (∀ a, quiet (k a)) → quiet (bind c k).
Proof.
  intros Hc Hk w. unfold bind. specialize (Hc w).
  destruct (c w) as [w1 [a|e]]; cbn in *; [|exact Hc].
  rewrite (Hk a w1). exact Hc.
Qed.

Lemma quiet_promise_all {A} (ps : list (M A)) :
  Forall quiet ps → quiet (promise_all ps).
Proof.
  induction 1 as [|p r Hp _ IH]; intros w; [reflexivity|].
  cbn [promise_all]. specialize (Hp w).
  destruct (p w) as [w1 r1]. specialize (IH w1).
  destruct (promise_all r w1) as [w2 r2]. cbn in *. congruence.
Qed.

Lemma quiet_readSessions : quiet readSessions.
Proof. intros w. reflexivity. Qed.

Lemma quiet_storage_get_active : quiet storage_get_active.
Proof. intros w. reflexivity. Qed.

Lemma quiet_tabs_query : quiet tabs_query.
Proof. intros w. reflexivity. Qed.

Lemma quiet_tabs_create (url : JsVal) (active : bool) : quiet (tabs_create url active).
Proof. intros w. unfold tabs_create. destruct url; reflexivity. Qed.

Lemma quiet_tabs_remove (ids : list nat) : quiet (tabs_remove ids).
Proof. intros w. reflexivity. Qed.

Lemma quiet_randomUUID : quiet randomUUID.
Proof. intros w. reflexivity. Qed.

Lemma quiet_dateNow : quiet dateNow.
Proof. intros w. reflexivity. Qed.

Lemma quiet_get_realm : quiet get_realm.
Proof. intros w. reflexivity. Qed.

Lemma quiet_assignTabs (sessions : gmap string JsVal) (k : string) (l : list JsVal) :
  quiet (assignTabs sessions k l).
Proof.
  intros w. unfold assignTabs. destruct (index sessions k) as [[]|]; reflexivity.
Qed.

Lemma quiet_assignName (sessions : gmap string JsVal) (k n : string) :
  quiet (assignName sessions k n).
Proof.
  intros w. unfold assignName. destruct (index sessions k) as [[]|[]]; reflexivity.
Qed.

Lemma quiet_openInBackground (tab : JsVal) : quiet (openInBackground tab).
Proof.
  unfold openInBackground. apply quiet_bind; [apply quiet_lift|].
  intros url. apply quiet_tabs_create.
Qed.

Lemma quiet_open_all (tabs : list JsVal) :
  quiet (promise_all (map openInBackground tabs)).
Proof.
  apply quiet_promise_all. apply Forall_forall. intros p Hp.
  apply list_elem_of_fmap in Hp as (t & -> & _). apply quiet_openInBackground.
Qed.

Lemma unfailing_ret {A} (a : A) : unfailing (ret a).
Proof. intros w. eexists. reflexivity. Qed.

Lemma unfailing_bind {A B} (c : M A) (k : A → M B) :
  unfailing c → (∀ a, unfailing (k a)) → unfailing (bind c k).
Proof.
  intros Hc Hk w. unfold bind. destruct (Hc w) as [a Ha].
  destruct (c w) as [w1 r]. cbn in Ha. subst r. apply Hk.
Qed.

Lemma unfailing_writeSessions (sessions : gmap string JsVal) :
  unfailing (writeSessions sessions).
Proof. intros w. eexists. reflexivity. Qed.

Lemma unfailing_get_realm : unfailing get_realm.
Proof. intros w. eexists. reflexivity. Qed.

Lemma unfailing_storage_get_active : unfailing storage_get_active.
Proof. intros w. eexists. reflexivity. Qed.

Lemma unfailing_storage_set_active (id : string) : unfailing (storage_set_active id).
Proof. intros w. eexists. reflexivity. Qed.

Lemma unfailing_storage_remove_active : unfailing storage_remove_active.
Proof. intros w. eexists. reflexivity. Qed.

Lemma atomic_quiet {A} (c : M A) : quiet c → atomic c.
Proof. intros H w e _. apply H. Qed.

Lemma atomic_unfailing {A} (c : M A) : unfailing c → atomic c.
Proof. intros H w e He. destruct (H w) as [a Ha]. congruence. Qed.

(** A quiet prefix followed by an atomic rest. *)
Lemma atomic_bind {A B} (c : M A) (k : A → M B) :
  quiet c → (∀ a, atomic (k a)) → atomic (bind c k).
Proof.
  intros Hc Hk w e. unfold bind. specialize (Hc w).
  destruct (c w) as [w1 [a|e1]]; cbn in *.
  - intros He. rewrite (Hk a w1 e He). exact Hc.
  - intros _. exact Hc.
Qed.

(** An atomic computation whose result is only repackaged. *)
Lemma atomic_then {A B} (c : M A) (k : A → M B) :
  atomic c → (∀ a, unfailing (k a)) → atomic (bind c k).
Proof.
  intros Hc Hk w e. unfold bind. specialize (Hc w).
  destruct (c w) as [w1 [a|e1]]; cbn in *.
  - intros He. destruct (Hk a w1) as [b Hb]. congruence.
  - intros _. by apply (Hc e1).
Qed.

Lemma atomic_saveSession (name : string) : atomic (saveSession name).
Proof.
  unfold saveSession.
  destruct (negb (truthy (JStr name)) || negb (truthy (JStr (trim name)))).
  { apply atomic_quiet, quiet_throw. }
  apply atomic_bind; [apply quiet_tabs_query|]. intros tabs. cbv zeta.
  destruct (length (captureTabs tabs) =? 0)%nat.
  { apply atomic_quiet, quiet_throw. }
  apply atomic_bind; [apply quiet_readSessions|]. intros sessions.
  apply atomic_bind; [apply quiet_randomUUID|]. intros id.
  apply atomic_bind; [apply quiet_dateNow|]. intros now.
  apply atomic_unfailing, unfailing_bind; [apply unfailing_writeSessions|].
  intros _. apply unfailing_bind; [apply unfailing_get_realm|].
  intros r. apply unfailing_ret.
Qed.

Lemma atomic_restoreSession (id : string) (close : bool) : atomic (restoreSession id close).
Proof.
  unfold restoreSession.
  apply atomic_bind; [apply quiet_readSessions|]. intros sessions. cbv zeta.
  destruct (negb (present (index sessions id))).
  { apply atomic_quiet, quiet_throw. }
  apply atomic_bind; [apply quiet_get_realm|]. intros r.
  apply atomic_bind; [apply quiet_lift|]. intros tabs.
  apply atomic_bind; [apply quiet_lift|]. intros safeTabs.
  destruct (length safeTabs =? 0)%nat.
  { apply atomic_quiet, quiet_throw. }
  apply atomic_bind.
  - destruct close.
    + apply quiet_bind; [apply quiet_tabs_query|]. intros currentTabs.
      apply quiet_bind; [apply quiet_lift|]. intros url.
      apply quiet_bind; [apply quiet_tabs_create|]. intros _.
      apply quiet_bind; [apply quiet_tabs_remove|]. intros _.
      destruct (1 <? length safeTabs)%nat; [|apply quiet_ret].
      apply quiet_bind; [apply quiet_open_all|]. intros _. apply quiet_ret.
    + apply quiet_bind; [apply quiet_open_all|]. intros _. apply quiet_ret.
  - intros _. apply atomic_unfailing, unfailing_bind.
    + apply unfailing_storage_set_active.
    + intros _. apply unfailing_ret.
Qed.

Lemma atomic_updateSession (id : string) : atomic (updateSession id).
Proof.
  unfold updateSession.
  apply atomic_bind; [apply quiet_readSessions|]. intros sessions.
  destruct (negb (present (index sessions id))).
  { apply atomic_quiet, quiet_throw. }
  apply atomic_bind; [apply quiet_tabs_query|]. intros tabs. cbv zeta.
  destruct (length (captureTabs tabs) =? 0)%nat.
  { apply atomic_quiet, quiet_throw. }
  apply atomic_bind; [apply quiet_assignTabs|]. intros sessions'.
  apply atomic_unfailing, unfailing_bind; [apply unfailing_writeSessions|].
  intros _. apply unfailing_bind; [apply unfailing_get_realm|].
  intros r. apply unfailing_ret.
Qed.

Lemma atomic_deleteSession (id : string) : atomic (deleteSession id).
Proof.
  unfold deleteSession.
  apply atomic_bind; [apply quiet_readSessions|]. intros sessions.
  destruct (negb (present (index sessions id))).
  { apply atomic_quiet, quiet_throw. }
  cbv zeta. apply atomic_unfailing.
  apply unfailing_bind; [apply unfailing_writeSessions|]. intros _.
  apply unfailing_bind; [apply unfailing_storage_get_active|]. intros active.
  apply unfailing_bind; [|intros _; apply unfailing_ret].
  destruct (strict_eq (of_opt active) (JStr id)).
  - apply unfailing_storage_remove_active.
  - apply unfailing_ret.
Qed.

Lemma atomic_renameSession (id newName : string) : atomic (renameSession id newName).
Proof.
  unfold renameSession.
  destruct (negb (truthy (JStr newName)) || negb (truthy (JStr (trim newName)))).
  { apply atomic_quiet, quiet_throw. }
  apply atomic_bind; [apply quiet_readSessions|]. intros sessions.
  destruct (negb (present (index sessions id))).
  { apply atomic_quiet, quiet_throw. }
  apply atomic_bind; [apply quiet_assignName|]. intros sessions'.
  apply atomic_unfailing.
  apply unfailing_bind; [apply unfailing_writeSessions|]. intros _.
  apply unfailing_ret.
Qed.

Lemma atomic_importSessions (data : JsVal) : atomic (importSessions data).
Proof.
  unfold importSessions.
  apply atomic_bind; [apply quiet_lift|]. intros invalid.
  destruct invalid.
  { apply atomic_quiet, quiet_throw. }
  apply atomic_bind; [apply quiet_readSessions|]. intros existing.
  apply atomic_bind; [apply quiet_lift|]. intros payload.
  apply atomic_bind; [apply quiet_lift|]. intros entries.
  apply atomic_bind; [apply quiet_get_realm|]. intros r.
  apply atomic_bind; [apply quiet_lift|]. intros [existing' imported].
  apply atomic_unfailing.
  apply unfailing_bind; [apply unfailing_writeSessions|]. intros _.
  apply unfailing_ret.
Qed.

Lemma quiet_getSessions : quiet getSessions.
Proof.
  unfold getSessions. apply quiet_bind; [apply quiet_readSessions|]. intros sessions.
  apply quiet_bind; [apply quiet_storage_get_active|]. intros active. apply quiet_ret.
Qed.

Lemma quiet_exportSessions : quiet exportSessions.
Proof.
  unfold exportSessions. apply quiet_bind; [apply quiet_readSessions|].
  intros sessions. apply quiet_ret.
Qed.

Lemma atomic_handleMessage (message : Message) : atomic (handleMessage message).
Proof.
  destruct message; cbn [handleMessage].
  - apply atomic_then; [apply atomic_quiet, quiet_getSessions|].
    intros [sessions active]. apply unfailing_ret.
  - apply atomic_then; [apply atomic_saveSession|]. intros ?. apply unfailing_ret.
  - apply atomic_then; [apply atomic_restoreSession|]. intros ?. apply unfailing_ret.
  - apply atomic_then; [apply atomic_deleteSession|]. intros ?. apply unfailing_ret.
  - apply atomic_then; [apply atomic_renameSession|]. intros ?. apply unfailing_ret.
  - apply atomic_then; [apply atomic_quiet, quiet_exportSessions|].
    intros ?. apply unfailing_ret.
  - apply atomic_then; [apply atomic_importSessions|]. intros ?. apply unfailing_ret.
  - apply atomic_then; [apply atomic_updateSession|]. intros ?. apply unfailing_ret.
Qed.

End Atomicity.

(** C10. Whenever one of the store operations fails, whatever the reason,
    the persisted collection and the pointer are exactly as before the
    call: every check comes before the first write. *)
Theorem failure_leaves_storage_unchanged
    (message : Message) (w : World) (e : Error)
    (Hfail : result_of (handleMessage message) w = Throw e) :
  storage (world_after (handleMessage message) w) = storage w.
Proof. exact (atomic_handleMessage message w e Hfail). Qed.

Lemma failure_leaves_storage_unchanged_witness :
  let w := Samples.world (Some (<["s3" := Samples.sessionMixed]> ∅)) (Some "s3")
             [Samples.liveSettings] in
  result_of (handleMessage (UpdateSession "s3")) w = Throw NoSaveableTabsError
  ∧ storage (world_after (handleMessage (UpdateSession "s3")) w) = storage w.
Proof.
  intros w.
  assert (result_of (handleMessage (UpdateSession "s3")) w = Throw NoSaveableTabsError)
    as Hfail by (vm_compute; reflexivity).
  split; [exact Hfail|].
  exact (failure_leaves_storage_unchanged (UpdateSession "s3") w NoSaveableTabsError Hfail).
Defined.

(** The failures the operations check for, each raised before any write. *)
Lemma validation_failures (w : World) (id name : string) (close : bool) :
  (trim name = "" → result_of (saveSession name) w = Throw ValidationError)
  ∧ (trim name ≠ "" → captureTabs (window w) = [] →
       result_of (saveSession name) w = Throw NoSaveableTabsError)
  ∧ (trim name = "" → result_of (renameSession id name) w = Throw ValidationError)
  ∧ (collection w !! id = None → inherited id = None →
       result_of (updateSession id) w = Throw NotFoundError
       ∧ result_of (restoreSession id close) w = Throw NotFoundError
       ∧ result_of (deleteSession id) w = Throw NotFoundError
       ∧ (trim name ≠ "" → result_of (renameSession id name) w = Throw NotFoundError)).
Proof.
  unfold result_of. split; [|split; [|split]].
  - intros H. by rewrite save_invalid.
  - intros H1 H2. by rewrite save_nothing_saveable.
  - intros H. by rewrite rename_invalid.
  - intros H Hplain.
    rewrite update_missing, restore_missing, delete_missing by assumption.
    repeat split; try reflexivity. intros Hn. by rewrite rename_missing.
Qed.

(** *** Import *)

Section ImportLoop.

Lemma typeof_string (v : JsVal) : typeof v = TString → ∃ s, v = JStr s.
Proof. destruct v; try discriminate. eauto. Qed.

Lemma typeof_number (v : JsVal) : typeof v = TNumber → ∃ n, v = JNum n.
Proof. destruct v; try discriminate. eauto. Qed.

Lemma isArray_inv (v : JsVal) : isArray v = true → ∃ l, v = JArr l.
Proof. destruct v; try discriminate. eauto. Qed.

Lemma get_prop_throws (v : JsVal) (k : string) (e : Error) :
  get_prop v k = Throw e → e = TypeError.
Proof. destruct v; cbn; congruence. Qed.

Lemma read_throws (r : Realm) (v : JsVal) (k : string) (e : Error) :
  read r v k = Throw e → e = TypeError.
Proof. destruct v; cbn; congruence. Qed.

Lemma inheritedValue_pristine (r : Realm) (k : string) :
  pristine r → inheritedValue r k = JUndefined.
Proof.
  intros [Htabs Hname]. unfold inheritedValue. rewrite Htabs, Hname.
  by repeat destruct (String.eqb _ _).
Qed.

Lemma read_pristine (r : Realm) (v : JsVal) (k : string) :
  pristine r → read r v k = get_prop v k.
Proof.
  intros H. destruct v; cbn [read get_prop]; by rewrite ?(inheritedValue_pristine r k H).
Qed.

Lemma get_prop_defined (v : JsVal) (k : string) (x : JsVal) :
  get_prop v k = Ok x → x ≠ JUndefined → ∃ o, v = JObj o ∧ o !! k = Some x.
Proof.
  destruct v as [| | | | | |o]; cbn; try congruence. intros H Hx. exists o.
  split; [reflexivity|]. destruct (o !! k) as [y|]; cbn in H; congruence.
Qed.

Lemma importableTab_true (t : JsVal) :
  importableTab t = Ok true → is_tab t = true.
Proof.
  unfold importableTab. destruct (get_prop t "url") as [u|e] eqn:Hg; [|discriminate].
  cbn [rbind]. intros H. injection H as H. apply andb_true_iff in H as [H _].
  apply bool_decide_eq_true in H. destruct (typeof_string u H) as [s ->].
  destruct (get_prop_defined t "url" (JStr s) Hg) as (o & -> & Ho); [discriminate|].
  cbn. rewrite Ho. reflexivity.
Qed.


Lemma filterR_throws {A} (p : A → Result bool) (l : list A) (e : Error) :
  (∀ x e', p x = Throw e' → e' = TypeError) →
  filterR p l = Throw e → e = TypeError.
Proof.
  intros Hp. induction l as [|x r IH]; [discriminate|].
  cbn [filterR]. destruct (p x) as [b|e'] eqn:Hx; cbn [rbind].
  - destruct (filterR p r) as [r'|e'']; cbn [rbind]; [discriminate|].
    intros [= <-]. by apply IH.
  - intros [= <-]. by apply (Hp x).
Qed.

Lemma importableTab_throws (t : JsVal) (e : Error) :
  importableTab t = Throw e → e = TypeError.
Proof.
  unfold importableTab. destruct (get_prop t "url") as [u|e'] eqn:Hg; [discriminate|].
  cbn. intros [= <-]. by apply get_prop_throws in Hg.
Qed.

Lemma spread_object (o : gmap string JsVal) (k : string) (x : JsVal) :
  spread_with (JObj o) k x = JObj (<[k := x]> o).
Proof. unfold spread_with, own_entries. by rewrite list_to_map_to_list. Qed.

Lemma importEntry_turn (r : Realm) (existing : gmap string JsVal) (imported : nat)
    (id : string) (session : JsVal) :
  pristine r →
  ImportTurn existing imported id session
    (importEntry r (existing, imported) (id, session)).
Proof.
  intros Hr. unfold importEntry. rewrite !(read_pristine r) by exact Hr.
  destruct (present (index existing id)) eqn:Hex; [constructor|].
  destruct (get_prop session "id") as [sid|e] eqn:Hid; cbn [rbind];
    [|apply get_prop_throws in Hid as ->; constructor].
  destruct (bool_decide (typeof sid = TString)) eqn:Tid; cbn [negb]; [|constructor].
  apply bool_decide_eq_true in Tid. destruct (typeof_string _ Tid) as [a ->].
  destruct (get_prop_defined _ _ _ Hid) as (o & -> & Ho); [discriminate|].
  cbn [get_prop rbind].
  destruct (bool_decide (typeof (default JUndefined (o !! "name")) = TString)) eqn:Tn;
    cbn [negb]; [|constructor].
  apply bool_decide_eq_true in Tn. destruct (typeof_string _ Tn) as [b Hn].
  destruct (bool_decide (typeof (default JUndefined (o !! "createdAt")) = TNumber)) eqn:Tc;
    cbn [negb]; [|constructor].
  apply bool_decide_eq_true in Tc. destruct (typeof_number _ Tc) as [c Hc].
  destruct (isArray (default JUndefined (o !! "tabs"))) eqn:Ta; cbn [negb]; [|constructor].
  destruct (isArray_inv _ Ta) as [tabs Htabs]. rewrite Htabs. cbn [js_filter].
  destruct (filterR importableTab tabs) as [safe|e] eqn:Hf; cbn [rbind].
  - rewrite spread_object.
    destruct (o !! "name") as [vn|] eqn:Hon; cbn in Hn; [subst vn|discriminate].
    destruct (o !! "createdAt") as [vc|] eqn:Hoc; cbn in Hc; [subst vc|discriminate].
    destruct (o !! "tabs") as [vt|] eqn:Hot; cbn in Htabs; [subst vt|discriminate].
    apply (turn_insert _ _ _ _ o safe tabs); try done.
    cbn [is_session]. rewrite !lookup_insert_ne by done.
    rewrite Ho, Hon, Hoc, lookup_insert_eq.
    apply forallb_forall. intros t Ht. apply importableTab_true.
    apply list_elem_of_In in Ht.
    by apply (filterR_elem_of importableTab tabs safe t Hf) in Ht as [_ Ht].
  - apply (filterR_throws importableTab tabs e importableTab_throws) in Hf as ->.
    constructor.
Qed.

(** In a worker that has assigned nothing on a built-in object the loop
    keeps a valid collection valid, keeps every key it had, and throws
    nothing but a [TypeError]. *)
Lemma importLoop_sound (r : Realm) (entries : list (string * JsVal))
    (existing : gmap string JsVal) (imported : nat) :
  pristine r →
  valid_collection existing →
  match importLoop r entries (existing, imported) with
  | Ok (existing', _) =>
      valid_collection existing' ∧ ∀ k, is_Some (existing !! k) → is_Some (existing' !! k)
  | Throw e => e = TypeError
  end.
Proof.
  intros Hr. revert existing imported. induction entries as [|[id session] rest IH];
    intros existing imported Hvalid.
  - cbn. split; [exact Hvalid|auto].
  - cbn [importLoop].
    destruct (importEntry_turn r existing imported id session Hr)
      as [| |o safe tabs Hex Hs Ho Hf Hses]; cbn [rbind].
    + by apply IH.
    + reflexivity.
    + assert (valid_collection (<[id := JObj (<["tabs" := JArr safe]> o)]> existing)) as Hv.
      { by apply map_Forall_insert_2. }
      specialize (IH _ (S imported) Hv).
      destruct (importLoop r rest _) as [[existing' n]|e]; [|exact IH].
      destruct IH as [Hv' Hk]. split; [exact Hv'|].
      intros k Hin. apply Hk. rewrite lookup_insert. case_decide; [eauto|exact Hin].
Qed.

(** A successful import wrote what the loop produced. *)
Lemma import_success (data : JsVal) (w w' : World) (n : nat) :
  importSessions data w = (w', Ok n) →
  ∃ entries existing',
    importLoop (realm w) entries (collection w, 0) = Ok (existing', n)
    ∧ w' = with_storage w (mkStorage (Some existing') (pointer w)).
Proof.
  intros H.
  cbv beta iota delta [importSessions bind lift readSessions writeSessions get_realm
    storage_get_sessions storage_set_sessions ret throw] in H.
  destruct (importGuard data) as [[|]|e]; cbn beta iota in H; try discriminate H.
  destruct (get_prop data "sessions") as [payload|e]; cbn beta iota in H;
    [|discriminate H].
  destruct (object_entries payload) as [entries|e]; cbn beta iota in H;
    [|discriminate H].
  change (default ∅ (sessionsKey (storage w))) with (collection w) in H.
  destruct (importLoop (realm w) entries (collection w, 0))
    as [[existing' imported]|e] eqn:Hloop;
    cbn beta iota in H; [|discriminate H].
  injection H as <- <-. exists entries, existing'. split; [exact Hloop|reflexivity].
Qed.

Lemma import_invalid_format (data : JsVal) (w : World) :
  importGuard data = Ok true → importSessions data w = (w, Throw InvalidFormatError).
Proof.
  intros H. unfold importSessions, bind, lift. rewrite H. reflexivity.
Qed.

(** The payloads the guard lets through: objects whose [sessions] member
    has type "object", which includes [null] and arrays. *)
Lemma importGuard_passes (data : JsVal) :
  importGuard data = Ok false ↔
  ∃ o v, data = JObj o ∧ o !! "sessions" = Some v ∧ typeof v = TObject.
Proof.
  split.
  - intros H. destruct data as [| |b|n|s|l|o].
    1-2: discriminate H.
    + destruct b; discriminate H.
    + unfold importGuard in H. destruct (negb (truthy (JNum n))); discriminate H.
    + unfold importGuard in H. destruct (negb (truthy (JStr s))); discriminate H.
    + discriminate H.
    + unfold importGuard in H. cbn [truthy negb typeof get_prop rbind] in H.
      rewrite bool_decide_eq_true_2 in H by reflexivity. cbn [negb] in H.
      destruct (o !! "sessions") as [v|] eqn:Ho; [|discriminate H].
      cbn [default] in H. injection H as H.
      apply negb_false_iff, bool_decide_eq_true in H. eauto.
  - intros (o & v & -> & Ho & Hv). unfold importGuard.
    cbn [truthy negb typeof get_prop rbind].
    rewrite bool_decide_eq_true_2 by reflexivity. cbn [negb]. rewrite Ho.
    cbn [default]. by rewrite bool_decide_eq_true_2.
Qed.

Lemma importGuard_total (data : JsVal) : ∃ b, importGuard data = Ok b.
Proof.
  unfold importGuard. destruct data; cbn [truthy negb get_prop rbind]; eauto;
    repeat match goal with
           | |- context [if ?b then _ else _] => destruct b
           end; eauto.
Qed.

(** What a turn does depends on the accumulator only through the test
    [existing[id]]; the rest is decided by the entry's session alone.  What
    a turn stores is the entry's session with its tabs filtered. *)
Lemma importEntry_shape (r : Realm) (session : JsVal) :
  ∃ verdict : Result (option JsVal),
    (∀ e, verdict = Throw e → e = TypeError)
    ∧ (∀ existing imported id,
        importEntry r (existing, imported) (id, session)
        = if present (index existing id) then Ok (existing, imported)
          else match verdict with
               | Throw e => Throw e
               | Ok None => Ok (existing, imported)
               | Ok (Some v) => Ok (<[id := v]> existing, S imported)
               end)
    ∧ ∀ v, verdict = Ok (Some v) →
           ∃ stabs safe, read r session "tabs" = Ok (JArr stabs)
                         ∧ filterR importableTab stabs = Ok safe
                         ∧ v = spread_with session "tabs" (JArr safe).
Proof.
  unfold importEntry.
  destruct (get_prop session "id") as [sid|e] eqn:Hid; cbn [rbind].
  2: { exists (Throw e). split; [|split].
       - intros e' [= <-]. by apply get_prop_throws in Hid.
       - intros. by destruct (present _).
       - discriminate. }
  destruct (negb (bool_decide (typeof sid = TString))).
  { exists (Ok None). split; [discriminate|]. split; [|discriminate].
    intros. by destruct (present _). }
  destruct (read r session "name") as [sname|e] eqn:Hname; cbn [rbind].
  2: { exists (Throw e). split; [|split].
       - intros e' [= <-]. by apply read_throws in Hname.
       - intros. by destruct (present _).
       - discriminate. }
  destruct (negb (bool_decide (typeof sname = TString))).
  { exists (Ok None). split; [discriminate|]. split; [|discriminate].
    intros. by destruct (present _). }
  destruct (get_prop session "createdAt") as [screated|e] eqn:Hcreated; cbn [rbind].
  2: { exists (Throw e). split; [|split].
       - intros e' [= <-]. by apply get_prop_throws in Hcreated.
       - intros. by destruct (present _).
       - discriminate. }
  destruct (negb (bool_decide (typeof screated = TNumber))).
  { exists (Ok None). split; [discriminate|]. split; [|discriminate].
    intros. by destruct (present _). }
  destruct (read r session "tabs") as [stabs|e] eqn:Htabs; cbn [rbind].
  2: { exists (Throw e). split; [|split].
       - intros e' [= <-]. by apply read_throws in Htabs.
       - intros. by destruct (present _).
       - discriminate. }
  destruct (isArray stabs) eqn:Harr; cbn [negb].
  2: { exists (Ok None). split; [discriminate|]. split; [|discriminate].
       intros. by destruct (present _). }
  destruct (isArray_inv _ Harr) as [items ->]. cbn [js_filter].
  destruct (filterR importableTab items) as [safeTabs|e] eqn:Hf; cbn [rbind].
  - exists (Ok (Some (spread_with session "tabs" (JArr safeTabs)))).
    split; [discriminate|]. split; [intros; by destruct (present _)|].
    intros v [= <-]. eauto.
  - exists (Throw e). split; [|split].
    + intros e' [= <-].
      by apply (filterR_throws importableTab items e importableTab_throws).
    + intros. by destruct (present _).
    + discriminate.
Qed.

Lemma index_insert_ne (existing : gmap string JsVal) (k k' : string) (v : JsVal) :
  k ≠ k' → index (<[k := v]> existing) k' = index existing k'.
Proof. intros H. unfold index. by rewrite lookup_insert_ne. Qed.

(** Two turns on different keys can be taken in either order. *)
Lemma importEntry_swap (r : Realm) (k1 k2 : string) (s1 s2 : JsVal)
    (acc : gmap string JsVal * nat) :
  k1 ≠ k2 →
  rbind (importEntry r acc (k1, s1)) (λ a, importEntry r a (k2, s2))
  = rbind (importEntry r acc (k2, s2)) (λ a, importEntry r a (k1, s1)).
Proof.
  intros Hne. destruct acc as [existing n].
  destruct (importEntry_shape r s1) as (v1 & Ht1 & E1 & _).
  destruct (importEntry_shape r s2) as (v2 & Ht2 & E2 & _).
  rewrite (E1 existing n k1), (E2 existing n k2).
  destruct (present (index existing k1)) eqn:T1;
    destruct (present (index existing k2)) eqn:T2;
    destruct v1 as [[a|]|e1]; destruct v2 as [[b|]|e2]; cbn [rbind];
    rewrite ?E1, ?E2, ?index_insert_ne, ?T1, ?T2 by congruence;
    try reflexivity.
  - by rewrite insert_insert_ne.
  - by rewrite (Ht1 e1 eq_refl), (Ht2 e2 eq_refl).
Qed.

Lemma importLoop_cons (r : Realm) (entry : string * JsVal)
    (rest : list (string * JsVal)) (acc : gmap string JsVal * nat) :
  importLoop r (entry :: rest) acc
  = rbind (importEntry r acc entry) (importLoop r rest).
Proof. reflexivity. Qed.

(** The order in which the entries of a payload are enumerated does not
    matter, the keys of an object being pairwise distinct. *)
Lemma importLoop_perm (r : Realm) (entries entries' : list (string * JsVal)) :
  entries ≡ₚ entries' → NoDup (entries.*1) →
  ∀ acc, importLoop r entries acc = importLoop r entries' acc.
Proof.
  induction 1 as [|[k s] l l' Hp IH|[k1 s1] [k2 s2] l|l1 l2 l3 H12 IH12 H23 IH23];
    intros Hnd acc.
  - reflexivity.
  - rewrite fmap_cons in Hnd. apply NoDup_cons in Hnd as [_ Hnd].
    rewrite !importLoop_cons. destruct (importEntry r acc (k, s)); cbn [rbind];
      [by apply IH|reflexivity].
  - rewrite !fmap_cons in Hnd. apply NoDup_cons in Hnd as [Hin _].
    assert (k2 ≠ k1) as Hne.
    { intros ->. apply Hin. cbn. left. }
    rewrite !importLoop_cons.
    pose proof (importEntry_swap r k2 k1 s2 s1 acc Hne) as Hswap.
    destruct (importEntry r acc (k2, s2)) as [a2|e2];
      destruct (importEntry r acc (k1, s1)) as [a1|e1]; cbn [rbind] in *.
    + rewrite !importLoop_cons.
      destruct (importEntry r a2 (k1, s1)), (importEntry r a1 (k2, s2));
        cbn [rbind]; congruence.
    + rewrite importLoop_cons. destruct (importEntry r a2 (k1, s1)); cbn [rbind];
        congruence.
    + rewrite importLoop_cons. destruct (importEntry r a1 (k2, s2)); cbn [rbind];
        congruence.
    + congruence.
  - rewrite IH12 by exact Hnd. apply IH23. by rewrite <- H12.
Qed.

End ImportLoop.

Lemma importLoop_throws (r : Realm) (entries : list (string * JsVal))
    (acc : gmap string JsVal * nat) (e : Error) :
  importLoop r entries acc = Throw e → e = TypeError.
Proof.
  revert acc. induction entries as [|[id session] rest IH]; intros [existing n];
    [discriminate|].
  cbn [importLoop].
  destruct (importEntry_shape r session) as (verdict & Ht & E & _). rewrite E.
  destruct (present (index existing id)); cbn [rbind]; [by apply IH|].
  destruct verdict as [[v|]|e']; cbn [rbind]; try (by apply IH).
  intros [= <-]. by apply Ht.
Qed.

Lemma object_entries_throws (v : JsVal) (e : Error) :
  object_entries v = Throw e → e = TypeError.
Proof. destruct v; cbn; congruence. Qed.

(** The import fails with "Invalid import file format." exactly when the
    guard rejects the payload, and the guard lets through exactly the
    objects whose [sessions] member has type "object". *)
Lemma import_invalid_format_iff (data : JsVal) (w : World) :
  result_of (importSessions data) w = Throw InvalidFormatError
  ↔ ¬ ∃ o v, data = JObj o ∧ o !! "sessions" = Some v ∧ typeof v = TObject.
Proof.
  rewrite <- importGuard_passes. unfold result_of.
  destruct (importGuard_total data) as [[|] Hg].
  - rewrite (import_invalid_format data w Hg). split; [congruence|reflexivity].
  - split; [|congruence]. intros H. exfalso.
    cbv beta iota delta [importSessions bind lift readSessions writeSessions get_realm
      storage_get_sessions storage_set_sessions ret throw] in H.
    rewrite Hg in H. cbn beta iota in H.
    destruct (get_prop data "sessions") as [payload|e] eqn:E1; cbn beta iota in H.
    2: { apply get_prop_throws in E1. cbn in H. congruence. }
    destruct (object_entries payload) as [entries|e] eqn:E2; cbn beta iota in H.
    2: { apply object_entries_throws in E2. cbn in H. congruence. }
    destruct (importLoop _ entries _) as [[existing' imported]|e] eqn:E3;
      cbn beta iota in H.
    + cbn in H. discriminate H.
    + apply importLoop_throws in E3. cbn in H. congruence.
Qed.

(** C5. The guard of the import misses two payloads that are not shaped
    as a mapping of sessions.  With [sessions: null] the import does fail
    and writes nothing, but with the runtime's [TypeError], not with
    "Invalid import file format.".  With [sessions] an array it does not
    fail at all: the elements are imported under their indices. *)
Theorem import_guard_misses_null_and_array :
  let w := Samples.world (Some (<["s1" := Samples.sessionAA]> ∅)) None [Samples.liveX] in
  let nullPayload := JObj (<["sessions" := JNull]> ∅) in
  let arrayPayload := JObj (<["sessions" := JArr [Samples.sessionAB]]> ∅) in
  ¬ sessions_mapping nullPayload
  ∧ result_of (importSessions nullPayload) w = Throw TypeError
  ∧ storage (world_after (importSessions nullPayload) w) = storage w
  ∧ ¬ sessions_mapping arrayPayload
  ∧ result_of (importSessions arrayPayload) w = Ok 1
  ∧ collection (world_after (importSessions arrayPayload) w)
    = <["0" := Samples.sessionAB]> (collection w).
Proof.
  cbv zeta.
  split.
  { intros (o & m & H & Ho). injection H as <-.
    rewrite lookup_insert_eq in Ho. discriminate Ho. }
  split; [vm_compute; reflexivity|].
  split; [vm_compute; reflexivity|].
  split.
  { intros (o & m & H & Ho). injection H as <-.
    rewrite lookup_insert_eq in Ho. discriminate Ho. }
  split; [vm_compute; reflexivity|].
  vm_compute; reflexivity.
Qed.

(** *** Export then import *)





(** *** What the store keeps *)

Section Invariant.

Lemma captureTabs_tabs (live : list LiveTab) :
  forallb is_tab (captureTabs live) = true.
Proof.
  unfold captureTabs. apply forallb_forall. intros t Ht.
  apply in_map_iff in Ht as (tab & <- & Htab).
  apply filter_In in Htab as [_ Hsafe].
  destruct (isSafeUrl_inv _ Hsafe) as [u Hu].
  unfold is_tab, tabRecord. rewrite lookup_insert_eq, Hu. reflexivity.
Qed.

Lemma is_session_set_tabs (s : JsVal) (tabs : list JsVal) :
  is_session s = true → forallb is_tab tabs = true →
  is_session (set_prop s "tabs" (JArr tabs)) = true.
Proof.
  intros Hs Ht. destruct (session_object s Hs) as [o ->].
  cbn [set_prop]. unfold is_session in *.
  rewrite lookup_insert_eq.
  rewrite (lookup_insert_ne o "tabs" "id") by done.
  rewrite (lookup_insert_ne o "tabs" "name") by done.
  rewrite (lookup_insert_ne o "tabs" "createdAt") by done.
  destruct (o !! "id") as [[]|]; try discriminate Hs.
  destruct (o !! "name") as [[]|]; try discriminate Hs.
  destruct (o !! "createdAt") as [[]|]; try discriminate Hs.
  exact Ht.
Qed.

Lemma is_session_set_name (s : JsVal) (name : string) :
  is_session s = true → is_session (set_prop s "name" (JStr name)) = true.
Proof.
  intros Hs. destruct (session_object s Hs) as [o ->].
  cbn [set_prop]. unfold is_session in *.
  rewrite lookup_insert_eq.
  rewrite (lookup_insert_ne o "name" "id") by done.
  rewrite (lookup_insert_ne o "name" "createdAt") by done.
  rewrite (lookup_insert_ne o "name" "tabs") by done.
  destruct (o !! "id") as [[]|]; try discriminate Hs.
  destruct (o !! "name") as [[]|]; try discriminate Hs.
  exact Hs.
Qed.

Lemma world_after_reply {A B} (c : M A) (f : A → B) (w : World) :
  world_after (bind c (λ a, ret (f a))) w = world_after c w.
Proof.
  unfold world_after, bind, ret. destruct (c w) as [w1 [a|e]]; reflexivity.
Qed.

Lemma world_after_done {A B} (c : M A) (b : B) (w : World) :
  world_after (bind c (λ _, ret b)) w = world_after c w.
Proof. apply (world_after_reply c (λ _, b)). Qed.

(** **** Safe tab lists *)

Lemma url_of_tabRecord (tab : LiveTab) : url_of (tabRecord tab) = tabUrl tab.
Proof.
  unfold url_of, tabRecord, get_prop. rewrite lookup_insert_eq.
  by destruct (tabUrl tab).
Qed.

Lemma captureTabs_safe (live : list LiveTab) :
  safe_tabs (captureTabs live) = true.
Proof.
  unfold safe_tabs, captureTabs. apply forallb_forall. intros t Ht.
  apply in_map_iff in Ht as (tab & <- & Htab).
  apply filter_In in Htab as [_ Hsafe]. by rewrite url_of_tabRecord.
Qed.

Lemma filter_all {A} (q : A → bool) (l : list A) :
  forallb q l = true → List.filter q l = l.
Proof.
  induction l as [|x r IH]; [reflexivity|]. cbn. intros H.
  apply andb_true_iff in H as [Hx Hr]. rewrite Hx, IH by exact Hr. reflexivity.
Qed.

Lemma safe_tabs_filter (l : list JsVal) : safe_tabs l = true → safeFilter l = l.
Proof. apply filter_all. Qed.







(** **** The part of the state a restore leaves alone *)

Lemma steady_ret {A} (a : A) : steady (ret a).
Proof. intros w. by repeat split. Qed.

Lemma steady_throw {A} (e : Error) : steady (@throw A e).
Proof. intros w. by repeat split. Qed.

Lemma steady_lift {A} (r : Result A) : steady (lift r).
Proof. intros w. by repeat split. Qed.

Lemma steady_bind {A B} (c : M A) (k : A → M B) :
  steady c → (∀ a, steady (k a)) → steady (bind c k).
Proof.
  intros Hc Hk w. unfold bind. specialize (Hc w).
  destruct (c w) as [w1 [a|e]]; cbn [fst] in *; [|exact Hc].
  destruct (Hk a w1) as (H1 & H2 & H3). destruct Hc as (H1' & H2' & H3').
  repeat split; congruence.
Qed.

Lemma steady_promise_all {A} (ps : list (M A)) :
  Forall steady ps → steady (promise_all ps).
Proof.
  induction 1 as [|p r Hp _ IH]; intros w; [by repeat split|].
  cbn [promise_all]. specialize (Hp w).
  destruct (p w) as [w1 r1]. specialize (IH w1).
  destruct (promise_all r w1) as [w2 r2]. cbn [fst] in *.
  destruct Hp as (? & ? & ?), IH as (? & ? & ?). repeat split; congruence.
Qed.

Lemma steady_tabs_create (url : JsVal) (active : bool) : steady (tabs_create url active).
Proof. intros w. unfold tabs_create. destruct url; by repeat split. Qed.

Lemma steady_openInBackground (tab : JsVal) : steady (openInBackground tab).
Proof.
  unfold openInBackground. apply steady_bind; [apply steady_lift|].
  intros url. apply steady_tabs_create.
Qed.

Lemma steady_open_all (tabs : list JsVal) :
  steady (promise_all (map openInBackground tabs)).
Proof.
  apply steady_promise_all. apply Forall_forall. intros p Hp.
  apply list_elem_of_fmap in Hp as (t & -> & _). apply steady_openInBackground.
Qed.

Lemma steady_restoreSession (id : string) (close : bool) : steady (restoreSession id close).
Proof.
  unfold restoreSession.
  apply steady_bind; [intros w; by repeat split|]. intros sessions. cbv zeta.
  destruct (negb (present (index sessions id))); [apply steady_throw|].
  apply steady_bind; [intros w; by repeat split|]. intros r.
  apply steady_bind; [apply steady_lift|]. intros tabs.
  apply steady_bind; [apply steady_lift|]. intros safeTabs.
  destruct (length safeTabs =? 0)%nat; [apply steady_throw|].
  apply steady_bind.
  - destruct close.
    + apply steady_bind; [intros w; by repeat split|]. intros currentTabs.
      apply steady_bind; [apply steady_lift|]. intros url.
      apply steady_bind; [apply steady_tabs_create|]. intros _.
      apply steady_bind; [intros w; by repeat split|]. intros _.
      destruct (1 <? length safeTabs)%nat; [|apply steady_ret].
      apply steady_bind; [apply steady_open_all|]. intros _. apply steady_ret.
    + apply steady_bind; [apply steady_open_all|]. intros _. apply steady_ret.
  - intros _. apply steady_bind; [intros w; by repeat split|].
    intros _. apply steady_ret.
Qed.

Lemma restore_keeps (id : string) (close : bool) (w : World) :
  collection (world_after (restoreSession id close) w) = collection w
  ∧ realm (world_after (restoreSession id close) w) = realm w
  ∧ uuids (world_after (restoreSession id close) w) = uuids w.
Proof.
  destruct (steady_restoreSession id close w) as (H1 & H2 & H3).
  unfold world_after, collection. by rewrite H1.
Qed.

(** A failed import leaves the world as it was. *)
Lemma import_failure (data : JsVal) (w w' : World) (e : Error) :
  importSessions data w = (w', Throw e) → w' = w.
Proof.
  intros H.
  cbv beta iota delta [importSessions bind lift readSessions writeSessions get_realm
    storage_get_sessions storage_set_sessions ret throw] in H.
  destruct (importGuard data) as [[|]|e0]; cbn beta iota in H;
    try (by injection H as <- _).
  destruct (get_prop data "sessions") as [payload|e1]; cbn beta iota in H;
    [|by injection H as <- _].
  destruct (object_entries payload) as [entries|e2]; cbn beta iota in H;
    [|by injection H as <- _].
  destruct (importLoop _ entries _) as [[existing' imported]|e3]; cbn beta iota in H;
    [discriminate H|by injection H as <- _].
Qed.

(** **** Whatever the messages *)

Lemma absent_plain (existing : gmap string JsVal) (id : string) :
  plain_keys existing → present (index existing id) = false → inherited id = None.
Proof.
  intros Hplain. unfold index. destruct (existing !! id) as [v|] eqn:Hv.
  - intros _. apply Hplain. by exists v.
  - destruct (inherited id); [discriminate|reflexivity].
Qed.

Lemma plain_keys_insert (existing : gmap string JsVal) (id : string) (v : JsVal) :
  plain_keys existing → inherited id = None → plain_keys (<[id := v]> existing).
Proof.
  intros Hplain Hid k Hk. rewrite lookup_insert in Hk.
  case_decide as Heq; [by subst k|by apply Hplain].
Qed.


Lemma plain_keys_delete (existing : gmap string JsVal) (id : string) :
  plain_keys existing → plain_keys (delete id existing).
Proof.
  intros Hplain k [v Hk]. apply Hplain. exists v.
  apply lookup_delete_Some in Hk. by destruct Hk.
Qed.












(** **** As long as no message names an inherited member *)

Lemma store_invariant_same (w w' : World) :
  storage w' = storage w → realm w' = realm w → uuids w' = uuids w →
  store_invariant w → store_invariant w'.
Proof.
  unfold store_invariant, pointer_valid, collection, pointer, uuid_source.
  by intros -> -> ->.
Qed.

Lemma store_invariant_insert (w w' : World) (id : string) (s : JsVal) :
  store_invariant w → is_session s = true → inherited id = None →
  storage w' = mkStorage (Some (<[id := s]> (collection w))) (pointer w) →
  realm w' = realm w → uuids w' = uuids w →
  store_invariant w'.
Proof.
  intros (Hv & Hp & Hplain & Hrealm & Huuid) Hs Hid Hst Hr Hu.
  unfold store_invariant, pointer_valid, collection, pointer, uuid_source.
  rewrite Hst, Hr, Hu. cbn [sessionsKey activeSessionIdKey from_option Datatypes.id].
  split; [by apply map_Forall_insert_2|]. split; [|split; [|split; assumption]].
  - unfold pointer_valid in Hp. destruct (pointer w) as [p|]; [|exact I].
    rewrite lookup_insert. case_decide; [eauto|exact Hp].
  - by apply plain_keys_insert.
Qed.

Lemma save_preserves (name : string) (w : World) :
  store_invariant w → store_invariant (world_after (saveSession name) w).
Proof.
  intros Hinv. unfold world_after.
  destruct (decide (trim name = "")) as [Hn|Hn].
  { by rewrite save_invalid. }
  destruct (captureTabs (window w)) as [|c r] eqn:Hc.
  { rewrite save_nothing_saveable by assumption.
    by apply (store_invariant_same w). }
  rewrite save_run by (try assumption; rewrite Hc; discriminate). cbn [fst].
  eapply store_invariant_insert; [exact Hinv| | |reflexivity|reflexivity|reflexivity].
  - unfold is_session. rewrite lookup_insert_eq.
    rewrite lookup_insert_ne by done. rewrite lookup_insert_eq.
    rewrite !lookup_insert_ne by done. rewrite lookup_insert_eq.
    rewrite !lookup_insert_ne by done. rewrite lookup_insert_eq.
    try rewrite <- Hc. apply captureTabs_tabs.
  - by destruct Hinv as (_ & _ & _ & _ & Huuid).
Qed.

Lemma stored_or_plain (w : World) (id : string) :
  store_invariant w → inherited id = None →
  (∃ s, collection w !! id = Some s ∧ is_session s = true)
  ∨ (collection w !! id = None ∧ inherited id = None).
Proof.
  intros (Hv & _) Hplain. destruct (collection w !! id) as [s|] eqn:Hid; [|by right].
  left. exists s. split; [reflexivity|]. exact (Hv id s Hid).
Qed.

Lemma restore_preserves (id : string) (close : bool) (w : World) :
  store_invariant w → inherited id = None →
  store_invariant (world_after (restoreSession id close) w).
Proof.
  intros Hinv Hplain. pose proof Hinv as (Hv & Hp & Hk & Hr & Hu). unfold world_after.
  destruct (stored_or_plain w id Hinv Hplain) as [(s & Hid & Hs)|[Hid _]].
  2: { by rewrite restore_missing. }
  destruct (safeFilter (tabs_of s)) as [|first rest] eqn:Hsafe.
  { by rewrite (restore_nothing_safe w id close s). }
  assert (∀ w1, realm w1 = realm w → uuids w1 = uuids w →
            store_invariant (with_storage w1 (mkStorage (sessionsKey (storage w)) (Some id))))
    as Hset.
  { intros w1 Hr1 Hu1. split; [exact Hv|]. split; [|split; [exact Hk|]].
    - unfold pointer_valid, pointer, collection. cbn. unfold collection in Hid.
      rewrite Hid. eauto.
    - cbn [realm with_storage]. rewrite Hr1. split; [exact Hr|].
      unfold uuid_source. cbn [uuids with_storage]. by rewrite Hu1. }
  pose proof (restore_keeps id close w) as (_ & Hr' & Hu').
  unfold world_after in Hr', Hu'.
  destruct close.
  - rewrite (restore_close_run w id s first rest) in * by assumption. cbn [fst] in *.
    by apply Hset.
  - rewrite (restore_keep_run w id s first rest) in * by assumption. cbn [fst] in *.
    by apply Hset.
Qed.

Lemma update_preserves (id : string) (w : World) :
  store_invariant w → inherited id = None →
  store_invariant (world_after (updateSession id) w).
Proof.
  intros Hinv Hplain. unfold world_after.
  destruct (stored_or_plain w id Hinv Hplain) as [(s & Hid & Hs)|[Hid _]].
  2: { by rewrite update_missing. }
  destruct (session_object s Hs) as [o ->].
  destruct (captureTabs (window w)) as [|c r] eqn:Hc.
  { rewrite (update_nothing_saveable w id) by
      (try assumption; by apply (present_stored _ _ (JObj o))).
    by apply (store_invariant_same w). }
  rewrite (update_run w id o) by (try assumption; rewrite Hc; discriminate). cbn [fst].
  eapply store_invariant_insert;
    [exact Hinv| |exact Hplain|reflexivity|reflexivity|reflexivity].
  apply is_session_set_tabs; [exact Hs|]. try rewrite <- Hc. apply captureTabs_tabs.
Qed.

Lemma rename_preserves (id newName : string) (w : World) :
  store_invariant w → inherited id = None →
  store_invariant (world_after (renameSession id newName) w).
Proof.
  intros Hinv Hplain. unfold world_after.
  destruct (decide (trim newName = "")) as [Hn|Hn].
  { by rewrite rename_invalid. }
  destruct (stored_or_plain w id Hinv Hplain) as [(s & Hid & Hs)|[Hid _]].
  2: { by rewrite rename_missing. }
  destruct (session_object s Hs) as [o ->].
  rewrite (rename_run w id newName o) by assumption.
  cbn [fst]. eapply store_invariant_insert;
    [exact Hinv| |exact Hplain|reflexivity|reflexivity|reflexivity].
  by apply is_session_set_name.
Qed.

Lemma delete_preserves (id : string) (w : World) :
  store_invariant w → inherited id = None →
  store_invariant (world_after (deleteSession id) w).
Proof.
  intros Hinv Hplain. pose proof Hinv as (Hv & Hp & Hk & Hr & Hu). unfold world_after.
  destruct (stored_or_plain w id Hinv Hplain) as [(s & Hid & Hs)|[Hid _]].
  2: { by rewrite delete_missing. }
  rewrite (delete_run w id s) by (try assumption; by apply session_truthy).
  cbn [fst]. split; [|split; [|split; [|split; assumption]]].
  - rewrite collection_with_storage. by apply map_Forall_delete.
  - unfold pointer_valid in *. unfold pointer at 1. cbn.
    case_bool_decide as Hptr; [exact I|].
    destruct (pointer w) as [p|]; [|exact I].
    rewrite lookup_delete_ne by congruence. exact Hp.
  - rewrite collection_with_storage. by apply plain_keys_delete.
Qed.

Lemma importLoop_plain (r : Realm) (entries : list (string * JsVal))
    (existing existing' : gmap string JsVal) (n n' : nat) :
  importLoop r entries (existing, n) = Ok (existing', n') →
  plain_keys existing → plain_keys existing'.
Proof.
  revert existing n. induction entries as [|[id session] rest IH];
    intros existing n H Hplain.
  - by injection H as <- <-.
  - cbn [importLoop] in H.
    destruct (importEntry_shape r session) as (verdict & _ & E & _). rewrite E in H.
    destruct (present (index existing id)) eqn:Hex; cbn [rbind] in H.
    { by apply (IH existing n). }
    destruct verdict as [[v|]|e]; cbn [rbind] in H.
    + apply (IH _ _ H). apply plain_keys_insert; [exact Hplain|].
      by apply (absent_plain existing).
    + by apply (IH existing n).
    + discriminate H.
Qed.

Lemma import_preserves (data : JsVal) (w : World) :
  store_invariant w → store_invariant (world_after (importSessions data) w).
Proof.
  intros Hinv. pose proof Hinv as (Hv & Hp & Hk & Hr & Hu). unfold world_after.
  destruct (importSessions data w) as [w' [n|e]] eqn:Hrun; cbn [fst].
  - destruct (import_success data w w' n Hrun) as (entries & existing' & Hloop & ->).
    pose proof (importLoop_sound (realm w) entries (collection w) 0 Hr Hv) as Hsound.
    rewrite Hloop in Hsound. destruct Hsound as [Hv' Hkeys].
    split; [exact Hv'|]. split; [|split; [|split; assumption]].
    + unfold pointer_valid in *. unfold pointer at 1. cbn.
      destruct (pointer w) as [p|]; [|exact I]. by apply Hkeys.
    + rewrite collection_with_storage. by apply (importLoop_plain _ _ _ _ _ _ Hloop).
  - by rewrite (import_failure data w w' e Hrun).
Qed.

Lemma handleMessage_preserves (message : Message) (w : World) :
  store_invariant w → ordinary message →
  store_invariant (world_after (handleMessage message) w).
Proof.
  intros Hinv Hord. destruct message; cbn [handleMessage ordinary] in *.
  - exact Hinv.
  - rewrite world_after_reply. by apply save_preserves.
  - rewrite world_after_reply. by apply restore_preserves.
  - rewrite world_after_done. by apply delete_preserves.
  - rewrite world_after_done. by apply rename_preserves.
  - exact Hinv.
  - rewrite world_after_reply. by apply import_preserves.
  - rewrite world_after_reply. by apply update_preserves.
Qed.

Lemma pristine_fresh (strict : bool) : pristine (freshRealm strict).
Proof. by split. Qed.

Lemma reachable_invariant (w : World) : reachable_by ordinary w → store_invariant w.
Proof.
  induction 1 as [w Hinit Hrealm Huuid|w message _ IH Hord
                  |w w' _ IH Hst Hrealm Huuid].
  - unfold store_invariant, pointer_valid, collection, pointer. rewrite Hinit. cbn.
    split; [apply map_Forall_empty|]. split; [exact I|].
    split; [|split; assumption]. intros k [v Hk]. by rewrite lookup_empty in Hk.
  - by apply handleMessage_preserves.
  - destruct IH as (Hv & Hp & Hk & Hr & _).
    unfold store_invariant, pointer_valid, collection, pointer in *. rewrite Hst.
    split; [exact Hv|]. split; [exact Hp|]. split; [exact Hk|]. split; [|exact Huuid].
    destruct Hrealm as [->| ->]; [exact Hr|apply pristine_fresh].
Qed.

(** The sample worlds draw identifiers that name no inherited member. *)
Lemma sample_uuid_source (sessions : option (gmap string JsVal)) (active : option string)
    (win : list LiveTab) :
  uuid_source (Samples.world sessions active win).
Proof.
  intros n. cbn [uuids Samples.world]. unfold Samples.someUuid.
  change ("uuid-" +:+ pretty n) with (String "u" ("uid-" +:+ pretty n)).
  reflexivity.
Qed.

Lemma sample_reachable (allowed : Message → Prop) (win : list LiveTab) :
  reachable_by allowed (Samples.world None None win).
Proof.
  apply reach_init; [reflexivity|apply pristine_fresh|apply sample_uuid_source].
Qed.

End Invariant.



(** C8. The pointer does not always name a stored session.  A file is
    imported whose one session carries the id [__proto__], which names a
    member of [Object.prototype]; its card sends that id.  The update
    under it passes the test for a missing session and assigns the
    captured tabs on the prototype; the restore under it then finds tabs
    to open, succeeds, and stores the id as the pointer, though no session
    is stored under it: [getSessions] reports a pointer that is no key of
    the collection.  And a delete under an id that names an inherited
    method succeeds although nothing is stored under it. *)
Theorem pointer_can_name_no_session :
  let session := Samples.mkSession "__proto__" "Trip" 1 [Samples.tabA] in
  let file := exportPayload (<["a" := session]> ∅) in
  let w0 := Samples.world None None [Samples.liveX] in
  let w1 := world_after (handleMessage (ImportSessions file)) w0 in
  let w2 := world_after (handleMessage (UpdateSession "__proto__")) w1 in
  let w3 := world_after (handleMessage (RestoreSession "__proto__" false)) w2 in
  reachable w3
  ∧ result_of (handleMessage (ImportSessions file)) w0 = Ok (ImportReply 1)
  ∧ collection w1 = <["a" := session]> ∅
  ∧ result_of (handleMessage (UpdateSession "__proto__")) w1
    = Ok (SessionReply (JObj (<["tabs" := JArr [tabRecord Samples.liveX]]> ∅)))
  ∧ result_of (handleMessage (RestoreSession "__proto__" false)) w2 = Ok (RestoreReply 0)
  ∧ pointer w3 = Some "__proto__"
  ∧ collection w3 = <["a" := session]> ∅
  ∧ collection w3 !! "__proto__" = None
  ∧ ¬ pointer_valid w3
  ∧ result_of getSessions w3 = Ok (<["a" := session]> ∅, Some "__proto__")
  ∧ (collection w0 !! "toString" = None
     ∧ result_of (deleteSession "toString") w0 = Ok tt).
Proof.
  cbv zeta.
  split.
  { apply reach_message; [|exact I]. apply reach_message; [|exact I].
    apply reach_message; [|exact I]. apply sample_reachable. }
  split; [vm_compute; reflexivity|].
  split; [vm_compute; reflexivity|].
  split; [vm_compute; reflexivity|].
  split; [vm_compute; reflexivity|].
  split; [vm_compute; reflexivity|].
  split; [vm_compute; reflexivity|].
  split; [vm_compute; reflexivity|].
  split.
  { unfold pointer_valid.
    match goal with
    | |- ¬ match pointer ?w with _ => _ end =>
        assert (pointer w = Some "__proto__") as -> by (vm_compute; reflexivity)
    end.
    intros [v Hv]. vm_compute in Hv. discriminate Hv. }
  split; [vm_compute; reflexivity|].
  split; vm_compute; reflexivity.
Qed.

(** X23. As long as no message has carried an id that names a member of
    [Object.prototype], the pointer is absent or is the id of a session of
    the collection.  In such a state deleting a session that is there
    succeeds, removes it, and clears the pointer exactly when the pointer
    was that id, so that [getSessions] then reports no active session;
    deleting any other stored session leaves the pointer as it was; and
    deleting an id that is not there and names no inherited member fails
    with "Session not found." and changes nothing. *)
Theorem pointer_referential_integrity
    (w : World) (id : string) (Hreach : reachable_by ordinary w) :
  let w' := world_after (deleteSession id) w in
  match pointer w with
  | Some p => is_Some (collection w !! p)
  | None => True
  end
  ∧ match collection w !! id with
    | Some _ =>
        result_of (deleteSession id) w = Ok tt
        ∧ collection w' = delete id (collection w)
        ∧ pointer w' = (if bool_decide (pointer w = Some id) then None else pointer w)
        ∧ result_of getSessions w' = Ok (collection w', pointer w')
    | None =>
        match inherited id with
        | None =>
            result_of (deleteSession id) w = Throw NotFoundError
            ∧ storage w' = storage w
        | Some _ =>
            result_of (deleteSession id) w = Ok tt
            ∧ collection w' = collection w
            ∧ pointer w' = pointer w
        end
    end.
Proof.
  intros w'. subst w'.
  destruct (reachable_invariant w Hreach) as (Hv & Hp & Hk & _).
  split; [exact Hp|]. unfold world_after, result_of.
  destruct (collection w !! id) as [s|] eqn:Hid.
  - pose proof (session_truthy s (valid_lookup _ _ _ Hv Hid)) as Ht.
    rewrite (delete_run w id s Hid Ht). cbn [fst snd].
    repeat split; reflexivity.
  - destruct (inherited id) as [b|] eqn:Hb.
    + rewrite (delete_present w id) by (apply present_inherited; [exact Hid|by exists b]).
      cbn [fst snd]. split; [reflexivity|]. rewrite collection_with_storage.
      split; [by apply delete_id|].   
      unfold pointer at 1. cbn. case_bool_decide as Hptr; [|reflexivity].
      exfalso. unfold pointer_valid in Hp. rewrite Hptr in Hp.
      destruct Hp as [v Hp]. congruence.
    + rewrite (delete_missing w id Hid Hb). split; reflexivity.
Qed.

Lemma pointer_referential_integrity_witness :
  let w0 := Samples.world None None [Samples.liveA] in
  let w1 := world_after (handleMessage (SaveSession "Work")) w0 in
  let w2 := world_after (handleMessage (RestoreSession "uuid-0" false)) w1 in
  let w' := world_after (deleteSession "uuid-0") w2 in
  reachable_by ordinary w2
  ∧ pointer w2 = Some "uuid-0"
  ∧ is_Some (collection w2 !! "uuid-0")
  ∧ result_of (deleteSession "uuid-0") w2 = Ok tt
  ∧ pointer w' = None
  ∧ result_of getSessions w' = Ok (∅, None).
Proof.
  intros w0 w1 w2 w'. subst w'.
  assert (reachable_by ordinary w2) as Hreach.
  { apply reach_message; [|reflexivity]. apply reach_message; [|exact I].
    apply sample_reachable. }
  split; [exact Hreach|].
  destruct (pointer_referential_integrity w2 "uuid-0" Hreach) as [Hp Hd].
  assert (pointer w2 = Some "uuid-0") as Hptr by (vm_compute; reflexivity).
  split; [exact Hptr|].
  cbv zeta in Hp. rewrite Hptr in Hp. split; [exact Hp|].
  destruct Hp as [s Hs]. cbv zeta in Hd. rewrite Hs in Hd.
  destruct Hd as (Hr & _ & Hpw & Hg).
  split; [exact Hr|]. split.
  - rewrite Hpw, Hptr. by rewrite bool_decide_eq_true_2.
  - vm_compute. reflexivity.
Defined.

(** *** Capture and save *)

Lemma tabRecord_safe (tab : LiveTab) :
  isSafeUrl (of_opt (tabUrl tab)) = true →
  ∃ u t, tabUrl tab = Some u
         ∧ tabRecord tab = JObj (<["url" := JStr u]> (<["title" := JStr t]> ∅))
         ∧ isSafeUrl (JStr u) = true ∧ t ≠ ""
         ∧ (t = u ∨ tabTitle tab = Some t).
Proof.
  intros Hsafe. destruct (isSafeUrl_inv _ Hsafe) as [u Hu].
  destruct (tabUrl tab) as [u'|] eqn:Hurl; [|discriminate Hu].
  injection Hu as ->. cbn [of_opt] in Hsafe.
  assert (u ≠ "") as Hne.
  { apply isSafeUrl_iff in Hsafe as (s & [= <-] & Hs & _). exact Hs. }
  unfold tabRecord. rewrite Hurl. cbn [of_opt].
  destruct (tabTitle tab) as [t|] eqn:Htitle; unfold js_or; cbn [of_opt truthy].
  - destruct (String.eqb_spec t "") as [->|Ht]; cbn [negb].
    + exists u, u. repeat split; auto.
    + exists u, t. repeat split; auto.
  - exists u, u. repeat split; auto.
Qed.

(** X1. What save and update capture from the window: one record per
    safe live tab, in window order, and nothing for the other tabs.  The
    record of a tab holds the tab's URL and a title: the tab's own title,
    or the URL when the tab has no title or an empty one; so the title is
    never empty.  There are never more records than live tabs. *)
Theorem captured_tabs_are_safe_records (live : list LiveTab) :
  Forall2 captures (safeLive live) (captureTabs live)
  ∧ Forall (λ r, ∃ u t, r = JObj (<["url" := JStr u]> (<["title" := JStr t]> ∅))
                        ∧ isSafeUrl (JStr u) = true ∧ t ≠ "")
      (captureTabs live)
  ∧ url_of <$> captureTabs live
    = List.filter (λ o, isSafeUrl (of_opt o)) (map tabUrl live)
  ∧ (length (captureTabs live) ≤ length live)%nat.
Proof.
  split; [apply captureTabs_captures|].
  unfold captureTabs. induction live as [|tab rest (IH1 & IH2 & IH3)].
  - split; [constructor|]. split; [reflexivity|]. cbn. lia.
  - cbn [List.filter map].
    destruct (isSafeUrl (of_opt (tabUrl tab))) eqn:Hsafe.
    + destruct (tabRecord_safe tab Hsafe) as (u & t & Hurl & Hrec & Hu & Ht & _).
      cbn [map fmap list_fmap length]. split; [|split].
      * constructor; [|exact IH1]. exists u, t. auto.
      * change (list_fmap _ _ url_of ?l) with (url_of <$> l). rewrite IH2.
        f_equal. rewrite Hrec, Hurl. unfold url_of, get_prop.
        rewrite lookup_insert_eq. reflexivity.
      * lia.
    + split; [exact IH1|]. split; [exact IH2|]. cbn [length]. lia.
Qed.

(** X2. [saveSession] checks the name before it touches anything: with an
    empty trimmed name nothing is queried or written.  With a name it
    queries the window once; without a safe tab it fails and writes
    nothing; otherwise it stores one record under the generated id, with
    the trimmed name, the current time and the captured tabs, and leaves
    every other session, the pointer and the window as they were. *)
Theorem save_outcome (w : World) (name : string) :
  let w' := world_after (saveSession name) w in
  let r := result_of (saveSession name) w in
  let id := uuids w (drawn w) in
  if bool_decide (trim name = "") then r = Throw ValidationError ∧ w' = w
  else
    window w' = window w
    ∧ history w' = history w ++ [(Query, window w)]
    ∧ match captureTabs (window w) with
      | [] => r = Throw NoSaveableTabsError ∧ storage w' = storage w
      | captured =>
          ∃ session,
            r = Ok session
            ∧ get_prop session "id" = Ok (JStr id)
            ∧ get_prop session "name" = Ok (JStr (trim name))
            ∧ get_prop session "createdAt" = Ok (JNum (clock w))
            ∧ get_prop session "tabs" = Ok (JArr captured)
            ∧ collection w' !! id = Some session
            ∧ delete id (collection w') = delete id (collection w)
            ∧ pointer w' = pointer w
      end.
Proof.
  intros w' r id. subst w' r. unfold world_after, result_of.
  case_bool_decide as Hn.
  - rewrite save_invalid by exact Hn. split; reflexivity.
  - destruct (captureTabs (window w)) as [|c rest] eqn:Hc.
    + rewrite save_nothing_saveable by assumption. cbn. repeat split; reflexivity.
    + rewrite save_run by (try assumption; rewrite Hc; discriminate).
      cbn [fst snd window history]. rewrite Hc.
      split; [reflexivity|]. split; [reflexivity|].
      eexists. split; [reflexivity|].
      unfold get_prop. rewrite lookup_insert_eq.
      rewrite (lookup_insert_ne _ "id" "name") by done. rewrite lookup_insert_eq.
      rewrite !(lookup_insert_ne _ _ "createdAt") by done. rewrite lookup_insert_eq.
      rewrite !(lookup_insert_ne _ _ "tabs") by done. rewrite lookup_insert_eq.
      repeat (split; [reflexivity|]).
      unfold collection at 1 2. cbn [storage sessionsKey from_option Datatypes.id].
      split; [apply lookup_insert_eq|]. split; [apply delete_insert_eq|reflexivity].
Qed.

(** *** Rename, delete, restore beside the current tabs *)





(** X5. A restore that keeps the current tabs makes no query and removes
    nothing: its tab calls are one background creation per safe tab, in
    stored order; the window afterwards is the old window followed by the
    opened tabs; the pointer is set to the id and the collection is
    untouched. *)
Theorem restore_beside_current_tabs
    (w : World) (id : string) (s first : JsVal) (rest : list JsVal)
    (Hid : collection w !! id = Some s)
    (Hs : is_session s = true)
    (Hsafe : safeFilter (tabs_of s) = first :: rest) :
  let w' := world_after (restoreSession id false) w in
  let trace := fillTrace (first :: rest) (window w) (nextTabId w) in
  history w' = history w ++ trace
  ∧ map fst trace = map (λ t, Create (of_opt (url_of t)) false) (first :: rest)
  ∧ map tabUrl (window w') = map tabUrl (window w) ++ map url_of (first :: rest)
  ∧ take (length (window w)) (window w') = window w
  ∧ pointer w' = Some id
  ∧ collection w' = collection w.
Proof.
  intros w' trace. subst w' trace. unfold world_after.
  rewrite (restore_keep_run w id s first rest Hid Hs Hsafe). cbn [fst].
  split; [apply afterBatch_history|].
  split; [apply fillTrace_calls|].
  split; [apply afterBatch_window|].
  split; [|split; reflexivity].
  change (window (with_storage ?x _)) with (window x).
  generalize (first :: rest). intros tabs. clear.
  assert (∀ w0, ∃ opened, window (afterBatch tabs w0) = window w0 ++ opened) as H.
  { induction tabs as [|t r IH]; intros w0.
    - exists []. cbn. by rewrite app_nil_r.
    - destruct (IH (afterOpen w0 t)) as [opened Ho]. cbn in *.
      unfold afterBatch in Ho. rewrite Ho. cbn. rewrite <- app_assoc. eauto. }
  destruct (H w) as [opened ->]. by rewrite take_app_length.
Qed.

Lemma restore_beside_current_tabs_witness :
  let w := Samples.world (Some (<["s3" := Samples.sessionMixed]> ∅)) None
             [Samples.liveX; Samples.liveY] in
  let w' := world_after (restoreSession "s3" false) w in
  collection w !! "s3" = Some Samples.sessionMixed
  ∧ is_session Samples.sessionMixed = true
  ∧ safeFilter (tabs_of Samples.sessionMixed) = [Samples.tabA; Samples.tabB]
  ∧ map fst (history w')
    = [Create (JStr Samples.urlA) false; Create (JStr Samples.urlB) false]
  ∧ map tabUrl (window w')
    = [Some "https://x.com"; Some "https://y.com"; Some Samples.urlA; Some Samples.urlB]
  ∧ pointer w' = Some "s3".
Proof.
  intros w w'. subst w'.
  assert (collection w !! "s3" = Some Samples.sessionMixed) as Hid by (vm_compute; reflexivity).
  assert (is_session Samples.sessionMixed = true) as Hs by (vm_compute; reflexivity).
  assert (safeFilter (tabs_of Samples.sessionMixed) = [Samples.tabA; Samples.tabB]) as Hsafe
    by (vm_compute; reflexivity).
  repeat (split; [assumption|]).
  destruct (restore_beside_current_tabs w "s3" Samples.sessionMixed Samples.tabA
              [Samples.tabB] Hid Hs Hsafe) as (Hh & Hc & Hw & _ & Hp & _).
  split; [rewrite Hh; exact Hc|]. split; [exact Hw|exact Hp].
Defined.

(** *** Import: no overwrite, the count, a second import *)

(** What a turn stores is an object. *)
Lemma importEntry_verdict (r : Realm) (session : JsVal) :
  ∃ verdict : Result (option JsVal),
    (∀ existing imported id,
        importEntry r (existing, imported) (id, session)
        = if present (index existing id) then Ok (existing, imported)
          else match verdict with
               | Throw e => Throw e
               | Ok None => Ok (existing, imported)
               | Ok (Some v) => Ok (<[id := v]> existing, S imported)
               end)
    ∧ ∀ v, verdict = Ok (Some v) → truthy v = true.
Proof.
  destruct (importEntry_shape r session) as (verdict & _ & E & Hv).
  exists verdict. split; [exact E|]. intros v Hverdict.
  by destruct (Hv v Hverdict) as (stabs & safe & _ & _ & ->).
Qed.

Lemma importLoop_keeps (r : Realm) (entries : list (string * JsVal))
    (existing existing' : gmap string JsVal) (n n' : nat) (k : string) :
  importLoop r entries (existing, n) = Ok (existing', n') →
  present (index existing k) = true →
  existing' !! k = existing !! k.
Proof.
  revert existing n. induction entries as [|[id session] rest IH]; intros existing n H Hk.
  - by injection H as <- <-.
  - cbn [importLoop] in H.
    destruct (importEntry_verdict r session) as (verdict & E & _). rewrite E in H.
    destruct (present (index existing id)) eqn:Hex; cbn [rbind] in H.
    { by apply (IH existing n). }
    destruct verdict as [[v|]|e]; cbn [rbind] in H.
    + assert (id ≠ k) as Hne by (intros ->; congruence).
      rewrite (IH _ _ H) by (by rewrite index_insert_ne).
      by apply lookup_insert_ne.
    + by apply (IH existing n).
    + discriminate H.
Qed.

(** X6. An import never overwrites: whatever the payload, and whether the
    import succeeds or fails, every session that was stored is still
    stored under its id, unchanged. *)
Theorem import_never_overwrites
    (w : World) (data : JsVal) (k : string) (v : JsVal)
    (Hk : collection w !! k = Some v) (Hv : truthy v = true) :
  collection (world_after (importSessions data) w) !! k = Some v.
Proof.
  unfold world_after.
  destruct (importSessions data w) as [w' [n|e]] eqn:Hrun; cbn [fst].
  - destruct (import_success data w w' n Hrun) as (entries & existing' & Hloop & ->).
    rewrite collection_with_storage, <- Hk.
    apply (importLoop_keeps (realm w) entries _ _ 0 n); [exact Hloop|].
    by apply (present_stored _ _ v).
  - pose proof (atomic_importSessions data w e) as Ha. rewrite Hrun in Ha.
    specialize (Ha eq_refl). cbn [fst] in Ha.
    unfold collection in *. rewrite Ha. exact Hk.
Qed.

Lemma import_never_overwrites_witness :
  let w := Samples.world (Some (<["s2" := Samples.sessionAB]> ∅)) None [Samples.liveX] in
  let data :=
    exportPayload (<["s2" := Samples.mkSession "s2" "Other" 7 [Samples.tabA]]>
                   (<["s3" := Samples.sessionMixed]> ∅)) in
  collection w !! "s2" = Some Samples.sessionAB
  ∧ truthy Samples.sessionAB = true
  ∧ result_of (importSessions data) w = Ok 1
  ∧ collection (world_after (importSessions data) w) !! "s2" = Some Samples.sessionAB.
Proof.
  intros w data.
  assert (collection w !! "s2" = Some Samples.sessionAB) as Hk by (vm_compute; reflexivity).
  assert (truthy Samples.sessionAB = true) as Hv by reflexivity.
  split; [exact Hk|]. split; [exact Hv|].
  split; [vm_compute; reflexivity|].
  exact (import_never_overwrites w data "s2" Samples.sessionAB Hk Hv).
Defined.

Lemma importLoop_count (r : Realm) (entries : list (string * JsVal))
    (existing existing' : gmap string JsVal) (n n' : nat) :
  all_truthy existing →
  importLoop r entries (existing, n) = Ok (existing', n') →
  (size existing' + n = size existing + n')%nat
  ∧ all_truthy existing'
  ∧ dom existing ⊆ dom existing'.
Proof.
  revert existing n. induction entries as [|[id session] rest IH]; intros existing n Ht H.
  - injection H as <- <-. split; [lia|]. split; [exact Ht|done].
  - cbn [importLoop] in H.
    destruct (importEntry_verdict r session) as (verdict & E & Hv). rewrite E in H.
    destruct (present (index existing id)) eqn:Hex; cbn [rbind] in H.
    { by apply (IH existing n). }
    destruct verdict as [[v|]|e]; cbn [rbind] in H.
    + assert (existing !! id = None) as Hnone.
      { destruct (existing !! id) as [v0|] eqn:E0; [|reflexivity].
        rewrite (present_stored _ _ v0 E0 (Ht id v0 E0)) in Hex. discriminate Hex. }
      assert (all_truthy (<[id := v]> existing)) as Ht'.
      { apply map_Forall_insert_2; [by apply Hv|exact Ht]. }
      destruct (IH _ _ Ht' H) as (Hsize & Hall & Hdom).
      rewrite map_size_insert_None in Hsize by exact Hnone.
      split; [lia|]. split; [exact Hall|].
      intros x Hx. apply Hdom. rewrite dom_insert. apply elem_of_union. by right.
    + by apply (IH existing n).
    + discriminate H.
Qed.

Lemma valid_all_truthy (sessions : gmap string JsVal) :
  valid_collection sessions → all_truthy sessions.
Proof. intros H k v Hk. apply session_truthy. exact (H k v Hk). Qed.

(** X7. On a collection of valid sessions the number an import returns is
    exactly the number of sessions it added: the collection grows by that
    many entries and loses none of its ids. *)
Theorem import_count_is_growth
    (w : World) (data : JsVal) (imported : nat)
    (Hvalid : valid_collection (collection w))
    (Hok : result_of (importSessions data) w = Ok imported) :
  let w' := world_after (importSessions data) w in
  size (collection w') = (size (collection w) + imported)%nat
  ∧ dom (collection w) ⊆ dom (collection w')
  ∧ pointer w' = pointer w.
Proof.
  intros w'. subst w'. unfold world_after, result_of in *.
  destruct (importSessions data w) as [w' r] eqn:Hrun. cbn [fst snd] in *. subst r.
  destruct (import_success data w w' imported Hrun) as (entries & existing' & Hloop & ->).
  rewrite collection_with_storage.
  destruct (importLoop_count _ entries _ _ 0 imported (valid_all_truthy _ Hvalid) Hloop)
    as (Hsize & _ & Hdom).
  split; [lia|]. split; [exact Hdom|reflexivity].
Qed.

Lemma import_count_is_growth_witness :
  let w := Samples.world (Some (<["s2" := Samples.sessionAB]> ∅)) None [Samples.liveX] in
  let data :=
    exportPayload (<["s2" := Samples.sessionAA]> (<["s3" := Samples.sessionMixed]>
                  (<["bad" := JStr "not a session"]> ∅))) in
  let w' := world_after (importSessions data) w in
  valid_collection (collection w)
  ∧ result_of (importSessions data) w = Ok 1
  ∧ size (collection w') = 2%nat.
Proof.
  intros w data w'. subst w'.
  assert (valid_collection (collection w)) as Hvalid.
  { apply map_Forall_insert_2; [vm_compute; reflexivity|apply map_Forall_empty]. }
  assert (result_of (importSessions data) w = Ok 1) as Hok by (vm_compute; reflexivity).
  split; [exact Hvalid|]. split; [exact Hok|].
  destruct (import_count_is_growth w data 1 Hvalid Hok) as (Hsize & _ & _).
  rewrite Hsize. vm_compute. reflexivity.
Defined.

Lemma import_run (data payload : JsVal) (entries : list (string * JsVal))
    (existing' : gmap string JsVal) (n : nat) (w : World) :
  importGuard data = Ok false →
  get_prop data "sessions" = Ok payload →
  object_entries payload = Ok entries →
  importLoop (realm w) entries (collection w, 0) = Ok (existing', n) →
  importSessions data w = (with_storage w (mkStorage (Some existing') (pointer w)), Ok n).
Proof.
  intros Hg Hp He Hl.
  cbv beta iota delta [importSessions bind lift readSessions writeSessions get_realm
    storage_get_sessions storage_set_sessions ret throw].
  rewrite Hg. cbn beta iota. rewrite Hp. cbn beta iota. rewrite He. cbn beta iota.
  change (default ∅ (sessionsKey (storage w))) with (collection w).
  rewrite Hl. reflexivity.
Qed.

Lemma import_success_inv (data : JsVal) (w w' : World) (n : nat) :
  importSessions data w = (w', Ok n) →
  ∃ payload entries existing',
    importGuard data = Ok false
    ∧ get_prop data "sessions" = Ok payload
    ∧ object_entries payload = Ok entries
    ∧ importLoop (realm w) entries (collection w, 0) = Ok (existing', n)
    ∧ w' = with_storage w (mkStorage (Some existing') (pointer w)).
Proof.
  intros H.
  cbv beta iota delta [importSessions bind lift readSessions writeSessions get_realm
    storage_get_sessions storage_set_sessions ret throw] in H.
  destruct (importGuard data) as [[|]|e] eqn:Hg; cbn beta iota in H; try discriminate H.
  destruct (get_prop data "sessions") as [payload|e] eqn:Hp; cbn beta iota in H;
    [|discriminate H].
  destruct (object_entries payload) as [entries|e] eqn:He; cbn beta iota in H;
    [|discriminate H].
  change (default ∅ (sessionsKey (storage w))) with (collection w) in H.
  destruct (importLoop (realm w) entries (collection w, 0))
    as [[existing' imported]|e] eqn:Hloop;
    cbn beta iota in H; [|discriminate H].
  injection H as <- <-. exists payload, entries, existing'.
  split; [reflexivity|]. split; [reflexivity|]. split; [exact He|].
  split; [exact Hloop|reflexivity].
Qed.

(** What a turn adds is found by the next lookup. *)
Lemma importEntry_added (r : Realm) (existing existing' : gmap string JsVal) (n n' : nat)
    (id : string) (session : JsVal) :
  importEntry r (existing, n) (id, session) = Ok (existing', n') →
  (existing' = existing ∧ n' = n) ∨ present (index existing' id) = true.
Proof.
  intros H. destruct (importEntry_verdict r session) as (verdict & E & Hv).
  rewrite E in H. destruct (present (index existing id)).
  { injection H as <- <-. by left. }
  destruct verdict as [[v|]|e]; [|injection H as <- <-; by left|discriminate H].
  injection H as <- <-. right. unfold index. rewrite lookup_insert_eq. by apply Hv.
Qed.

Lemma importLoop_present (r : Realm) (entries : list (string * JsVal))
    (existing existing' : gmap string JsVal) (n n' : nat) (k : string) :
  importLoop r entries (existing, n) = Ok (existing', n') →
  present (index existing k) = true → present (index existing' k) = true.
Proof.
  intros H Hk. unfold index in *. by rewrite (importLoop_keeps _ _ _ _ _ _ _ H Hk).
Qed.

(** After a successful pass every entry of the payload is passed over. *)
Lemma importLoop_settled (r : Realm) (entries : list (string * JsVal))
    (existing existing' : gmap string JsVal) (n n' : nat) :
  importLoop r entries (existing, n) = Ok (existing', n') →
  Forall (λ entry, ∀ m, importEntry r (existing', m) entry = Ok (existing', m)) entries.
Proof.
  revert existing n. induction entries as [|[id session] rest IH]; intros existing n H.
  - constructor.
  - cbn [importLoop] in H.
    destruct (importEntry r (existing, n) (id, session)) as [[existing1 n1]|e] eqn:Hturn;
      cbn [rbind] in H; [|discriminate H].
    constructor; [|by apply (IH existing1 n1)].
    intros m. destruct (importEntry_verdict r session) as (verdict & Hshape & _).
    destruct (present (index existing' id)) eqn:Hthere.
    { rewrite Hshape, Hthere. reflexivity. }
    assert (present (index existing id) = false) as Hbefore.
    { destruct (present (index existing id)) eqn:E; [|reflexivity].
      rewrite Hshape, E in Hturn. injection Hturn as <- <-.
      rewrite (importLoop_present r rest existing existing' n n' id H E) in Hthere.
      discriminate Hthere. }
    destruct (importEntry_added _ _ _ _ _ _ _ Hturn) as [[-> ->]|Hadded].
    + rewrite Hshape, Hbefore in Hturn. rewrite Hshape, Hthere.
      destruct verdict as [[v|]|e]; [|reflexivity|discriminate Hturn].
      injection Hturn as _ Hn. lia.
    + rewrite (importLoop_present r rest existing1 existing' n1 n' id H Hadded) in Hthere.
      discriminate Hthere.
Qed.

Lemma importLoop_fixed (r : Realm) (entries : list (string * JsVal))
    (existing : gmap string JsVal) (m : nat) :
  Forall (λ entry, ∀ m, importEntry r (existing, m) entry = Ok (existing, m)) entries →
  importLoop r entries (existing, m) = Ok (existing, m).
Proof.
  induction 1 as [|entry rest Hentry _ IH]; [reflexivity|].
  cbn [importLoop]. rewrite Hentry. exact IH.
Qed.

(** X8. Importing is idempotent: when an import has succeeded, importing
    the same payload again adds nothing, returns 0 and leaves the world
    exactly as the first import left it. *)
Theorem import_again_adds_nothing
    (w : World) (data : JsVal) (imported : nat)
    (Hok : result_of (importSessions data) w = Ok imported) :
  let w' := world_after (importSessions data) w in
  importSessions data w' = (w', Ok 0).
Proof.
  intros w'. subst w'. unfold world_after, result_of in *.
  destruct (importSessions data w) as [w' r] eqn:Hrun. cbn [fst snd] in *. subst r.
  destruct (import_success_inv data w w' imported Hrun)
    as (payload & entries & existing' & Hg & Hp & He & Hloop & ->).
  set (w1 := with_storage w _).
  assert (collection w1 = existing') as Hc by reflexivity.
  rewrite (import_run data payload entries existing' 0 w1 Hg Hp He).
  - reflexivity.
  - rewrite Hc. apply importLoop_fixed. by apply (importLoop_settled _ _ _ _ _ _ Hloop).
Qed.

Lemma import_again_adds_nothing_witness :
  let w := Samples.world (Some (<["s2" := Samples.sessionAB]> ∅)) None [Samples.liveX] in
  let data :=
    exportPayload (<["s2" := Samples.sessionAA]> (<["s3" := Samples.sessionMixed]> ∅)) in
  let w' := world_after (importSessions data) w in
  result_of (importSessions data) w = Ok 1
  ∧ importSessions data w' = (w', Ok 0).
Proof.
  intros w data w'. subst w'.
  assert (result_of (importSessions data) w = Ok 1) as Hok by (vm_compute; reflexivity).
  split; [exact Hok|].
  exact (import_again_adds_nothing w data 1 Hok).
Defined.

(** *** Every stored tab is safe *)

Section SafeStore.

Lemma captureTabs_filtered_urls (live : list LiveTab) :
  map url_of (captureTabs live)
  = List.filter (λ o, isSafeUrl (of_opt o)) (map tabUrl live).
Proof.
  unfold captureTabs. induction live as [|tab rest IH]; [reflexivity|].
  cbn [List.filter map]. destruct (isSafeUrl (of_opt (tabUrl tab))) eqn:Hsafe.
  - cbn [map]. rewrite IH, url_of_tabRecord. reflexivity.
  - exact IH.
Qed.

Lemma saved_session_valid (id name : string) (now : Z) (live : list LiveTab) :
  is_session
    (JObj (<["id" := JStr id]> (<["name" := JStr name]>
          (<["createdAt" := JNum now]> (<["tabs" := JArr (captureTabs live)]> ∅)))))
  = true.
Proof.
  unfold is_session. rewrite lookup_insert_eq.
  rewrite (lookup_insert_ne _ "id" "name") by done. rewrite lookup_insert_eq.
  rewrite !(lookup_insert_ne _ _ "createdAt") by done. rewrite lookup_insert_eq.
  rewrite !(lookup_insert_ne _ _ "tabs") by done. rewrite lookup_insert_eq.
  apply captureTabs_tabs.
Qed.


End SafeStore.



(** *** Save, then restore *)

Lemma safeFilter_captureTabs (live : list LiveTab) :
  safeFilter (captureTabs live) = captureTabs live.
Proof. apply safe_tabs_filter, captureTabs_safe. Qed.

(** X10. Saving a window and then restoring the saved session with the
    current tabs closed gives back the window's safe tabs: the restore
    skips nothing, and the window afterwards shows exactly the safe URLs
    the window had when it was saved, in the same order. *)
Theorem save_then_restore_reproduces_safe_tabs
    (w : World) (name : string)
    (Hname : trim name ≠ "")
    (Hlive : captureTabs (window w) ≠ [])
    (Hfresh : fresh_ids w) :
  let id := uuids w (drawn w) in
  let w1 := world_after (saveSession name) w in
  let w2 := world_after (restoreSession id true) w1 in
  result_of (restoreSession id true) w1 = Ok 0%Z
  ∧ map tabUrl (window w2)
    = List.filter (λ o, isSafeUrl (of_opt o)) (map tabUrl (window w))
  ∧ pointer w2 = Some id.
Proof.
  intros id w1 w2. subst w2 w1. unfold world_after, result_of.
  rewrite (save_run w name Hname Hlive). cbn [fst].
  set (session := JObj _). set (w1 := mkWorld _ _ _ _ _ _ _ _).
  assert (collection w1 !! id = Some session) as Hid.
  { unfold collection. cbn. apply lookup_insert_eq. }
  assert (is_session session = true) as Hs by apply saved_session_valid.
  assert (tabs_of session = captureTabs (window w)) as Htabs.
  { unfold tabs_of, session, get_prop.
    rewrite !(lookup_insert_ne _ _ "tabs") by done. by rewrite lookup_insert_eq. }
  pose proof (safeFilter_captureTabs (window w)) as Hcap.
  destruct (captureTabs (window w)) as [|first rest] eqn:Hc; [done|].
  assert (safeFilter (tabs_of session) = first :: rest) as Hf.
  { rewrite Htabs. exact Hcap. }
  rewrite (restore_close_run w1 id session first rest Hid Hs Hf). cbn [fst snd].
  split; [rewrite Htabs; f_equal; apply Z.sub_diag|]. split; [|reflexivity].
  change (window (with_storage ?x _)) with (window x).
  rewrite closedWorld_window by exact Hfresh.
  rewrite <- Hc. apply captureTabs_filtered_urls.
Qed.

Lemma save_then_restore_reproduces_safe_tabs_witness :
  let w := Samples.world None None [Samples.liveX; Samples.liveSettings; Samples.liveA] in
  let w1 := world_after (saveSession "Work") w in
  let w2 := world_after (restoreSession "uuid-0" true) w1 in
  trim "Work" ≠ ""
  ∧ captureTabs (window w) ≠ []
  ∧ fresh_ids w
  ∧ result_of (restoreSession "uuid-0" true) w1 = Ok 0%Z
  ∧ map tabUrl (window w2) = [Some "https://x.com"; Some Samples.urlA].
Proof.
  intros w w1 w2. subst w2 w1.
  assert (trim "Work" ≠ "") as Hname by (vm_compute; discriminate).
  assert (captureTabs (window w) ≠ []) as Hlive by (vm_compute; discriminate).
  assert (fresh_ids w) as Hfresh.
  { unfold fresh_ids. cbn. repeat constructor. }
  repeat (split; [assumption|]).
  destruct (save_then_restore_reproduces_safe_tabs w "Work" Hname Hlive Hfresh)
    as (Hr & Hw & _).
  split; [exact Hr|]. exact Hw.
Defined.

(** *** Which errors a handler can raise *)


Lemma import_throws (data : JsVal) (w : World) (e : Error) :
  result_of (importSessions data) w = Throw e →
  e = InvalidFormatError ∨ e = TypeError.
Proof.
  unfold result_of. intros H.
  cbv beta iota delta [importSessions bind lift readSessions writeSessions get_realm
    storage_get_sessions storage_set_sessions ret throw] in H.
  destruct (importGuard_total data) as [[|] Hg]; rewrite Hg in H; cbn beta iota in H.
  { cbn in H. left. congruence. }
  right.
  destruct (get_prop data "sessions") as [payload|e1] eqn:E1; cbn beta iota in H.
  2: { apply get_prop_throws in E1. cbn in H. congruence. }
  destruct (object_entries payload) as [entries|e2] eqn:E2; cbn beta iota in H.
  2: { apply object_entries_throws in E2. cbn in H. congruence. }
  destruct (importLoop _ entries _) as [[existing' imported]|e3] eqn:E3; cbn beta iota in H.
  - cbn in H. discriminate H.
  - apply importLoop_throws in E3. cbn in H. congruence.
Qed.



(** ** Properties of the popup *)

(** *** The file check and the worker's guard *)

(** X12. The popup's check of a parsed file and the worker's guard reject
    exactly the same values.  So a file the popup sends on is never
    answered with "Invalid import file format.". *)
Theorem popup_check_is_worker_guard (parsed : JsVal) (w : World) :
  fileRejected parsed = importGuard parsed
  ∧ match fileRejected parsed with
    | Ok false =>
        (sendMessage (ImportSessions parsed) w).2 ≠ Failure (message InvalidFormatError)
    | _ => True
    end.
Proof.
  assert (fileRejected parsed = importGuard parsed) as Heq.
  { unfold fileRejected, importGuard.
    destruct parsed; cbn [truthy negb typeof get_prop rbind]; try reflexivity;
      rewrite ?bool_decide_eq_true_2 by reflexivity;
      rewrite ?bool_decide_eq_false_2 by discriminate; cbn [negb];
      repeat match goal with
             | |- context [if ?b then _ else _] => destruct b
             end; reflexivity. }
  split; [exact Heq|].
  destruct (fileRejected parsed) as [[|]|e] eqn:Hr; try exact I.
  unfold sendMessage. cbn [handleMessage].
  pose proof (import_throws parsed w) as Hthrows. unfold result_of in Hthrows.
  pose proof (import_invalid_format_iff parsed w) as Hiff. unfold result_of in Hiff.
  unfold bind, ret.
  destruct (importSessions parsed w) as [w' [n|e]]; cbn; [discriminate|].
  intros [= Hmsg]. apply (message_inj e InvalidFormatError) in Hmsg. subst e.
  apply Hiff; [reflexivity|]. apply importGuard_passes. by rewrite <- Heq.
Qed.

(** *** Update and the classification; the banner and the card *)

Lemma filter_length_all {A} (q : A → bool) (l : list A) :
  (length (List.filter q l) =? length l)%nat = forallb q l.
Proof.
  induction l as [|x r IH]; [reflexivity|]. cbn [List.filter forallb].
  destruct (q x); cbn [length andb].
  - exact IH.
  - pose proof (filter_length_le q r) as Hle. apply Nat.eqb_neq. lia.
Qed.

Lemma captured_open (live : list LiveTab) :
  forallb (λ t, bool_decide (url_of t ∈ urlSet live)) (captureTabs live) = true.
Proof.
  apply forallb_forall. intros t Ht. unfold captureTabs in Ht.
  apply in_map_iff in Ht as (tab & <- & Htab). apply filter_In in Htab as [Htab _].
  apply bool_decide_eq_true. rewrite url_of_tabRecord. unfold urlSet.
  apply elem_of_list_to_set, list_elem_of_In, in_map. exact Htab.
Qed.

Lemma tabsMatch_captured (live : list LiveTab) :
  captureTabs live ≠ [] → NoDup (map tabUrl live) →
  tabsMatch (captureTabs live) (urlSet live)
  = Ok (forallb (λ tab, isSafeUrl (of_opt (tabUrl tab))) live).
Proof.
  intros Hne Hnd. rewrite tabsMatch_tabs.
  2: { apply Forall_forall. intros t Ht. apply list_elem_of_In in Ht.
       pose proof (captureTabs_tabs live) as Hall. rewrite forallb_forall in Hall.
       by apply Hall. }
  rewrite captured_open, andb_true_r.
  assert ((0 <? length (captureTabs live))%nat = true) as ->.
  { destruct (captureTabs live); [done|reflexivity]. }
  cbn [andb]. unfold urlSet. rewrite size_list_to_set by exact Hnd.
  rewrite length_map. unfold captureTabs. rewrite length_map.
  by rewrite filter_length_all.
Qed.

(** X13. After a successful update of the tracked session the card of
    that session is Clean exactly when every live tab is safe; with an
    unsafe tab in the window (a settings page, say) it is still Modified,
    since the live URL set includes the URL that was not saved.  Here the
    session is stored under its own [id] and the live URLs are pairwise
    distinct. *)
Theorem update_then_classification
    (w : World) (id : string) (s : JsVal)
    (Hid : collection w !! id = Some s)
    (Hs : is_session s = true)
    (Hkey : get_prop s "id" = Ok (JStr id))
    (Hlive : captureTabs (window w) ≠ [])
    (Hnd : NoDup (map tabUrl (window w))) :
  let w' := world_after (updateSession id) w in
  ∃ s', result_of (updateSession id) w = Ok s'
        ∧ collection w' !! id = Some s'
        ∧ window w' = window w
        ∧ classify s' (urlSet (window w')) (Some id)
          = Ok (if forallb (λ tab, isSafeUrl (of_opt (tabUrl tab))) (window w)
                then Clean else Modified).
Proof.
  intros w'. subst w'. unfold world_after, result_of.
  destruct (session_object s Hs) as [o ->].
  rewrite (update_run w id o Hid Hlive). cbn [fst snd].
  eexists. split; [reflexivity|]. rewrite collection_with_storage.
  split; [apply lookup_insert_eq|]. split; [reflexivity|].
  change (window (with_storage ?x _)) with (window x). cbn [after_call window].
  unfold classify, buildSessionCard.
  rewrite set_prop_other by done. rewrite Hkey. cbn [rbind].
  unfold tabsOf. rewrite set_prop_same. cbn [rbind].
  rewrite (tabsMatch_captured (window w) Hlive Hnd). cbn [rbind].
  unfold activity. cbn [of_active strict_eq isClean isModified isExact].
  rewrite String.eqb_refl.
  by destruct (forallb _ (window w)).
Qed.

Lemma update_then_classification_witness :
  let w := Samples.world (Some (<["s2" := Samples.sessionAB]> ∅)) (Some "s2")
             [Samples.liveA; Samples.liveSettings] in
  let w' := world_after (updateSession "s2") w in
  collection w !! "s2" = Some Samples.sessionAB
  ∧ is_session Samples.sessionAB = true
  ∧ get_prop Samples.sessionAB "id" = Ok (JStr "s2")
  ∧ captureTabs (window w) ≠ []
  ∧ NoDup (map tabUrl (window w))
  ∧ ∃ s', result_of (updateSession "s2") w = Ok s'
          ∧ classify s' (urlSet (window w')) (Some "s2") = Ok Modified.
Proof.
  intros w w'. subst w'.
  assert (collection w !! "s2" = Some Samples.sessionAB) as Hid by (vm_compute; reflexivity).
  assert (is_session Samples.sessionAB = true) as Hs by (vm_compute; reflexivity).
  assert (get_prop Samples.sessionAB "id" = Ok (JStr "s2")) as Hkey
    by (vm_compute; reflexivity).
  assert (captureTabs (window w) ≠ []) as Hlive by (vm_compute; discriminate).
  assert (NoDup (map tabUrl (window w))) as Hnd.
  { apply (bool_decide_unpack _). vm_compute. exact I. }
  repeat (split; [assumption|]).
  destruct (update_then_classification w "s2" Samples.sessionAB Hid Hs Hkey Hlive Hnd)
    as (s' & Hr & _ & _ & Hc).
  exists s'. split; [exact Hr|]. exact Hc.
Defined.

(** X14. The unsaved-changes banner and the card of the tracked session
    agree: the banner is shown exactly when that card is Modified, as
    long as the session has stored tabs or the live set is not empty; and
    without a pointer the banner is hidden. *)
Theorem banner_agrees_with_card
    (sessions : gmap string JsVal) (id : string) (s : JsVal)
    (live : gset (option string))
    (Hid : sessions !! id = Some s)
    (Hs : is_session s = true)
    (Hkey : get_prop s "id" = Ok (JStr id))
    (Hne : id ≠ "")
    (Hshown : tabs_of s ≠ [] ∨ size live ≠ 0%nat) :
  bannerModified sessions live (Some id)
  = rbind (classify s live (Some id)) (λ a, Ok (bool_decide (a = Modified)))
  ∧ bannerModified sessions live None = Ok false.
Proof.
  split; [|reflexivity].
  destruct (tabsOf_session s Hs) as (Ht & Hwf & _).
  unfold bannerModified, classify, buildSessionCard.
  cbn [of_active truthy from_option Datatypes.id].
  destruct (String.eqb_spec id "") as [->|_]; [done|]. cbn [negb].
  rewrite (index_lookup _ _ _ Hid). cbn [present].
  rewrite (session_truthy s Hs). cbn [negb].
  rewrite Hkey, Ht. cbn [rbind strict_eq]. rewrite String.eqb_refl.
  assert (bannerMatch (tabs_of s) live = tabsMatch (tabs_of s) live) as ->.
  { destruct Hshown as [Hn|Hn]; [by apply bannerMatch_nonempty|].
    destruct (tabs_of s) as [|t r]; [|reflexivity].
    unfold bannerMatch, tabsMatch. cbn [length Nat.ltb Nat.leb negb].
    apply Nat.eqb_neq in Hn. rewrite Nat.eqb_sym in Hn. by rewrite Hn. }
  rewrite (tabsMatch_tabs live (tabs_of s) Hwf). cbn [rbind].
  f_equal. unfold activity. cbn [isClean isModified isExact andb negb].
  by destruct (_ && _ && _).
Qed.

Lemma banner_agrees_with_card_witness :
  let sessions : gmap string JsVal := <["s2" := Samples.sessionAB]> ∅ in
  let live : gset (option string) := {[Some Samples.urlA]} in
  sessions !! "s2" = Some Samples.sessionAB
  ∧ is_session Samples.sessionAB = true
  ∧ get_prop Samples.sessionAB "id" = Ok (JStr "s2")
  ∧ "s2" ≠ ""
  ∧ (tabs_of Samples.sessionAB ≠ [] ∨ size live ≠ 0%nat)
  ∧ bannerModified sessions live (Some "s2") = Ok true
  ∧ classify Samples.sessionAB live (Some "s2") = Ok Modified.
Proof.
  intros sessions live.
  assert (sessions !! "s2" = Some Samples.sessionAB) as Hid by (vm_compute; reflexivity).
  assert (is_session Samples.sessionAB = true) as Hs by (vm_compute; reflexivity).
  assert (get_prop Samples.sessionAB "id" = Ok (JStr "s2")) as Hkey
    by (vm_compute; reflexivity).
  assert ("s2" ≠ "") as Hne by discriminate.
  assert (tabs_of Samples.sessionAB ≠ [] ∨ size live ≠ 0%nat) as Hshown.
  { left. vm_compute. discriminate. }
  repeat (split; [assumption|]).
  destruct (banner_agrees_with_card sessions "s2" Samples.sessionAB live
              Hid Hs Hkey Hne Hshown) as [Hb _].
  assert (classify Samples.sessionAB live (Some "s2") = Ok Modified) as Hc
    by (vm_compute; reflexivity).
  rewrite Hc in Hb. split; [exact Hb|exact Hc].
Defined.

(** *** The cached view *)

Section Trim.

Lemma append_cons (a : ascii) (p q : string) : String a p +:+ q = String a (p +:+ q).
Proof. reflexivity. Qed.

Lemma append_nil (q : string) : "" +:+ q = q.
Proof. reflexivity. Qed.

Lemma append_assoc (a b c : string) : (a +:+ b) +:+ c = a +:+ (b +:+ c).
Proof.
  induction a as [|x a IH]; [reflexivity|]. rewrite !append_cons. by rewrite IH.
Qed.

Lemma append_empty_r (a : string) : a +:+ "" = a.
Proof. induction a as [|x a IH]; [reflexivity|]. rewrite append_cons. by rewrite IH. Qed.

Lemma rev_app_append (s t : string) :
  String.rev_app s t = String.rev_app s "" +:+ t.
Proof.
  revert t. induction s as [|c s IH]; intros t; [reflexivity|].
  cbn [String.rev_app]. rewrite (IH (String c t)), (IH (String c "")).
  rewrite append_assoc. reflexivity.
Qed.

Lemma rev_cons (c : ascii) (s : string) :
  String.rev (String c s) = String.rev s +:+ String c "".
Proof. unfold String.rev. cbn [String.rev_app]. apply rev_app_append. Qed.

Lemma rev_append (a b : string) :
  String.rev (a +:+ b) = String.rev b +:+ String.rev a.
Proof.
  induction a as [|x a IH].
  - rewrite append_nil. change (String.rev "") with "". by rewrite append_empty_r.
  - rewrite append_cons, !rev_cons, IH. apply append_assoc.
Qed.

Lemma rev_involutive (s : string) : String.rev (String.rev s) = s.
Proof.
  induction s as [|c s IH]; [reflexivity|].
  rewrite rev_cons, rev_append, IH. reflexivity.
Qed.

Lemma trimStart_head (s : string) (c : ascii) (r : string) :
  trimStart s = String c r → is_space c = false.
Proof.
  induction s as [|a s IH]; [discriminate|]. cbn [trimStart].
  destruct (is_space a) eqn:Ha; [exact IH|]. intros [= <- <-]. exact Ha.
Qed.

Lemma trimStart_fixed (s : string) : trimStart (trimStart s) = trimStart s.
Proof.
  destruct (trimStart s) as [|c r] eqn:E; [reflexivity|].
  cbn [trimStart]. by rewrite (trimStart_head s c r E).
Qed.

(** What [trimStart] removes is a prefix. *)
Lemma trimStart_suffix (s : string) : ∃ p, s = p +:+ trimStart s.
Proof.
  induction s as [|a s [p IH]]; [by exists ""|]. cbn [trimStart].
  destruct (is_space a).
  - exists (String a p). rewrite append_cons. by rewrite <- IH.
  - by exists "".
Qed.

Lemma trim_idempotent (s : string) : trim (trim s) = trim s.
Proof.
  unfold trim at 2. set (u := trimStart s).
  set (t := String.rev (trimStart (String.rev u))).
  assert (trimStart t = t) as Hstart.
  { destruct t as [|c t'] eqn:Et; [reflexivity|].
    destruct (trimStart_suffix (String.rev u)) as [p Hp].
    apply (f_equal String.rev) in Hp. rewrite rev_involutive, rev_append in Hp.
    fold t in Hp. rewrite Et, append_cons in Hp.
    cbn [trimStart]. by rewrite (trimStart_head s c _ Hp). }
  unfold trim. rewrite Hstart. subst t. rewrite rev_involutive, trimStart_fixed.
  reflexivity.
Qed.

End Trim.

Section ViewCoherence.

Lemma fileRejected_guard (parsed : JsVal) : fileRejected parsed = importGuard parsed.
Proof.
  unfold fileRejected, importGuard.
  destruct parsed; cbn [truthy negb typeof get_prop rbind]; try reflexivity;
    rewrite ?bool_decide_eq_true_2 by reflexivity;
    rewrite ?bool_decide_eq_false_2 by discriminate; cbn [negb];
    repeat match goal with
           | |- context [if ?b then _ else _] => destruct b
           end; reflexivity.
Qed.

Lemma sendMessage_reply {A} (c : M A) (f : A → Reply) (w : World) (message : Message) :
  handleMessage message = bind c (λ a, ret (f a)) →
  sendMessage message w
  = match c w with
    | (w', Ok a) => (w', Success (f a))
    | (w', Throw e) => (w', Failure (Js.message e))
    end.
Proof.
  intros H. unfold sendMessage. rewrite H. unfold bind, ret.
  by destruct (c w) as [w' [a|e]].
Qed.

Lemma loadAndRender_run (v : View) (w : World) :
  loadAndRender v w
  = (after_call w Query (window w) (nextTabId w),
     mkView (collection w) (pointer w) (urlSet (window w))).
Proof. reflexivity. Qed.

Lemma coherent_storage (v : View) (w w' : World) :
  storage w' = storage w → coherent v w → coherent v w'.
Proof. unfold coherent, collection, pointer. by intros ->. Qed.

Lemma keyed_storage (w w' : World) :
  storage w' = storage w → keyed (collection w) → keyed (collection w').
Proof. unfold collection. by intros ->. Qed.

Lemma stringId_key (session : JsVal) (k : string) :
  get_prop session "id" = Ok (JStr k) → stringId session = Some k.
Proof. unfold stringId. by intros ->. Qed.

Lemma truthy_name (name : string) :
  negb (truthy (JStr name)) = bool_decide (name = "").
Proof.
  cbn [truthy]. rewrite negb_involutive.
  destruct (String.eqb_spec name "") as [->|E].
  - by rewrite bool_decide_eq_true_2.
  - by rewrite bool_decide_eq_false_2.
Qed.

Lemma pointer_test_view (p : option string) (id : string) :
  strict_eq (of_active p) (JStr id) = bool_decide (p = Some id).
Proof.
  destruct p as [q|]; cbn.
  - destruct (String.eqb_spec q id) as [->|E].
    + by rewrite bool_decide_eq_true_2.
    + rewrite bool_decide_eq_false_2; [reflexivity|congruence].
  - by rewrite bool_decide_eq_false_2.
Qed.

Lemma store_invariant_sent (message : Message) (w : World) :
  store_invariant w → ordinary message → store_invariant (sendMessage message w).1.
Proof.
  intros H Hord. pose proof (handleMessage_preserves message w H Hord) as H'.
  unfold world_after in H'. unfold sendMessage.
  by destruct (handleMessage message w) as [w' [r|e]].
Qed.

Lemma stored_key_plain (w : World) (k : string) (session : JsVal) :
  store_invariant w → collection w !! k = Some session → inherited k = None.
Proof. intros (_ & _ & Hplain & _) Hk. apply Hplain. by exists session. Qed.

Lemma save_view (value : string) (v : View) (w : World) :
  store_invariant w → keyed (collection w) → coherent v w →
  ∃ w' v', doSaveSession value v w = Some (w', Ok v')
           ∧ coherent v' w' ∧ store_invariant w' ∧ keyed (collection w').
Proof.
  intros Hinv Hkeyed Hcoh. unfold doSaveSession. rewrite truthy_name.
  case_bool_decide as Hn.
  { exists w, v. auto. }
  pose proof (store_invariant_sent (SaveSession (trim value)) w Hinv I) as Hinv'.
  rewrite (sendMessage_reply (saveSession (trim value)) SessionReply w) in * by reflexivity.
  assert (trim (trim value) ≠ "") as Hn' by (by rewrite trim_idempotent).
  destruct (captureTabs (window w)) as [|c r] eqn:Hc.
  - rewrite save_nothing_saveable in * by assumption. cbn [fst] in Hinv'.
    eexists _, v. split; [reflexivity|]. split; [|split; [exact Hinv'|]].
    + by apply (coherent_storage v w).
    + by apply (keyed_storage w).
  - rewrite save_run in * by (try assumption; rewrite Hc; discriminate).
    cbn [fst] in Hinv'. rewrite trim_idempotent in *.
    set (id := uuids w (drawn w)) in *. set (session := JObj _) in *.
    assert (get_prop session "id" = Ok (JStr id)) as Hid.
    { unfold session, get_prop. by rewrite lookup_insert_eq. }
    rewrite (stringId_key session id Hid).
    eexists _, _. split; [reflexivity|]. destruct Hcoh as [Hall Hact].
    split; [|split; [exact Hinv'|]].
    + split; [|exact Hact]. cbn [allSessions]. rewrite Hall. reflexivity.
    + unfold collection at 1. cbn [storage sessionsKey from_option Datatypes.id].
      by apply map_Forall_insert_2.
Qed.

Lemma rename_view (session : JsVal) (value : string) (v : View) (w : World) :
  store_invariant w → keyed (collection w) → coherent v w →
  (∃ k, allSessions v !! k = Some session) →
  ∃ w' v', doRenameSession session value v w = Some (w', Ok v')
           ∧ coherent v' w' ∧ store_invariant w' ∧ keyed (collection w').
Proof.
  intros Hinv Hkeyed [Hall Hact] [k Hk]. rewrite Hall in Hk.
  pose proof (Hkeyed k session Hk) as Hid.
  pose proof (valid_lookup _ _ _ (proj1 Hinv) Hk) as Hs.
  pose proof (stored_key_plain w k session Hinv Hk) as Hplain.
  unfold doRenameSession. rewrite (stringId_key session k Hid), truthy_name.
  case_bool_decide as Hn.
  { exists w, v. split; [reflexivity|]. split; [by split|]. by split. }
  pose proof (store_invariant_sent (RenameSession k (trim value)) w Hinv Hplain) as Hinv'.
  rewrite (sendMessage_reply (renameSession k (trim value)) (λ _, DoneReply) w) in *
    by reflexivity.
  assert (trim (trim value) ≠ "") as Hn' by (by rewrite trim_idempotent).
  destruct (session_object session Hs) as [o ->].
  rewrite (rename_run w k (trim value) o Hn' Hk) in *.
  cbn [fst] in Hinv'. rewrite trim_idempotent in *.
  rewrite Hall, (index_lookup _ _ _ Hk).
  eexists _, _. split; [reflexivity|].
  split; [|split; [exact Hinv'|]].
  - split; [reflexivity|exact Hact].
  - rewrite collection_with_storage. apply map_Forall_insert_2; [|exact Hkeyed].
    by rewrite set_prop_other.
Qed.

Lemma update_view (session : JsVal) (v : View) (w : World) :
  store_invariant w → keyed (collection w) → coherent v w →
  (∃ k, allSessions v !! k = Some session) →
  ∃ w' v', doUpdateSession session v w = Some (w', Ok v')
           ∧ coherent v' w' ∧ store_invariant w' ∧ keyed (collection w').
Proof.
  intros Hinv Hkeyed [Hall Hact] [k Hk]. pose proof Hk as Hcached. rewrite Hall in Hk.
  pose proof (Hkeyed k session Hk) as Hid.
  pose proof (valid_lookup _ _ _ (proj1 Hinv) Hk) as Hs.
  pose proof (session_truthy _ Hs) as Ht.
  pose proof (stored_key_plain w k session Hinv Hk) as Hplain.
  unfold doUpdateSession. rewrite (stringId_key session k Hid).
  pose proof (store_invariant_sent (UpdateSession k) w Hinv Hplain) as Hinv'.
  rewrite (sendMessage_reply (updateSession k) SessionReply w) in * by reflexivity.
  destruct (captureTabs (window w)) as [|c r] eqn:Hc.
  - rewrite (update_nothing_saveable w k) in *
      by (try assumption; by apply (present_stored _ _ session)).
    cbn [fst] in Hinv'. eexists _, v. split; [reflexivity|].
    split; [|split; [exact Hinv'|]].
    + by apply (coherent_storage v w).
    + by apply (keyed_storage w).
  - destruct (session_object session Hs) as [o ->].
    rewrite (update_run w k o) in * by (try assumption; rewrite Hc; discriminate).
    cbn [fst] in Hinv'.
    assert (get_prop (set_prop (JObj o) "tabs" (JArr (captureTabs (window w)))) "id"
            = Ok (JStr k)) as Hid' by (by rewrite set_prop_other).
    rewrite Hid'.
    rewrite (bool_decide_eq_false_2 (allSessions v !! k = None)) by (by rewrite Hcached).
    rewrite andb_false_r.
    eexists _, _. split; [reflexivity|].
    split; [|split; [exact Hinv'|]].
    + split; [|exact Hact]. cbn [allSessions]. by rewrite Hall.
    + rewrite collection_with_storage. by apply map_Forall_insert_2.
Qed.

Lemma delete_view (session : JsVal) (v : View) (w : World) :
  store_invariant w → keyed (collection w) → coherent v w →
  (∃ k, allSessions v !! k = Some session) →
  ∃ w' v', doDeleteSession session v w = Some (w', Ok v')
           ∧ coherent v' w' ∧ store_invariant w' ∧ keyed (collection w').
Proof.
  intros Hinv Hkeyed [Hall Hact] [k Hk]. rewrite Hall in Hk.
  pose proof (Hkeyed k session Hk) as Hid.
  pose proof (valid_lookup _ _ _ (proj1 Hinv) Hk) as Hs.
  pose proof (session_truthy _ Hs) as Ht.
  pose proof (stored_key_plain w k session Hinv Hk) as Hplain.
  unfold doDeleteSession. rewrite (stringId_key session k Hid).
  pose proof (store_invariant_sent (DeleteSession k) w Hinv Hplain) as Hinv'.
  rewrite (sendMessage_reply (deleteSession k) (λ _, DoneReply) w) in * by reflexivity.
  rewrite (delete_run w k session Hk Ht) in *. cbn [fst] in Hinv'.
  eexists _, _. split; [reflexivity|].
  split; [|split; [exact Hinv'|]].
  - split; cbn [allSessions currentActiveSessionId].
    + by rewrite Hall.
    + rewrite pointer_test_view, Hact. reflexivity.
  - rewrite collection_with_storage. by apply map_Forall_delete.
Qed.

Lemma import_view (parsed : JsVal) (v : View) (w : World) :
  store_invariant w → coherent v w →
  ∃ w' v', importFile parsed v w = (w', Ok v')
           ∧ coherent v' w' ∧ store_invariant w'.
Proof.
  intros Hinv Hcoh. unfold importFile. rewrite fileRejected_guard.
  destruct (importGuard_total parsed) as [[|] ->].
  { exists w, v. auto. }
  pose proof (store_invariant_sent (ImportSessions parsed) w Hinv I) as Hinv'.
  rewrite (sendMessage_reply (importSessions parsed) ImportReply w) in * by reflexivity.
  destruct (importSessions parsed w) as [w1 [n|e]] eqn:Hrun; cbn [fst] in Hinv'.
  - rewrite loadAndRender_run. eexists _, _. split; [reflexivity|].
    split; [by split|]. by apply (store_invariant_same w1).
  - exists w1, v. split; [reflexivity|]. split; [|exact Hinv'].
    apply (coherent_storage v w); [|exact Hcoh].
    pose proof (atomic_importSessions parsed w e) as Ha. rewrite Hrun in Ha.
    by apply Ha.
Qed.

End ViewCoherence.

(** X15. The popup's cache follows the store.  When the cached sessions
    and pointer equal the stored ones, the stored sessions are valid and
    each is stored under its own [id], which names no inherited member,
    and nothing has been assigned on a built-in object of the worker,
    then loading, saving, renaming,
    updating, deleting one of the cards, or importing a file, exchanges
    its message and updates the cache without an exception, and leaves
    the cache equal to the store again; every action but an import keeps
    each session under its own [id].  The redrawing is not part of the
    statement. *)
Theorem view_follows_store
    (a : Action) (v : View) (w : World)
    (Hinv : store_invariant w)
    (Hkeyed : keyed (collection w))
    (Hcoh : coherent v w)
    (Hoffered : offered a v) :
  ∃ w' v',
    perform a v w = Some (w', Ok v')
    ∧ coherent v' w'
    ∧ store_invariant w'
    ∧ match a with
      | ActImport _ => True
      | _ => keyed (collection w')
      end.
Proof.
  destruct a as [|value|session value|session|session|parsed]; cbn [perform offered] in *.
  - rewrite loadAndRender_run. eexists _, _. split; [reflexivity|].
    split; [by split|]. split; [by apply (store_invariant_same w)|exact Hkeyed].
  - by apply save_view.
  - by apply rename_view.
  - by apply update_view.
  - by apply delete_view.
  - destruct (import_view parsed v w Hinv Hcoh) as (w' & v' & -> & Hc & Hi).
    exists w', v'. auto.
Qed.

Lemma view_follows_store_witness :
  let w := Samples.world (Some (<["s2" := Samples.sessionAB]> ∅)) (Some "s2")
             [Samples.liveX] in
  let v := mkView (<["s2" := Samples.sessionAB]> ∅) (Some "s2") ∅ in
  store_invariant w
  ∧ keyed (collection w)
  ∧ coherent v w
  ∧ offered (ActRename Samples.sessionAB " Trip 2 ") v
  ∧ ∃ w' v',
      perform (ActRename Samples.sessionAB " Trip 2 ") v w = Some (w', Ok v')
      ∧ coherent v' w'
      ∧ allSessions v' !! "s2"
        = Some (Samples.mkSession "s2" "Trip 2" 2 [Samples.tabA; Samples.tabB]).
Proof.
  intros w v.
  assert (store_invariant w) as Hinv.
  { split; [|split; [|split; [|split]]].
    - apply map_Forall_insert_2; [vm_compute; reflexivity|apply map_Forall_empty].
    - unfold pointer_valid. cbn. rewrite lookup_insert_eq. eauto.
    - intros k [x Hk]. unfold collection in Hk. cbn in Hk.
      apply lookup_insert_Some in Hk as [[<- _]|[_ Hk]]; [reflexivity|].
      by rewrite lookup_empty in Hk.
    - apply pristine_fresh.
    - apply sample_uuid_source. }
  assert (keyed (collection w)) as Hkeyed.
  { apply map_Forall_insert_2; [vm_compute; reflexivity|apply map_Forall_empty]. }
  assert (coherent v w) as Hcoh by (split; reflexivity).
  assert (offered (ActRename Samples.sessionAB " Trip 2 ") v) as Hoff.
  { exists "s2". cbn. apply lookup_insert_eq. }
  repeat (split; [assumption|]).
  destruct (view_follows_store (ActRename Samples.sessionAB " Trip 2 ") v w
              Hinv Hkeyed Hcoh Hoff) as (w' & v' & Hp & Hc & _ & _).
  exists w', v'. split; [exact Hp|]. split; [exact Hc|].
  assert (perform (ActRename Samples.sessionAB " Trip 2 ") v w
          = Some (with_storage w
                    (mkStorage
                       (Some (<["s2" := Samples.mkSession "s2" "Trip 2" 2
                                          [Samples.tabA; Samples.tabB]]> ∅))
                       (Some "s2")),
                  Ok (mkView (<["s2" := Samples.mkSession "s2" "Trip 2" 2
                                          [Samples.tabA; Samples.tabB]]> ∅)
                        (Some "s2") ∅))) as Hrun by (vm_compute; reflexivity).
  rewrite Hrun in Hp. injection Hp as <- <-. cbn [allSessions]. apply lookup_insert_eq.
Defined.

(** *** Escaping *)

Section Escaping.

Lemma replaceAll_app (c : ascii) (replacement a b : string) :
  replaceAll c replacement (a +:+ b)
  = replaceAll c replacement a +:+ replaceAll c replacement b.
Proof.
  induction a as [|x r IH]; [by rewrite !append_nil|].
  rewrite append_cons. cbn [replaceAll]. rewrite IH.
  destruct (Ascii.eqb x c).
  - by rewrite append_assoc.
  - by rewrite append_cons.
Qed.

Lemma escapeHtml_app (a b : string) :
  escapeHtml (a +:+ b) = escapeHtml a +:+ escapeHtml b.
Proof. unfold escapeHtml. by rewrite !replaceAll_app. Qed.

Lemma escapeHtml_char (c : ascii) : escapeHtml (String c EmptyString) = escapeChar c.
Proof. destruct c as [[] [] [] [] [] [] [] []]; vm_compute; reflexivity. Qed.

Lemma escapeHtml_cons (c : ascii) (r : string) :
  escapeHtml (String c r) = escapeChar c +:+ escapeHtml r.
Proof.
  change (String c r) with (String c EmptyString +:+ r).
  by rewrite escapeHtml_app, escapeHtml_char.
Qed.

Lemma escapeChar_inert (c : ascii) :
  forallb inert (String.list_ascii_of_string (escapeChar c)) = true.
Proof. destruct c as [[] [] [] [] [] [] [] []]; vm_compute; reflexivity. Qed.

Lemma list_ascii_app (a b : string) :
  String.list_ascii_of_string (a +:+ b)
  = (String.list_ascii_of_string a ++ String.list_ascii_of_string b)%list.
Proof.
  induction a as [|x r IH]; [by rewrite append_nil|].
  rewrite append_cons. cbn [String.list_ascii_of_string]. by rewrite IH.
Qed.

Lemma escapeChar_cases (c : ascii) :
  (c = "&"%char ∧ escapeChar c = "&amp;")
  ∨ (c = "<"%char ∧ escapeChar c = "&lt;")
  ∨ (c = ">"%char ∧ escapeChar c = "&gt;")
  ∨ (c = quoteChar ∧ escapeChar c = "&quot;")
  ∨ (c ≠ "&"%char ∧ escapeChar c = String c EmptyString).
Proof.
  unfold escapeChar.
  destruct (Ascii.eqb_spec c "&") as [->|Hamp]; [by left|].
  destruct (Ascii.eqb_spec c "<") as [->|Hlt]; [by right; left|].
  destruct (Ascii.eqb_spec c ">") as [->|Hgt]; [by right; right; left|].
  destruct (Ascii.eqb_spec c quoteChar) as [->|Hq]; [by right; right; right; left|].
  by right; right; right; right.
Qed.

Lemma escapeChar_prefix_free (c d : ascii) (x y : string) :
  escapeChar c +:+ x = escapeChar d +:+ y → c = d ∧ x = y.
Proof.
  intros H.
  destruct (escapeChar_cases c) as [[-> Ec]|[[-> Ec]|[[-> Ec]|[[-> Ec]|[Hc Ec]]]]];
  destruct (escapeChar_cases d) as [[-> Ed]|[[-> Ed]|[[-> Ed]|[[-> Ed]|[Hd Ed]]]]];
  rewrite ?Ec, ?Ed in H; rewrite ?append_cons, ?append_nil in H;
  try discriminate H;
  try (injection H as <-; by split);
  try (injection H as ? ?; congruence).
Qed.

End Escaping.

(** X16. Text that went through [escapeHtml] contains no [<], no [>] and
    no double quote, so that put inside an element or an attribute value
    it cannot open or close a tag. *)
Theorem escaped_text_is_inert (str : string) :
  forallb inert (String.list_ascii_of_string (escapeHtml str)) = true.
Proof.
  induction str as [|c r IH]; [reflexivity|].
  rewrite escapeHtml_cons, list_ascii_app, forallb_app, escapeChar_inert.
  exact IH.
Qed.

(** X17. [escapeHtml] loses nothing: two texts with the same escaped form
    are the same text. *)
Theorem escapeHtml_injective (a b : string)
    (Hsame : escapeHtml a = escapeHtml b) :
  a = b.
Proof.
  revert b Hsame. induction a as [|c r IH]; intros [|d s] H.
  - reflexivity.
  - rewrite escapeHtml_cons in H. change (escapeHtml "") with "" in H.
    destruct (escapeChar_cases d) as [[_ E]|[[_ E]|[[_ E]|[[_ E]|[_ E]]]]];
      rewrite E, append_cons in H; discriminate H.
  - rewrite escapeHtml_cons in H. change (escapeHtml "") with "" in H.
    destruct (escapeChar_cases c) as [[_ E]|[[_ E]|[[_ E]|[[_ E]|[_ E]]]]];
      rewrite E, append_cons in H; discriminate H.
  - rewrite !escapeHtml_cons in H.
    apply escapeChar_prefix_free in H as [-> H]. f_equal. by apply IH.
Qed.

Lemma escapeHtml_injective_witness :
  escapeHtml "a<b" = escapeHtml ("a" +:+ "<b") ∧ "a<b" = "a" +:+ "<b".
Proof.
  split; [reflexivity|].
  exact (escapeHtml_injective "a<b" ("a" +:+ "<b") eq_refl).
Defined.

(** *** The listing *)

Section Listing.

Lemma session_name (s : JsVal) :
  is_session s = true → get_prop s "name" = Ok (JStr (nameOf s)).
Proof.
  destruct s as [| | | | | |o]; try discriminate. cbn [is_session].
  unfold nameOf, get_prop.
  destruct (o !! "id") as [[]|]; try discriminate.
  destruct (o !! "name") as [[]|]; try discriminate. reflexivity.
Qed.

Lemma session_createdAt (s : JsVal) :
  is_session s = true → createdAtOf s = Some (createdAt s).
Proof.
  destruct s as [| | | | | |o]; try discriminate. cbn [is_session].
  unfold createdAt, createdAtOf, get_prop.
  destruct (o !! "id") as [[]|]; try discriminate.
  destruct (o !! "name") as [[]|]; try discriminate.
  destruct (o !! "createdAt") as [[]|]; try discriminate. reflexivity.
Qed.

Lemma matchesQuery_session (search : string) (s : JsVal) :
  is_session s = true →
  matchesQuery (toLowerCase (trim search)) s = Ok (shown search s).
Proof.
  intros H. unfold matchesQuery, shown. cbn [truthy]. rewrite negb_involutive.
  destruct (String.eqb (toLowerCase (trim search)) ""); [reflexivity|].
  rewrite (session_name s H). reflexivity.
Qed.

Lemma mapM_createdAt (l : list JsVal) :
  Forall (λ s, is_session s = true) l →
  mapM createdAtOf l = Some (map createdAt l).
Proof.
  induction 1 as [|s r Hs _ IH]; [reflexivity|].
  cbn [mapM map]. rewrite (session_createdAt s Hs), IH. reflexivity.
Qed.

Lemma zip_keys (l : list JsVal) :
  zip (map createdAt l) l = map (λ s, (createdAt s, s)) l.
Proof. induction l as [|s r IH]; [reflexivity|]. cbn. by rewrite IH. Qed.

Lemma insertNewest_perm (x : Z * JsVal) (l : list (Z * JsVal)) :
  insertNewest x l ≡ₚ x :: l.
Proof.
  induction l as [|y r IH]; [reflexivity|]. cbn [insertNewest].
  destruct (y.1 <=? x.1)%Z; [reflexivity|].
  rewrite IH. apply Permutation_swap.
Qed.

Lemma sortNewest_perm (l : list (Z * JsVal)) : sortNewest l ≡ₚ l.
Proof.
  induction l as [|x r IH]; [reflexivity|].
  unfold sortNewest in *. cbn [foldr]. by rewrite insertNewest_perm, IH.
Qed.

Lemma insertNewest_sorted (x : Z * JsVal) (l : list (Z * JsVal)) :
  StronglySorted (λ a b, (b.1 ≤ a.1)%Z) l →
  StronglySorted (λ a b, (b.1 ≤ a.1)%Z) (insertNewest x l).
Proof.
  induction 1 as [|y r Hr IH Hy]; [repeat constructor|].
  cbn [insertNewest]. destruct (Z.leb_spec y.1 x.1) as [Hle|Hlt].
  - constructor; [by constructor|].
    constructor; [exact Hle|].
    eapply Forall_impl; [exact Hy|]. cbn. intros z Hz. lia.
  - constructor; [exact IH|].
    rewrite insertNewest_perm. constructor; [lia|exact Hy].
Qed.

Lemma sortNewest_sorted (l : list (Z * JsVal)) :
  StronglySorted (λ a b, (b.1 ≤ a.1)%Z) (sortNewest l).
Proof.
  induction l as [|x r IH]; [constructor|].
  unfold sortNewest in *. cbn [foldr]. by apply insertNewest_sorted.
Qed.

Lemma insertNewest_stable (k : Z) (x : Z * JsVal) (l : list (Z * JsVal)) :
  List.filter (λ p, (p.1 =? k)%Z) (insertNewest x l)
  = List.filter (λ p, (p.1 =? k)%Z) (x :: l).
Proof.
  induction l as [|y r IH]; [reflexivity|]. cbn [insertNewest].
  destruct (Z.leb_spec y.1 x.1) as [Hle|Hlt]; [reflexivity|].
  cbn [List.filter] in *. rewrite IH.
  destruct (Z.eqb_spec x.1 k) as [Hx|Hx]; [|reflexivity].
  destruct (Z.eqb_spec y.1 k) as [Hy|Hy]; [lia|reflexivity].
Qed.

Lemma sortNewest_stable (k : Z) (l : list (Z * JsVal)) :
  List.filter (λ p, (p.1 =? k)%Z) (sortNewest l) = List.filter (λ p, (p.1 =? k)%Z) l.
Proof.
  induction l as [|x r IH]; [reflexivity|].
  unfold sortNewest in *. cbn [foldr]. rewrite insertNewest_stable.
  cbn [List.filter]. by rewrite IH.
Qed.

Lemma keyed_pairs_sorted (l : list (Z * JsVal)) :
  Forall (λ p, p.1 = createdAt p.2) l →
  StronglySorted (λ a b, (b.1 ≤ a.1)%Z) l →
  newestFirst (map snd l).
Proof.
  unfold newestFirst. intros Hk. induction 1 as [|y r Hr IH Hy]; [constructor|].
  apply Forall_cons in Hk as [Hyk Hrk]. cbn [map]. constructor; [by apply IH|].
  apply Forall_map. rewrite Forall_forall in *. intros z Hz. cbn.
  rewrite <- Hyk, <- (Hrk z Hz). by apply Hy.
Qed.

Lemma keyed_pairs_filter (k : Z) (l : list (Z * JsVal)) :
  Forall (λ p, p.1 = createdAt p.2) l →
  List.filter (createdAtIs k) (map snd l) = map snd (List.filter (λ p, (p.1 =? k)%Z) l).
Proof.
  induction 1 as [|p r Hp _ IH]; [reflexivity|].
  cbn [map List.filter]. unfold createdAtIs at 1. rewrite <- Hp, IH.
  by destruct (p.1 =? k)%Z.
Qed.

Lemma pairs_keyed (l : list JsVal) :
  Forall (λ p : Z * JsVal, p.1 = createdAt p.2) (map (λ s, (createdAt s, s)) l).
Proof. apply Forall_map. by apply Forall_forall. Qed.

Lemma pairs_snd (l : list JsVal) : map snd (map (λ s, (createdAt s, s)) l) = l.
Proof. rewrite map_map. cbn. apply map_id. Qed.

End Listing.

(** X18. The list of cards.  For structurally valid sessions the listing
    raises no exception and shows exactly the sessions the search text
    lets through (all of them for a blank text, else those whose name
    contains the trimmed text, letter case apart), each as often as it is
    stored, newest first, sessions with the same creation time in their
    stored order. *)
Theorem listing_is_filtered_newest_first
    (search : string) (values : list JsVal)
    (Hvalid : Forall (λ s, is_session s = true) values) :
  ∃ l,
    entries search values = Some (Ok l)
    ∧ l ≡ₚ List.filter (shown search) values
    ∧ newestFirst l
    ∧ ∀ k, List.filter (createdAtIs k) l
           = List.filter (createdAtIs k) (List.filter (shown search) values).
Proof.
  set (kept := List.filter (shown search) values).
  assert (Forall (λ s, is_session s = true) kept) as Hkept.
  { rewrite Forall_forall in *. intros s Hs.
    apply list_elem_of_In, List.filter_In in Hs as [Hs _].
    by apply Hvalid, list_elem_of_In. }
  assert (entries search values
          = Some (Ok (map snd (sortNewest (map (λ s, (createdAt s, s)) kept))))) as Hrun.
  { unfold entries.
    rewrite (filterR_total _ (shown search)); cycle 1.
    { eapply Forall_impl; [exact Hvalid|]. intros s Hs. by apply matchesQuery_session. }
    fold kept. by rewrite (mapM_createdAt kept Hkept), zip_keys. }
  pose proof (sortNewest_perm (map (λ s, (createdAt s, s)) kept)) as Hperm.
  assert (Forall (λ p : Z * JsVal, p.1 = createdAt p.2)
            (sortNewest (map (λ s, (createdAt s, s)) kept))) as Hkeys.
  { rewrite Hperm. apply pairs_keyed. }
  eexists. split; [exact Hrun|]. split; [|split].
  - rewrite Hperm. by rewrite pairs_snd.
  - apply keyed_pairs_sorted; [exact Hkeys|apply sortNewest_sorted].
  - intros k. rewrite (keyed_pairs_filter k _ Hkeys), sortNewest_stable.
    rewrite <- (keyed_pairs_filter k _ (pairs_keyed kept)). by rewrite pairs_snd.
Qed.

Lemma listing_is_filtered_newest_first_witness :
  Forall (λ s, is_session s = true)
    [Samples.sessionAA; Samples.sessionMixed; Samples.sessionAB]
  ∧ ∃ l,
      entries " Tr " [Samples.sessionAA; Samples.sessionMixed; Samples.sessionAB]
      = Some (Ok l)
      ∧ l ≡ₚ List.filter (shown " Tr ")
               [Samples.sessionAA; Samples.sessionMixed; Samples.sessionAB]
      ∧ newestFirst l.
Proof.
  assert (Forall (λ s, is_session s = true)
            [Samples.sessionAA; Samples.sessionMixed; Samples.sessionAB]) as Hvalid.
  { repeat constructor. }
  split; [exact Hvalid|].
  destruct (listing_is_filtered_newest_first " Tr " _ Hvalid) as (l & Hl & Hp & Hs & _).
  exists l. auto.
Defined.

(** *** The earlier revision *)

Section Earlier.

Lemma createEach_run (tabs : list JsVal) (w : World) :
  Forall (λ t, is_tab t = true) tabs →
  ∃ w', Legacy.createEach tabs w = (w', Ok tt)
        ∧ storage w' = storage w
        ∧ map tabUrl (window w') = (map tabUrl (window w) ++ map url_of tabs)%list
        ∧ ∃ h, history w' = (history w ++ h)%list.
Proof.
  intros H. revert w. induction H as [|t r Ht _ IH]; intros w.
  - exists w. cbn [Legacy.createEach map]. rewrite app_nil_r.
    split; [reflexivity|]. split; [reflexivity|]. split; [reflexivity|].
    exists []. by rewrite app_nil_r.
  - destruct (is_tab_url t Ht) as (u & Hg & Hu).
    cbn [Legacy.createEach]. unfold bind at 1, lift. rewrite Hg.
    unfold bind at 1, tabs_create.
    destruct (IH (after_call w (Create (JStr u) true)
                    (window w ++ [mkTab (nextTabId w) (Some u) None])
                    (S (nextTabId w)))) as (w' & Hrun & Hst & Hwin & h & Hh).
    exists w'. split; [exact Hrun|]. split; [exact Hst|]. split.
    + rewrite Hwin. cbn [after_call window map]. rewrite map_app, Hu. cbn [map tabUrl].
      by rewrite <- app_assoc.
    + eexists. rewrite Hh. cbn [after_call history]. by rewrite <- app_assoc.
Qed.

End Earlier.

(** X19. The filter of the earlier [saveSession] against [isSafeUrl]: a
    tab passes [isSafeUrl] exactly when it passed the earlier filter and
    its URL starts with neither [javascript:] nor [data:]. *)
Theorem earlier_filter_lacked_two_schemes (tab : LiveTab) :
  isSafeUrl (of_opt (tabUrl tab))
  = Legacy.keptByFilter tab
    && negb (startsWith (default "" (tabUrl tab)) "javascript:")
    && negb (startsWith (default "" (tabUrl tab)) "data:").
Proof.
  unfold Legacy.keptByFilter. destruct (tabUrl tab) as [url|]; [|reflexivity].
  cbn [of_opt default from_option Datatypes.id]. rewrite isSafeUrl_string.
  cbn [truthy blocked existsb].
  destruct (String.eqb url ""); [reflexivity|].
  destruct (startsWith url "chrome://"); [reflexivity|].
  destruct (startsWith url "chrome-extension://"); [reflexivity|].
  destruct (startsWith url "about:"); [reflexivity|].
  destruct (startsWith url "edge://"); [reflexivity|].
  destruct (startsWith url "brave://"); [reflexivity|].
  destruct (startsWith url "javascript:"); [reflexivity|].
  destruct (startsWith url "data:"); reflexivity.
Qed.

(** X20. The earlier [restoreSession] with [closeCurrentTabs].  For a
    stored valid session it succeeds; when the window had tabs, the
    removal left an empty window before any tab was created; it ends with
    one tab for every stored tab, unsafe ones included, in stored order;
    and it writes nothing to the storage. *)
Theorem earlier_restore_emptied_the_window
    (w : World) (id : string) (session : JsVal)
    (Hstored : collection w !! id = Some session)
    (Hvalid : is_session session = true) :
  let w' := world_after (Legacy.restoreSession id true) w in
  result_of (Legacy.restoreSession id true) w = Ok tt
  ∧ (window w ≠ [] → (Remove (map tabId (window w)), []) ∈ history w')
  ∧ map tabUrl (window w') = map url_of (tabs_of session)
  ∧ storage w' = storage w.
Proof.
  destruct (session_tabs session Hvalid) as [Htabs Hwf].
  pose proof (session_truthy session Hvalid) as Ht.
  set (w1 := after_call w Query (window w) (nextTabId w)).
  set (w2 := if (0 <? length (map tabId (window w)))%nat
             then after_call w1 (Remove (map tabId (window w))) [] (nextTabId w)
             else w1).
  assert (storage w2 = storage w) as Hst2.
  { unfold w2. by destruct (0 <? _)%nat. }
  assert (window w2 = []) as Hwin2.
  { unfold w2, w1. destruct (window w) as [|t r]; reflexivity. }
  assert (window w ≠ [] →
          ∃ h, history w2 = (h ++ [(Remove (map tabId (window w)), [])])%list) as Hh2.
  { intros Hne. unfold w2. destruct (window w) as [|t r]; [done|].
    cbn [map length Nat.ltb Nat.leb after_call history]. eauto. }
  destruct (createEach_run (tabs_of session) w2 Hwf) as (w' & Hrun & Hst & Hwin & h & Hh).
  assert (Legacy.restoreSession id true w = (w', Ok tt)) as Hall.
  { unfold Legacy.restoreSession, readSessions, storage_get_sessions, bind, ret, lift,
      tabs_query, tabs_remove, get_realm.
    fold (collection w). cbv zeta. rewrite (index_lookup _ _ _ Hstored).
    cbn [present readTabs]. rewrite Ht. cbn [negb].
    fold w1.
    destruct (0 <? length (map tabId (window w)))%nat eqn:Hlen.
    - rewrite (session_read_tabs _ session Hvalid). cbn [Legacy.iterate].
      cbn [after_call window nextTabId] in *.
      rewrite remove_listed; cycle 1.
      { apply Forall_forall. intros t Hin. by apply list_elem_of_fmap_2. }
      subst w2. exact Hrun.
    - rewrite (session_read_tabs _ session Hvalid). cbn [Legacy.iterate].
      subst w2. exact Hrun. }
  unfold world_after, result_of. rewrite Hall. cbn [fst snd].
  split; [reflexivity|]. split; [|split].
  - intros Hne. destruct (Hh2 Hne) as [h2 Hh2']. rewrite Hh, Hh2'.
    apply elem_of_app. left. apply elem_of_app. right. apply list_elem_of_singleton.
    reflexivity.
  - by rewrite Hwin, Hwin2.
  - by rewrite Hst.
Qed.

Lemma earlier_restore_emptied_the_window_witness :
  let w := Samples.world (Some (<["s3" := Samples.sessionMixed]> ∅)) None
             [Samples.liveX; Samples.liveY] in
  collection w !! "s3" = Some Samples.sessionMixed
  ∧ is_session Samples.sessionMixed = true
  ∧ window w ≠ []
  ∧ (Remove [1; 2], []) ∈ history (world_after (Legacy.restoreSession "s3" true) w)
  ∧ map tabUrl (window (world_after (Legacy.restoreSession "s3" true) w))
    = [Some Samples.urlA; Some "chrome://settings"; Some Samples.urlB].
Proof.
  intros w.
  assert (collection w !! "s3" = Some Samples.sessionMixed) as Hstored
    by apply lookup_insert_eq.
  assert (is_session Samples.sessionMixed = true) as Hvalid by reflexivity.
  assert (window w ≠ []) as Hne by discriminate.
  destruct (earlier_restore_emptied_the_window w "s3" Samples.sessionMixed Hstored Hvalid)
    as (_ & Hrem & Hwin & _).
  repeat (split; [assumption|]). split; [exact (Hrem Hne)|exact Hwin].
Defined.
